(** * A word-adjacency model and its randomized sentence search

    Shallow embedding of [model.c]: the builder ([create_model] and its
    helpers), the backtracking search ([find_words],
    [find_words_recursive]) and the formatter ([combine_words]).

    Representation choices.
    - A [Word*] is the index of the word in the model's [words] array.
    - An array together with its element count ([words]/[n_w],
      [sentence_starting_words]/[n_ssw], [next_words]/[n_nw]) is the list
      of its initialised cells; the count is the length of that list and
      the declared capacity is checked at every append, a write past the
      capacity being reported as undefined behaviour.
    - [tested] is the full fixed-size scratch array of the [Word] struct.
    - [rand()] is a stream of naturals, consumed one value per call.
    - Loops that the C code does not bound are run with fuel. *)

From Stdlib Require Import ZArith Ascii String List Lia.
From stdpp Require Import base option list strings.

Local Open Scope string_scope.
Local Open Scope Z_scope.
Local Open Scope list_scope.
Local Open Scope nat_scope.

(** ** Capacities ([#define]s of model.c) *)

Definition MAX_WORD_LENGTH : nat := 50.
Definition MAX_WORDS_IN_MODEL : nat := 100 * 100.
Definition MAX_STARTING_WORDS : nat := 1000.
Definition MAX_FOLLOWING_WORDS : nat := 100.

(** The largest [int]. *)
Definition INT_MAX : Z := 2147483647.

(** ** Outcomes of running a piece of the program *)

Inductive undefined : Type :=
| words_overflow            (* write past words[MAX_WORDS_IN_MODEL] *)
| starting_words_overflow   (* write past sentence_starting_words[MAX_STARTING_WORDS] *)
| next_words_overflow       (* write past next_words[MAX_FOLLOWING_WORDS] *)
| null_dereference          (* this_word == NULL in link_words *)
| wild_pointer              (* a Word* or an index outside its array *)
| division_by_zero          (* random_int: rand() % 0 *)
| assertion_failed          (* random_int: the assert on the drawn value *).

Inductive result (A : Type) : Type :=
| Ret (a : A)               (* the call returns a *)
| Exit1                     (* exit(1) *)
| Undef (u : undefined)     (* undefined behaviour or abort *)
| Timeout                   (* the fuel ran out *).

Arguments Ret {A} a.
Arguments Exit1 {A}.
Arguments Undef {A} u.
Arguments Timeout {A}.

Global Instance result_ret : MRet result := fun A a => Ret a.

Global Instance result_bind : MBind result := fun A B k r =>
  match r with
  | Ret a => k a
  | Exit1 => Exit1
  | Undef u => Undef u
  | Timeout => Timeout
  end.

(** ** Data model *)

(** [struct Word].  [n_nw] is the length of [next_words]. *)
Record Word : Type := mkWord {
  string : String.string;
  n_occurrences : Z;
  is_sentence_ender : bool;
  next_words : list nat;
  tested : list bool
}.

Definition n_nw (w : Word) : nat := length (next_words w).

(** [struct ModelImplementation].  The [sentences]/[n_s] pair is never
    read or written by model.c and is left out. *)
Record Model : Type := mkModel {
  words : list Word;
  sentence_starting_words : list nat
}.

Definition n_w (model : Model) : nat := length (words model).
Definition n_ssw (model : Model) : nat := length (sentence_starting_words model).

Definition set_words (model : Model) (ws : list Word) : Model :=
  {| words := ws; sentence_starting_words := sentence_starting_words model |}.

Definition set_is_sentence_ender (b : bool) (w : Word) : Word :=
  {| string := string w; n_occurrences := n_occurrences w;
     is_sentence_ender := b; next_words := next_words w; tested := tested w |}.

Definition incr_n_occurrences (w : Word) : Word :=
  {| string := string w; n_occurrences := (n_occurrences w + 1)%Z;
     is_sentence_ender := is_sentence_ender w; next_words := next_words w;
     tested := tested w |}.

Definition push_next_word (next_word : nat) (w : Word) : Word :=
  {| string := string w; n_occurrences := n_occurrences w;
     is_sentence_ender := is_sentence_ender w;
     next_words := next_words w ++ [next_word]; tested := tested w |}.

Definition set_tested (t : list bool) (w : Word) : Word :=
  {| string := string w; n_occurrences := n_occurrences w;
     is_sentence_ender := is_sentence_ender w; next_words := next_words w;
     tested := t |}.

(** ** Characters *)

(** [tolower] and [toupper] of the C locale. *)
Definition tolower (c : ascii) : ascii :=
  let n := nat_of_ascii c in
  if (65 <=? n) && (n <=? 90) then ascii_of_nat (n + 32) else c.

Definition toupper (c : ascii) : ascii :=
  let n := nat_of_ascii c in
  if (97 <=? n) && (n <=? 122) then ascii_of_nat (n - 32) else c.

Definition isupper (c : ascii) : bool :=
  let n := nat_of_ascii c in (65 <=? n) && (n <=? 90).

Definition isalpha (c : ascii) : bool :=
  let n := nat_of_ascii c in
  ((65 <=? n) && (n <=? 90)) || ((97 <=? n) && (n <=? 122)).

(** Characters that end an independent clause. *)
Definition ends_clause (c : ascii) : bool :=
  (c =? ".")%char || (c =? "?")%char || (c =? "!")%char || (c =? ";")%char.

(** ** Model builder *)

(** [check_if_ends_sentence]: the returned string is the buffer after the
    call.  [scan_next_word] never produces an empty buffer; on one the C
    code reads before the buffer, here nothing is stripped. *)
Fixpoint check_if_ends_sentence (next_word_buf : String.string)
  : bool * String.string :=
  match next_word_buf with
  | EmptyString => (false, EmptyString)
  | String final_char EmptyString =>
      if ends_clause final_char then (true, EmptyString)
      else (false, String final_char EmptyString)
  | String c rest =>
      let (ends_sentence, rest') := check_if_ends_sentence rest in
      (ends_sentence, String c rest')
  end.

(** [*next_word_buf = tolower( *next_word_buf)]; on the empty buffer this
    rewrites the terminating NUL with itself. *)
Definition decapitalize (next_word_buf : String.string) : String.string :=
  match next_word_buf with
  | EmptyString => EmptyString
  | String c rest => String (tolower c) rest
  end.

Fixpoint search_from (ws : list Word) (i : nat) (next_word_buf : String.string)
  : option nat :=
  match ws with
  | [] => None
  | w :: ws' =>
      if String.eqb (string w) next_word_buf then Some i
      else search_from ws' (S i) next_word_buf
  end.

Definition search_words (model : Model) (next_word_buf : String.string)
  : option nat :=
  search_from (words model) 0 next_word_buf.

(** The [tested] cells of a fresh word are whatever [malloc] returned; the
    search clears the cells it uses before it reads them. *)
Definition fresh_tested : list bool := replicate MAX_FOLLOWING_WORDS false.

Definition create_word (model : Model) (next_word_buf : String.string)
  (ends_sentence : bool) : result (Model * nat) :=
  if n_w model <? MAX_WORDS_IN_MODEL then
    Ret (set_words model
           (words model ++
              [ {| string := next_word_buf; n_occurrences := 1%Z;
                   is_sentence_ender := ends_sentence;
                   next_words := []; tested := fresh_tested |} ]),
         n_w model)
  else Undef words_overflow.

Definition add_next_word_to_model (model : Model) (next_word_buf : String.string)
  (ends_sentence new_sentence : bool) : result (Model * nat) :=
  let next_word_buf :=
    if new_sentence then decapitalize next_word_buf else next_word_buf in
  match search_words model next_word_buf with
  | Some match_ =>
      let upd w :=
        incr_n_occurrences
          (if ends_sentence then set_is_sentence_ender true w else w) in
      Ret (set_words model (alter upd match_ (words model)), match_)
  | None => create_word model next_word_buf ends_sentence
  end.

Definition link_words (model : Model) (this_word : option nat) (next_word : nat)
  : result Model :=
  match this_word with
  | None => Undef null_dereference
  | Some t =>
      match words model !! t with
      | None => Undef wild_pointer
      | Some w =>
          if n_nw w <? MAX_FOLLOWING_WORDS then
            Ret (set_words model (<[t := push_next_word next_word w]> (words model)))
          else Undef next_words_overflow
      end
  end.

Definition push_starting_word (model : Model) (next_word : nat) : result Model :=
  if n_ssw model <? MAX_STARTING_WORDS then
    Ret {| words := words model;
           sentence_starting_words := sentence_starting_words model ++ [next_word] |}
  else Undef starting_words_overflow.

(** The local variables of [create_model] that live across iterations. *)
Record scan_state : Type := mkScan {
  model_of : Model;
  this_word : option nat;
  new_sentence : bool
}.

Definition initialize_model : Model :=
  {| words := []; sentence_starting_words := [] |}.

Definition scan_init : scan_state :=
  {| model_of := initialize_model; this_word := None; new_sentence := true |}.

(** One iteration of the [while (true)] loop of [create_model], for the
    token that [scan_next_word] delivered. *)
Definition scan_step (st : scan_state) (token : String.string) : result scan_state :=
  let (ends_sentence, next_word_buf) := check_if_ends_sentence token in
  '(model, next_word) ←
     add_next_word_to_model (model_of st) next_word_buf ends_sentence (new_sentence st);
  model ← (if new_sentence st then push_starting_word model next_word
           else link_words model (this_word st) next_word);
  let model :=
    if ends_sentence
    then set_words model (alter (set_is_sentence_ender true) next_word (words model))
    else model in
  Ret {| model_of := model; this_word := Some next_word; new_sentence := ends_sentence |}.

Fixpoint scan_loop (st : scan_state) (text : list String.string) : result scan_state :=
  match text with
  | [] => Ret st
  | token :: rest => st' ← scan_step st token; scan_loop st' rest
  end.

(** [create_model], on the tokens that successive [scan_next_word] calls
    read from the (non-NULL) file. *)
Definition create_model (text : list String.string) : result Model :=
  st ← scan_loop scan_init text;
  if n_w (model_of st) =? 0 then Exit1 else Ret (model_of st).

(** ** Sentence search *)

(** What a call of [generate_sentence] works on: the model (the [tested]
    arrays live in its [Word]s), the local array [sentence] and the number
    of [rand()] calls made so far. *)
Record search_state : Type := mkSearch {
  the_model : Model;
  sentence : list nat;
  rand_calls : nat
}.

Definition with_model (s : search_state) (model : Model) : search_state :=
  {| the_model := model; sentence := sentence s; rand_calls := rand_calls s |}.

Definition with_sentence (s : search_state) (a : list nat) : search_state :=
  {| the_model := the_model s; sentence := a; rand_calls := rand_calls s |}.

(** A read through a pointer or index that may be out of range. *)
Definition deref {A : Type} (o : option A) : result A :=
  match o with
  | Some a => Ret a
  | None => Undef wild_pointer
  end.

(** [sentence[i] = w] *)
Definition store_sentence (s : search_state) (i w : nat) : result search_state :=
  if i <? length (sentence s) then Ret (with_sentence s (<[i := w]> (sentence s)))
  else Undef wild_pointer.

(** [word->tested = t], for the word at index [p] *)
Definition store_tested (s : search_state) (p : nat) (t : list bool) : search_state :=
  with_model s
    (set_words (the_model s) (alter (set_tested t) p (words (the_model s)))).

(** [for (int i = 0; i < n_elems; i++) if (!array[i]) return true;] *)
Fixpoint not_all_checked (array : list bool) (n_elems : nat) : bool :=
  match n_elems, array with
  | S n, b :: rest => if negb b then true else not_all_checked rest n
  | _, _ => false
  end.

(** [for (int i = 0; i < n; i++) array[i] = false;] *)
Fixpoint clear_checked (array : list bool) (n : nat) : list bool :=
  match n, array with
  | S n', _ :: rest => false :: clear_checked rest n'
  | _, _ => array
  end.

Section SearchCode.

(** The values that successive calls of [rand()] return. *)
Variable rand : nat -> nat.

(** [random_int].  The range and the result are computed in [Z]; that is
    what the C code computes in [int] as long as the bounds, their
    difference, the range and the result fit an [int], as they do in the
    calls that the search makes, [random_int(0, n - 1)] for a count [n]. *)
Definition random_int (lower_bound upper_bound : Z) (s : search_state)
  : result (Z * search_state) :=
  let range := (upper_bound - lower_bound + 1)%Z in
  if (range =? 0)%Z then Undef division_by_zero
  else
    let random_int := (Z.rem (Z.of_nat (rand (rand_calls s))) range + lower_bound)%Z in
    if (lower_bound <=? random_int)%Z && (random_int <=? upper_bound)%Z
    then Ret (random_int,
              {| the_model := the_model s; sentence := sentence s;
                 rand_calls := S (rand_calls s) |})
    else Undef assertion_failed.

Fixpoint find_words_recursive (fuel : nat) (length cur_index : nat)
  (s : search_state) {struct fuel} : result (bool * search_state) :=
  match fuel with
  | 0 => Timeout
  | S fuel =>
      if length =? cur_index + 1 then
        p ← deref (sentence s !! (length - 1));
        w ← deref (words (the_model s) !! p);
        Ret (is_sentence_ender w, s)
      else
        this_word ← deref (sentence s !! cur_index);
        w ← deref (words (the_model s) !! this_word);
        let s := store_tested s this_word (clear_checked (tested w) (n_nw w)) in
        next_words_loop fuel length cur_index this_word s
  end

(** The [while] loop of [find_words_recursive]. *)
with next_words_loop (fuel : nat) (length cur_index this_word : nat)
  (s : search_state) {struct fuel} : result (bool * search_state) :=
  match fuel with
  | 0 => Timeout
  | S fuel =>
      w ← deref (words (the_model s) !! this_word);
      if not_all_checked (tested w) (n_nw w) then
        '(nw_index, s) ← random_int 0 (Z.of_nat (n_nw w) - 1) s;
        let nw_index := Z.to_nat nw_index in
        was_tested ← deref (tested w !! nw_index);
        if negb was_tested then
          let s := store_tested s this_word (<[nw_index := true]> (tested w)) in
          next_word ← deref (next_words w !! nw_index);
          s ← store_sentence s (cur_index + 1) next_word;
          '(found, s) ← find_words_recursive fuel length (cur_index + 1) s;
          if found : bool then Ret (true, s)
          else next_words_loop fuel length cur_index this_word s
        else next_words_loop fuel length cur_index this_word s
      else Ret (false, s)
  end.

(** The [while] loop of [find_words]; [ssw_checked] is its local array. *)
Fixpoint starting_words_loop (fuel : nat) (length : nat) (ssw_checked : list bool)
  (s : search_state) {struct fuel} : result (bool * search_state) :=
  match fuel with
  | 0 => Timeout
  | S fuel =>
      let model := the_model s in
      if not_all_checked ssw_checked (n_ssw model) then
        '(ssw_index, s) ← random_int 0 (Z.of_nat (n_ssw model) - 1) s;
        let ssw_index := Z.to_nat ssw_index in
        was_checked ← deref (ssw_checked !! ssw_index);
        if negb was_checked then
          let ssw_checked := <[ssw_index := true]> ssw_checked in
          p ← deref (sentence_starting_words model !! ssw_index);
          s ← store_sentence s 0 p;
          '(found, s) ← find_words_recursive fuel length 0 s;
          if found : bool then Ret (true, s)
          else starting_words_loop fuel length ssw_checked s
        else starting_words_loop fuel length ssw_checked s
      else Ret (false, s)
  end.

Definition find_words (fuel : nat) (length : nat) (s : search_state)
  : result (bool * search_state) :=
  let ssw_checked := replicate (n_ssw (the_model s)) false in
  starting_words_loop fuel length ssw_checked s.

End SearchCode.

(** ** Formatter *)

(** [*sentence_string = toupper( *sentence_string)] *)
Definition capitalize (sentence_string : String.string) : String.string :=
  match sentence_string with
  | EmptyString => EmptyString
  | String c rest => String (toupper c) rest
  end.

(** The [for] loop of [combine_words], from index [i] on, over the words
    that [sentence[i]], [sentence[i+1]], ... point to. *)
Fixpoint combine_loop (sentence : list Word) (length i : nat)
  (sentence_string : String.string) : String.string :=
  match sentence with
  | [] => sentence_string
  | next_word :: rest =>
      let buf := sentence_string +:+ string next_word in
      let buf := if i =? length - 1 then buf +:+ "." else buf +:+ " " in
      combine_loop rest length (S i) buf
  end.

Definition combine_words (sentence : list Word) (length : nat) : String.string :=
  capitalize (combine_loop (take length sentence) length 0 EmptyString).

(** The words that the cells of [sentence] point to. *)
Definition pointees (model : Model) (sentence : list nat) : result (list Word) :=
  deref (mapM (fun p => words model !! p) sentence).

(** [generate_sentence]; [s] holds the model, the fresh local array
    [sentence] (of [length] cells, with whatever the stack contained) and
    the position in the [rand()] stream.  [None] is the NULL result. *)
Definition generate_sentence (rand : nat -> nat) (fuel : nat) (length : nat)
  (s : search_state) : result (option String.string * search_state) :=
  '(found, s) ← find_words rand fuel length s;
  if found : bool then
    ws ← pointees (the_model s) (sentence s);
    Ret (Some (combine_words ws length), s)
  else Ret (None, s).

(** ** Big-step reading of the search

    [rec_returns N i s r]: the call [find_words_recursive(N, sentence, i)]
    started in state [s] returns with [r]; likewise for the two [while]
    loops.  One rule per path through the C code.  The functions above and
    these relations are shown to agree below. *)

Section Returns.

Variable rand : nat -> nat.

Inductive rec_returns (N : nat)
  : nat -> search_state -> bool * search_state -> Prop :=
| rec_last i s p w :
    N = i + 1 ->
    sentence s !! (N - 1) = Some p ->
    words (the_model s) !! p = Some w ->
    rec_returns N i s (is_sentence_ender w, s)
| rec_inner i s this_word w r :
    N <> i + 1 ->
    sentence s !! i = Some this_word ->
    words (the_model s) !! this_word = Some w ->
    loop_returns N i this_word
      (store_tested s this_word (clear_checked (tested w) (n_nw w))) r ->
    rec_returns N i s r

with loop_returns (N : nat)
  : nat -> nat -> search_state -> bool * search_state -> Prop :=
| loop_exhausted i this_word s w :
    words (the_model s) !! this_word = Some w ->
    not_all_checked (tested w) (n_nw w) = false ->
    loop_returns N i this_word s (false, s)
| loop_redraw i this_word s w nw_index s1 r :
    words (the_model s) !! this_word = Some w ->
    not_all_checked (tested w) (n_nw w) = true ->
    random_int rand 0 (Z.of_nat (n_nw w) - 1) s = Ret (nw_index, s1) ->
    tested w !! Z.to_nat nw_index = Some true ->
    loop_returns N i this_word s1 r ->
    loop_returns N i this_word s r
| loop_found i this_word s w nw_index s1 next_word s2 s3 :
    words (the_model s) !! this_word = Some w ->
    not_all_checked (tested w) (n_nw w) = true ->
    random_int rand 0 (Z.of_nat (n_nw w) - 1) s = Ret (nw_index, s1) ->
    tested w !! Z.to_nat nw_index = Some false ->
    next_words w !! Z.to_nat nw_index = Some next_word ->
    store_sentence
      (store_tested s1 this_word (<[Z.to_nat nw_index := true]> (tested w)))
      (i + 1) next_word = Ret s2 ->
    rec_returns N (i + 1) s2 (true, s3) ->
    loop_returns N i this_word s (true, s3)
| loop_retry i this_word s w nw_index s1 next_word s2 s3 r :
    words (the_model s) !! this_word = Some w ->
    not_all_checked (tested w) (n_nw w) = true ->
    random_int rand 0 (Z.of_nat (n_nw w) - 1) s = Ret (nw_index, s1) ->
    tested w !! Z.to_nat nw_index = Some false ->
    next_words w !! Z.to_nat nw_index = Some next_word ->
    store_sentence
      (store_tested s1 this_word (<[Z.to_nat nw_index := true]> (tested w)))
      (i + 1) next_word = Ret s2 ->
    rec_returns N (i + 1) s2 (false, s3) ->
    loop_returns N i this_word s3 r ->
    loop_returns N i this_word s r.

Inductive start_returns (N : nat)
  : list bool -> search_state -> bool * search_state -> Prop :=
| start_exhausted ssw_checked s :
    not_all_checked ssw_checked (n_ssw (the_model s)) = false ->
    start_returns N ssw_checked s (false, s)
| start_redraw ssw_checked s ssw_index s1 r :
    not_all_checked ssw_checked (n_ssw (the_model s)) = true ->
    random_int rand 0 (Z.of_nat (n_ssw (the_model s)) - 1) s = Ret (ssw_index, s1) ->
    ssw_checked !! Z.to_nat ssw_index = Some true ->
    start_returns N ssw_checked s1 r ->
    start_returns N ssw_checked s r
| start_found ssw_checked s ssw_index s1 p s2 s3 :
    not_all_checked ssw_checked (n_ssw (the_model s)) = true ->
    random_int rand 0 (Z.of_nat (n_ssw (the_model s)) - 1) s = Ret (ssw_index, s1) ->
    ssw_checked !! Z.to_nat ssw_index = Some false ->
    sentence_starting_words (the_model s) !! Z.to_nat ssw_index = Some p ->
    store_sentence s1 0 p = Ret s2 ->
    rec_returns N 0 s2 (true, s3) ->
    start_returns N ssw_checked s (true, s3)
| start_retry ssw_checked s ssw_index s1 p s2 s3 r :
    not_all_checked ssw_checked (n_ssw (the_model s)) = true ->
    random_int rand 0 (Z.of_nat (n_ssw (the_model s)) - 1) s = Ret (ssw_index, s1) ->
    ssw_checked !! Z.to_nat ssw_index = Some false ->
    sentence_starting_words (the_model s) !! Z.to_nat ssw_index = Some p ->
    store_sentence s1 0 p = Ret s2 ->
    rec_returns N 0 s2 (false, s3) ->
    start_returns N (<[Z.to_nat ssw_index := true]> ssw_checked) s3 r ->
    start_returns N ssw_checked s r.

End Returns.

Scheme rec_returns_mut := Minimality for rec_returns Sort Prop
  with loop_returns_mut := Minimality for loop_returns Sort Prop.
Combined Scheme returns_mutind from rec_returns_mut, loop_returns_mut.

(** ** Vocabulary of the statements about the search *)

(** All pointers of the model point into [words], and every word's
    [tested] array covers its [next_words]. *)
Definition wf_word (model : Model) (w : Word) : Prop :=
  Forall (fun p => p < n_w model) (next_words w) /\
  n_nw w <= length (tested w).

Definition wf_model (model : Model) : Prop :=
  Forall (wf_word model) (words model) /\
  Forall (fun p => p < n_w model) (sentence_starting_words model).

Global Instance wf_model_dec model : Decision (wf_model model).
Proof. unfold wf_model, wf_word. apply _. Defined.

(** What the search may not change in a word: every field except the
    contents of [tested]. *)
Definition persistent (w : Word)
  : String.string * Z * bool * list nat * nat :=
  (string w, n_occurrences w, is_sentence_ender w, next_words w,
   length (tested w)).

Definition same_fields (model model' : Model) : Prop :=
  map persistent (words model') = map persistent (words model) /\
  sentence_starting_words model' = sentence_starting_words model.

(** What a call at position [i] leaves alone in the search state. *)
Definition frame (i : nat) (s s' : search_state) : Prop :=
  same_fields (the_model s) (the_model s') /\
  length (sentence s') = length (sentence s) /\
  rand_calls s <= rand_calls s' /\
  (forall j, j <= i -> sentence s' !! j = sentence s !! j).

(** Word [b] was observed to follow word [a]. *)
Definition follows (model : Model) (a b : nat) : Prop :=
  exists w, words model !! a = Some w /\ b ∈ next_words w.

Definition sentence_ender (model : Model) (p : nat) : Prop :=
  exists w, words model !! p = Some w /\ is_sentence_ender w = true.

(** A valid chain of [N] words. *)
Definition valid_sentence (model : Model) (N : nat) (l : list nat) : Prop :=
  length l = N /\
  (exists p, l !! 0 = Some p /\ p ∈ sentence_starting_words model) /\
  (forall i a b, l !! i = Some a -> l !! (S i) = Some b -> follows model a b) /\
  (exists p, l !! (N - 1) = Some p /\ sentence_ender model p).

(** From position [i] on, the cells of [sentence] in [s'] form a chain
    of the model of [s] that ends the sentence at cell [N - 1]. *)
Definition chain_from (N i : nat) (s s' : search_state) : Prop :=
  (forall j a b, i <= j -> S j < N ->
     sentence s' !! j = Some a -> sentence s' !! (S j) = Some b ->
     follows (the_model s) a b) /\
  (exists p, sentence s' !! (N - 1) = Some p /\ sentence_ender (the_model s) p).

(** How many of the first [n] cells of a marker array are still false:
    the number of indices a search loop has left to try. *)
Fixpoint unchecked (array : list bool) (n : nat) : nat :=
  match n, array with
  | S n', b :: rest => (if b then 0 else 1) + unchecked rest n'
  | _, _ => 0
  end.

(** The markers of word [p] after a call that found nothing: as they
    were before, or all set. *)
Definition refilled (p : nat) (s s' : search_state) : Prop :=
  forall w, words (the_model s) !! p = Some w ->
    exists w', words (the_model s') !! p = Some w' /\
      n_nw w' = n_nw w /\
      (tested w' = tested w \/ unchecked (tested w') (n_nw w') = 0).

(** What the search needs of the state it starts in. *)
Definition search_inv (N : nat) (s : search_state) : Prop :=
  wf_model (the_model s) /\ length (sentence s) = N.

(** A source of random numbers that keeps producing every residue. *)
Definition fair (rand : nat -> nat) : Prop :=
  forall start n r, r < n -> exists k, start <= k /\ rand k mod n = r.

(** The ranges that the search draws from on a model: [n_ssw] in
    [find_words], and [n_nw] of a word in [find_words_recursive]. *)
Definition moduli (model : Model) : list nat :=
  n_ssw model :: map n_nw (words model).

(** A source of random numbers that keeps producing every index of the
    ranges that the search draws from on [model]. *)
Definition fair_for (model : Model) (rand : nat -> nat) : Prop :=
  forall start n r, n ∈ moduli model -> r < n ->
    exists k, start <= k /\ rand k mod n = r.

(** A source of random numbers that keeps producing every index of
    every range of at most [M] indices. *)
Definition fair_upto (M : nat) (rand : nat -> nat) : Prop :=
  forall start n r, n <= M -> r < n -> exists k, start <= k /\ rand k mod n = r.

(** ** What the builder sees in a text

    The builder's view of a token: the word text it looks up (clause
    punctuation stripped, first letter lowered at a sentence start), and
    whether the token ends or starts a sentence. *)

Record observation : Type := mkObs {
  ob_text : String.string;
  ob_ends : bool;
  ob_starts : bool
}.

Definition observe_token (new_sentence : bool) (token : String.string)
  : observation :=
  let (ends_sentence, next_word_buf) := check_if_ends_sentence token in
  {| ob_text := if new_sentence then decapitalize next_word_buf else next_word_buf;
     ob_ends := ends_sentence;
     ob_starts := new_sentence |}.

Fixpoint observe (new_sentence : bool) (text : list String.string)
  : list observation :=
  match text with
  | [] => []
  | token :: rest =>
      let o := observe_token new_sentence token in
      o :: observe (ob_ends o) rest
  end.

Definition observations (text : list String.string) : list observation :=
  observe true text.

(** The value of [new_sentence] after the tokens observed as [obs]. *)
Definition flag_after (new_sentence : bool) (obs : list observation) : bool :=
  match last obs with
  | Some o => ob_ends o
  | None => new_sentence
  end.

(** The distinct word texts, in the order of their first occurrence. *)
Definition add_new (l : list String.string) (x : String.string)
  : list String.string :=
  if decide (x ∈ l) then l else l ++ [x].

Definition vocabulary (obs : list observation) : list String.string :=
  fold_left add_new (map ob_text obs) [].

(** The texts of the words at sentence starts, one per occurrence. *)
Definition starters (obs : list observation) : list String.string :=
  map ob_text (List.filter ob_starts obs).

(** The observed transitions: a word and the word after it in the same
    sentence, one pair per occurrence. *)
Fixpoint transitions (obs : list observation)
  : list (String.string * String.string) :=
  match obs with
  | [] => []
  | a :: rest =>
      match rest with
      | [] => []
      | b :: _ =>
          (if ob_starts b then [] else [(ob_text a, ob_text b)])
          ++ transitions rest
      end
  end.

(** The texts observed after the word [w], one per transition out of it. *)
Definition successors (w : String.string) (obs : list observation)
  : list String.string :=
  map snd (List.filter (fun p => String.eqb (fst p) w) (transitions obs)).

Definition occurrences (w : String.string) (obs : list observation) : nat :=
  length (List.filter (fun o => String.eqb (ob_text o) w) obs).

Definition ends_somewhere (w : String.string) (obs : list observation) : bool :=
  existsb (fun o => String.eqb (ob_text o) w && ob_ends o) obs.

(** The text fits the fixed-size arrays of the model. *)
Definition within_capacity (text : list String.string) : Prop :=
  let obs := observations text in
  length (vocabulary obs) <= MAX_WORDS_IN_MODEL /\
  length (starters obs) <= MAX_STARTING_WORDS /\
  Forall (fun w => length (successors w obs) <= MAX_FOLLOWING_WORDS)
    (vocabulary obs).

Global Instance within_capacity_dec text : Decision (within_capacity text).
Proof. unfold within_capacity. simpl. apply _. Defined.

(** The text of the word a pointer points to. *)
Definition text_at (ws : list Word) (p : nat) : String.string :=
  match ws !! p with
  | Some w => string w
  | None => EmptyString
  end.

(** The entry [w] records what [obs] says about its word; [ws] is the
    array its pointers point into. *)
Definition word_ok (ws : list Word) (obs : list observation) (w : Word) : Prop :=
  n_occurrences w = Z.of_nat (occurrences (string w) obs) /\
  is_sentence_ender w = ends_somewhere (string w) obs /\
  map (text_at ws) (next_words w) = successors (string w) obs /\
  Forall (fun q => q < length ws) (next_words w) /\
  tested w = fresh_tested.

(** The model in [st] is the model of the observations [obs], and the
    loop variables of [create_model] are those after the last of them. *)
Record reflects (obs : list observation) (st : scan_state) : Prop := {
  reflects_vocabulary :
    map string (words (model_of st)) = vocabulary obs;
  reflects_words :
    forall p w, words (model_of st) !! p = Some w ->
      word_ok (words (model_of st)) obs w;
  reflects_starters :
    map (text_at (words (model_of st))) (sentence_starting_words (model_of st))
      = starters obs /\
    Forall (fun q => q < n_w (model_of st)) (sentence_starting_words (model_of st));
  reflects_loop :
    match last obs with
    | None => this_word st = None /\ new_sentence st = true
    | Some o =>
        new_sentence st = ob_ends o /\
        exists p, this_word st = Some p /\ p < n_w (model_of st) /\
                  text_at (words (model_of st)) p = ob_text o
    end
}.

(** A word entry before its first occurrence is counted. *)
Definition blank_word (next_word_buf : String.string) : Word :=
  {| string := next_word_buf; n_occurrences := 0%Z; is_sentence_ender := false;
     next_words := []; tested := fresh_tested |}.

(** What [add_next_word_to_model] does to the entry of the word. *)
Definition count_occurrence (ends_sentence : bool) (w : Word) : Word :=
  incr_n_occurrences
    (if ends_sentence then set_is_sentence_ender true w else w).

(** The array of words with an entry for [next_word_buf], and the index
    of that entry. *)
Definition extend (ws : list Word) (next_word_buf : String.string)
  : list Word * nat :=
  match search_from ws 0 next_word_buf with
  | Some i => (ws, i)
  | None => (ws ++ [blank_word next_word_buf], length ws)
  end.

(** One iteration of the loop of [create_model] for a token observed as
    [o], on arrays without a capacity. *)
Definition ideal_step (st : scan_state) (o : observation) : scan_state :=
  let '(ws, next_word) := extend (words (model_of st)) (ob_text o) in
  let ws := alter (count_occurrence (ob_ends o)) next_word ws in
  let ws :=
    if ob_starts o then ws
    else match this_word st with
         | Some t => alter (push_next_word next_word) t ws
         | None => ws
         end in
  let ws :=
    if ob_ends o then alter (set_is_sentence_ender true) next_word ws else ws in
  {| model_of :=
       {| words := ws;
          sentence_starting_words :=
            sentence_starting_words (model_of st)
            ++ (if ob_starts o then [next_word] else []) |};
     this_word := Some next_word;
     new_sentence := ob_ends o |}.

(** What one iteration does to an entry: [is_next] says that it is the
    entry of the token, [is_this] that it is the entry of the word before. *)
Definition step_word (o : observation) (next_word : nat) (is_next is_this : bool)
  (w : Word) : Word :=
  let w := if is_next then count_occurrence (ob_ends o) w else w in
  let w := if negb (ob_starts o) && is_this then push_next_word next_word w else w in
  if ob_ends o && is_next then set_is_sentence_ender true w else w.

(** There is room in the arrays for the observation [o] after [obs]. *)
Definition room_for (obs : list observation) (o : observation) : Prop :=
  (ob_text o ∈ vocabulary obs \/ length (vocabulary obs) < MAX_WORDS_IN_MODEL) /\
  (if ob_starts o then length (starters obs) < MAX_STARTING_WORDS
   else forall a, last obs = Some a ->
          length (successors (ob_text a) obs) < MAX_FOLLOWING_WORDS).

(** The undefined behaviours that are writes past one of the arrays. *)
Definition is_overflow (u : undefined) : Prop :=
  u = words_overflow \/ u = starting_words_overflow \/ u = next_words_overflow.

Global Instance room_for_dec obs o : Decision (room_for obs o).
Proof.
  unfold room_for. destruct (ob_starts o); [apply _|].
  destruct (last obs) as [a|].
  - destruct (decide (length (successors (ob_text a) obs) < MAX_FOLLOWING_WORDS)).
    + destruct (decide (ob_text o ∈ vocabulary obs
                        \/ length (vocabulary obs) < MAX_WORDS_IN_MODEL)).
      * left. split; [assumption|]. intros a' Ha. injection Ha as <-. assumption.
      * right. tauto.
    + right. intros [_ H]. apply n, H. reflexivity.
  - destruct (decide (ob_text o ∈ vocabulary obs
                      \/ length (vocabulary obs) < MAX_WORDS_IN_MODEL)).
    + left. split; [assumption|]. intros a' Ha. discriminate.
    + right. tauto.
Defined.

Definition total_occurrences (ws : list Word) : Z :=
  foldr (fun w acc => (n_occurrences w + acc)%Z) 0%Z ws.

(** ** Vocabulary of the statements about the formatter *)

(** [isspace] of the C locale. *)
Definition isspace (c : ascii) : bool :=
  let n := nat_of_ascii c in (n =? 32) || ((9 <=? n) && (n <=? 13)).

(** The number of whitespace-separated tokens of a string, counted from
    inside a token or not. *)
Fixpoint count_tokens_from (in_token : bool) (s : String.string) : nat :=
  match s with
  | EmptyString => 0
  | String c rest =>
      if isspace c then count_tokens_from false rest
      else (if in_token then 0 else 1) + count_tokens_from true rest
  end.

Definition count_tokens (s : String.string) : nat := count_tokens_from false s.

Definition starts_uppercase (s : String.string) : bool :=
  match s with
  | EmptyString => false
  | String c _ => isupper c
  end.

Fixpoint ends_with_period (s : String.string) : bool :=
  match s with
  | EmptyString => false
  | String c rest =>
      match rest with
      | EmptyString => (c =? ".")%char
      | String _ _ => ends_with_period rest
      end
  end.

(** The last character is a period and the one before it, if there is
    one, is not. *)
Fixpoint ends_with_one_period (s : String.string) : bool :=
  match s with
  | EmptyString => false
  | String c rest =>
      match rest with
      | EmptyString => (c =? ".")%char
      | String d rest' =>
          match rest' with
          | EmptyString => negb (c =? ".")%char && (d =? ".")%char
          | String _ _ => ends_with_one_period rest
          end
      end
  end.

Fixpoint no_space (s : String.string) : bool :=
  match s with
  | EmptyString => true
  | String c rest => negb (isspace c) && no_space rest
  end.

(** A word text as the formatter expects it: not empty, no white space. *)
Definition plain (s : String.string) : Prop := s <> EmptyString /\ no_space s = true.

Definition starts_with_letter (s : String.string) : bool :=
  match s with
  | EmptyString => false
  | String c _ => isalpha c
  end.

(** ** Worked examples *)

(** The search state in which [generate_sentence] starts on a freshly
    built model: no [rand()] call made yet, [sentence] holding zeros. *)
Definition start_state (model : Model) (length : nat) : search_state :=
  {| the_model := model; sentence := replicate length 0; rand_calls := 0 |}.

Definition model_of_text (text : list String.string) : Model :=
  match create_model text with
  | Ret model => model
  | _ => initialize_model
  end.

(** "The cat sat. The dog ran." *)
Definition cat_dog : list String.string :=
  ["The"; "cat"; "sat."; "The"; "dog"; "ran."].

(** "a a c d." *)
Definition aacd : list String.string := ["a"; "a"; "c"; "d."].

(** "a a a b." *)
Definition aaab : list String.string := ["a"; "a"; "a"; "b."].

(** The state in which a run ended ([s] itself if it did not return). *)
Definition final_state {A : Type} (s : search_state)
  (r : result (A * search_state)) : search_state :=
  match r with
  | Ret (_, s') => s'
  | _ => s
  end.

(** Two sources of random numbers: the second starts with 0, 0, 0 and
    goes on like the first. *)
Definition counting : nat -> nat := fun k => k.

Definition zeros_then_counting : nat -> nat :=
  fun k => if k <? 3 then 0 else k.

(** The least [RAND_MAX] that the C standard allows, and two sources of
    random numbers within it: one that runs through 0, ..., [RAND_MAX]
    again and again, and one that returns 0 every time. *)
Definition RAND_MAX : nat := 128 * 256 - 1.

Definition cycling : nat -> nat := fun k => k mod (S RAND_MAX).

Definition always_zero : nat -> nat := fun _ => 0.

(** "a. b." *)
Definition a_b : list String.string := ["a."; "b."].


From Stdlib Require Import DecimalString.

(** ** Vocabulary of the further statements about the search *)

(** A result that is neither an undefined behaviour nor [exit(1)]: the
    call returns, or is still running when the fuel is used up. *)
Definition no_fault {A : Type} (r : result A) : Prop :=
  match r with
  | Ret _ | Timeout => True
  | Exit1 | Undef _ => False
  end.

(** Two results of the same kind, with values related by [R]. *)
Definition rel_result {A B : Type} (R : A -> B -> Prop)
  (r1 : result A) (r2 : result B) : Prop :=
  match r1, r2 with
  | Ret a, Ret b => R a b
  | Exit1, Exit1 => True
  | Undef u1, Undef u2 => u1 = u2
  | Timeout, Timeout => True
  | _, _ => False
  end.

(** Two search states that may differ in the contents of the [tested]
    arrays only; for the words of [A] not even there, as far as the
    markers in use (the first [n_nw] cells) go. *)
Definition agree (A : nat -> Prop) (s1 s2 : search_state) : Prop :=
  same_fields (the_model s1) (the_model s2) /\
  sentence s2 = sentence s1 /\
  rand_calls s2 = rand_calls s1 /\
  forall p w1 w2, A p ->
    words (the_model s1) !! p = Some w1 -> words (the_model s2) !! p = Some w2 ->
    take (n_nw w1) (tested w2) = take (n_nw w1) (tested w1).

Definition agree_outcome (A : nat -> Prop) (x y : bool * search_state) : Prop :=
  x.1 = y.1 /\ agree A x.2 y.2.

(** The words that [k] links lead to from word [a], one entry per path. *)
Fixpoint walk (model : Model) (k : nat) (a : nat) : list nat :=
  match k with
  | 0 => [a]
  | S k =>
      match words model !! a with
      | Some w => flat_map (walk model k) (next_words w)
      | None => []
      end
  end.

(** No word of the model leads back to itself by 1 to [n] links. *)
Definition no_cycle_within (model : Model) (n : nat) : Prop :=
  forall p k, p < n_w model -> 1 <= k <= n -> p ∉ walk model k p.

Global Instance no_cycle_within_dec model n : Decision (no_cycle_within model n).
Proof.
  refine (cast_if (decide (Forall (fun p =>
            Forall (fun k => p ∉ walk model k p) (seq 1 n)) (seq 0 (n_w model)))));
    unfold no_cycle_within.
  - intros p k Hp Hk. rewrite Forall_forall in f.
    assert (Hin : p ∈ seq 0 (n_w model)) by (apply elem_of_seq; lia).
    specialize (f p Hin). rewrite Forall_forall in f.
    apply f. apply elem_of_seq. lia.
  - intros H. apply n0. apply Forall_forall. intros p Hp.
    apply Forall_forall. intros k Hk.
    apply elem_of_seq in Hp. apply elem_of_seq in Hk. apply H; lia.
Defined.

(** [d] links lead from word [p] to a word that ends sentences. *)
Fixpoint can_finish (model : Model) (d : nat) (p : nat) : Prop :=
  match d with
  | 0 => sentence_ender model p
  | S d => exists q, follows model p q /\ can_finish model d q
  end.

(** ** Reading the text

    The file is the string of the characters that are left to read. *)

(** The scanset [[a-zA-Z!?,.;:']] of the format of [scan_next_word]. *)
Definition in_scanset (c : ascii) : bool :=
  isalpha c || (c =? "!")%char || (c =? "?")%char || (c =? ",")%char
  || (c =? ".")%char || (c =? ";")%char || (c =? ":")%char || (c =? "'")%char.

(** A white-space directive of a [fscanf] format: white space is read up
    to the first character that is none. *)
Fixpoint skip_space (text : String.string) : String.string :=
  match text with
  | EmptyString => EmptyString
  | String c rest => if isspace c then skip_space rest else text
  end.

(** A [%[...]] directive of field width [width]: the longest run of
    characters of the set, at most [width] of them, and what is left. *)
Fixpoint scan_set (set : ascii -> bool) (width : nat) (text : String.string)
  : String.string * String.string :=
  match width, text with
  | S width, String c rest =>
      if set c then
        let (matched, rest') := scan_set set width rest in
        (String c matched, rest')
      else (EmptyString, text)
  | _, _ => (EmptyString, text)
  end.

Definition EOF : Z := (-1)%Z.

(** [fscanf(text, " %50[a-zA-Z!?,.;:'] %*50[^a-zA-Z!?,.;:']", next_word_buf)]:
    the value returned, what has been stored in [next_word_buf] (nothing
    if the first conversion failed) and what is left of the file.  The
    first conversion fails at the end of the file (the result is [EOF])
    and on a character outside the set (the result is 0); the second one
    assigns nothing and its failure does not change the result. *)
Definition fscanf_word (text : String.string)
  : Z * option String.string * String.string :=
  let text := skip_space text in
  match text with
  | EmptyString => (EOF, None, text)
  | String _ _ =>
      let (matched, text) := scan_set in_scanset 50 text in
      match matched with
      | EmptyString => (0%Z, None, text)
      | String _ _ =>
          let text := skip_space text in
          let (_, text) := scan_set (fun c => negb (in_scanset c)) 50 text in
          (1%Z, Some matched, text)
      end
  end.

(** [scan_next_word]: [None] stands for the result -1, [Some] for the
    result 0, with the contents of [next_word_buf] and what is left of
    the file. *)
Definition scan_next_word (text : String.string)
  : option (String.string * String.string) :=
  let '(n_scanned, next_word_buf, text) := fscanf_word text in
  if negb (n_scanned =? 1)%Z then None
  else match next_word_buf with
       | Some buf => Some (buf, text)
       | None => None
       end.

(** The strings that the loop of [create_model] gets from
    [scan_next_word] until that fails, in at most [fuel] iterations. *)
Fixpoint read_words_within (fuel : nat) (text : String.string)
  : list String.string :=
  match fuel with
  | 0 => []
  | S fuel =>
      match scan_next_word text with
      | Some (next_word_buf, text) => next_word_buf :: read_words_within fuel text
      | None => []
      end
  end.

(** Every successful call consumes a character, so that the loop makes
    no more iterations than the file has characters. *)
Definition read_words (text : String.string) : list String.string :=
  read_words_within (String.length text) text.

(** [create_model] on a [FILE*]: [None] is the NULL pointer. *)
Definition create_model_from_file (text : option String.string) : result Model :=
  match text with
  | None => Exit1
  | Some text => create_model (read_words text)
  end.

Fixpoint all_chars (p : ascii -> bool) (s : String.string) : bool :=
  match s with
  | EmptyString => true
  | String c rest => p c && all_chars p rest
  end.

(** A string that [scan_next_word] reads as one word. *)
Definition word_text (w : String.string) : Prop :=
  w <> EmptyString /\ String.length w <= MAX_WORD_LENGTH /\
  all_chars in_scanset w = true.

(** A string between two words that [scan_next_word] skips in one call:
    no character of the set, and no more than 50 characters after the
    leading white space. *)
Definition separator (sep : String.string) : Prop :=
  sep <> EmptyString /\ all_chars (fun c => negb (in_scanset c)) sep = true /\
  String.length (skip_space sep) <= 50.

(** Words, each followed by a separator. *)
Fixpoint interleave (items : list (String.string * String.string)) : String.string :=
  match items with
  | [] => EmptyString
  | (w, sep) :: rest => w +:+ sep +:+ interleave rest
  end.

Definition starts_in_scanset (text : String.string) : bool :=
  match text with
  | EmptyString => false
  | String c _ => in_scanset c
  end.

(** ** Printing the model *)

(** The characters that [%d] prints for an [int]. *)
Definition print_int (n : Z) : String.string :=
  NilZero.string_of_int (Z.to_int n).

Definition newline : String.string := String "010" EmptyString.

(** The inner loop of [print_model]: the texts of the words that the
    cells of [next_words] point to, each followed by a blank. *)
Fixpoint print_next_words (model : Model) (next_words : list nat)
  : result String.string :=
  match next_words with
  | [] => Ret EmptyString
  | p :: rest =>
      w ← deref (words model !! p);
      out ← print_next_words model rest;
      Ret (string w +:+ " " +:+ out)
  end.

(** One iteration of the first loop of [print_model]. *)
Definition print_word (model : Model) (word : Word) : result String.string :=
  out ← print_next_words model (next_words word);
  Ret (string word +:+ " (" +:+ print_int (n_occurrences word) +:+ ")"
       +:+ (if is_sentence_ender word then " (se)" else EmptyString)
       +:+ ": " +:+ out +:+ newline).

Fixpoint print_words (model : Model) (ws : list Word) : result String.string :=
  match ws with
  | [] => Ret EmptyString
  | word :: rest =>
      line ← print_word model word;
      out ← print_words model rest;
      Ret (line +:+ out)
  end.

(** The second loop of [print_model]. *)
Fixpoint print_starting_words (model : Model) (ssw : list nat)
  : result String.string :=
  match ssw with
  | [] => Ret EmptyString
  | p :: rest =>
      word ← deref (words model !! p);
      out ← print_starting_words model rest;
      Ret (string word +:+ newline +:+ out)
  end.

(** [print_model]: what it writes to the standard output. *)
Definition print_model (model : Model) : result String.string :=
  ws ← print_words model (words model);
  ssw ← print_starting_words model (sentence_starting_words model);
  Ret ("----------MODEL----------" +:+ newline
       +:+ "---Model size: " +:+ print_int (Z.of_nat (n_w model)) +:+ " words"
       +:+ newline
       +:+ "---Words:" +:+ newline
       +:+ ws
       +:+ "---Sentence-starting words (" +:+ print_int (Z.of_nat (n_ssw model))
       +:+ "):" +:+ newline
       +:+ ssw
       +:+ "---------------------------" +:+ newline).

(** The number of lines of an output: of its newline characters. *)
Fixpoint count_lines (out : String.string) : nat :=
  match out with
  | EmptyString => 0
  | String c rest => (if (c =? "010")%char then 1 else 0) + count_lines rest
  end.

(** The pointers of the model point to entries of [words]. *)
Definition pointers_in_range (model : Model) : Prop :=
  Forall (fun w => Forall (fun p => p < n_w model) (next_words w)) (words model) /\
  Forall (fun p => p < n_w model) (sentence_starting_words model).

Definition not_newline (c : ascii) : bool := negb (c =? "010")%char.

(** ** The two programs

    [fopen] maps the name of a readable file to its contents. *)

(** [main] of print_model.c: what it writes to the standard output.
    Without an argument [argv[1]] is the null pointer that ends [argv]. *)
Definition print_model_main (fopen : String.string -> option String.string)
  (argv : list String.string) : result String.string :=
  match argv !! 1 with
  | None => Undef null_dereference
  | Some filename =>
      match fopen filename with
      | None => Undef assertion_failed
      | Some text =>
          model ← create_model_from_file (Some text);
          print_model model
      end
  end.

Definition isdigit (c : ascii) : bool :=
  let n := nat_of_ascii c in (48 <=? n) && (n <=? 57).

(** The value of a string of decimal digits that follows digits of
    value [acc]. *)
Fixpoint decimal_value (acc : Z) (digits : String.string) : Z :=
  match digits with
  | EmptyString => acc
  | String c rest =>
      decimal_value (10 * acc + Z.of_nat (nat_of_ascii c - 48))%Z rest
  end.

Definition INT_MIN : Z := (-2147483648)%Z.

(** [sscanf(s, "%d", &n)]: the value returned and the value assigned to
    [n], if any; [None] when the number read cannot be represented in an
    [int], which is undefined behaviour.  White space is skipped; at the
    end of the string the result is [EOF]; a sign and digits are read,
    and without a digit the conversion fails with the result 0. *)
Definition sscanf_int (s : String.string) : option (Z * option Z) :=
  match skip_space s with
  | EmptyString => Some (EOF, None)
  | String c rest =>
      let (negative, unsigned) :=
        if (c =? "-")%char then (true, rest)
        else if (c =? "+")%char then (false, rest)
        else (false, String c rest) in
      let (digits, _) := scan_set isdigit (String.length unsigned) unsigned in
      match digits with
      | EmptyString => Some (0%Z, None)
      | String _ _ =>
          let n := decimal_value 0 digits in
          let n := if negative then (- n)%Z else n in
          if (INT_MIN <=? n)%Z && (n <=? INT_MAX)%Z then Some (1%Z, Some n)
          else None
      end
  end.

(** How a run of a program ends. *)
Inductive fault : Type :=
| model_fault (u : undefined)
| int_out_of_range
| array_size_not_positive.

Inductive outcome : Type :=
| Prints (stdout : String.string)
| Exits_1
| Faults (f : fault)
| Runs_on.

Definition quote : String.string := String "034" EmptyString.

(** The two lines that print_random_sentence.c can print. *)
Definition no_sentence_line : String.string :=
  "No sentences of selected length possible from this model." +:+ newline.

Definition sentence_line (n_words : Z) (sentence_string : String.string)
  : String.string :=
  "Random sentence of " +:+ print_int n_words +:+ " words: "
  +:+ quote +:+ sentence_string +:+ quote +:+ newline.

(** [main] of print_random_sentence.c.  [stack_int] is the value that
    [n_words] holds when [sscanf] assigns none, [stack_words i] what cell
    [i] of the array [sentence] of [generate_sentence] holds at first;
    [rand] yields the values of [rand()] after the call of [srand]. *)
Definition print_random_sentence_main
  (fopen : String.string -> option String.string) (rand : nat -> nat)
  (fuel : nat) (stack_int : Z) (stack_words : nat -> nat)
  (argv : list String.string) : outcome :=
  if negb (length argv =? 3) then Exits_1
  else
    match argv !! 1, argv !! 2 with
    | Some filename, Some arg =>
        match sscanf_int arg with
        | None => Faults int_out_of_range
        | Some (n_scanned, assigned) =>
            if (n_scanned =? 0)%Z then Exits_1
            else
              let n_words := default stack_int assigned in
              match fopen filename with
              | None => Exits_1
              | Some text =>
                  match create_model_from_file (Some text) with
                  | Exit1 => Exits_1
                  | Undef u => Faults (model_fault u)
                  | Timeout => Runs_on
                  | Ret model =>
                      if (n_words <=? 0)%Z then Faults array_size_not_positive
                      else
                        let n := Z.to_nat n_words in
                        let s := {| the_model := model;
                                    sentence := map stack_words (seq 0 n);
                                    rand_calls := 0 |} in
                        match generate_sentence rand fuel n s with
                        | Ret (None, _) => Prints no_sentence_line
                        | Ret (Some sentence_string, _) =>
                            Prints (sentence_line n_words sentence_string)
                        | Exit1 => Exits_1
                        | Undef u => Faults (model_fault u)
                        | Timeout => Runs_on
                        end
                  end
              end
        end
    | _, _ => Exits_1
    end.
(** * Proofs *)

(** ** The embedding at work *)

Example cat_dog_model :
  map string (words (model_of_text cat_dog)) = ["the"; "cat"; "sat"; "dog"; "ran"] /\
  map n_occurrences (words (model_of_text cat_dog)) = [2; 1; 1; 1; 1]%Z /\
  map is_sentence_ender (words (model_of_text cat_dog))
    = [false; false; true; false; true] /\
  map next_words (words (model_of_text cat_dog)) = [[1; 3]; [2]; []; [4]; []] /\
  sentence_starting_words (model_of_text cat_dog) = [0; 0].
Proof. repeat split; vm_compute; reflexivity. Qed.

Example cat_dog_three_words :
  exists s', generate_sentence counting 10 3 (start_state (model_of_text cat_dog) 3)
             = Ret (Some "The dog ran.", s').
Proof. eexists. vm_compute. reflexivity. Qed.

Example cat_dog_two_words :
  exists s', generate_sentence counting 10 2 (start_state (model_of_text cat_dog) 2)
             = Ret (None, s').
Proof. eexists. vm_compute. reflexivity. Qed.

Example aaab_five_words :
  exists s', generate_sentence counting 30 5 (start_state (model_of_text aaab) 5)
             = Ret (Some "A a a a b.", s').
Proof. eexists. vm_compute. reflexivity. Qed.

Example no_words_found : create_model [] = Exit1.
Proof. reflexivity. Qed.

Example out_of_fuel :
  generate_sentence counting 2 3 (start_state (model_of_text cat_dog) 3) = Timeout.
Proof. vm_compute. reflexivity. Qed.

(** ** The result monad *)

Lemma bind_Ret {A B : Type} (r : result A) (k : A -> result B) (b : B) :
  mbind k r = Ret b -> exists a, r = Ret a /\ k a = Ret b.
Proof. destruct r; simpl; intros H; try discriminate. eauto. Qed.

Lemma deref_Ret {A : Type} (o : option A) (a : A) :
  deref o = Ret a -> o = Some a.
Proof. destruct o; simpl; intros H; congruence. Qed.

Ltac bind_step H :=
  let a := fresh "a" in
  let E := fresh "E" in
  apply bind_Ret in H; destruct H as (a & E & H);
  try (apply deref_Ret in E).

(** ** The functions and the big-step rules agree *)

Section Agreement.

Variable rand : nat -> nat.

Lemma recursive_returns fuel :
  (forall N i s r,
     find_words_recursive rand fuel N i s = Ret r -> rec_returns rand N i s r) /\
  (forall N i this_word s r,
     next_words_loop rand fuel N i this_word s = Ret r ->
     loop_returns rand N i this_word s r).
Proof.
  induction fuel as [|fuel [IHr IHl]]; [split; intros; discriminate|].
  split.
  - intros N i s r H. simpl in H.
    destruct (N =? i + 1) eqn:EN.
    + apply Nat.eqb_eq in EN.
      bind_step H. bind_step H. injection H as <-.
      eapply rec_last; eauto.
    + apply Nat.eqb_neq in EN.
      bind_step H. bind_step H.
      eapply rec_inner; eauto.
  - intros N i this_word s r H. simpl in H.
    bind_step H.
    destruct (not_all_checked (tested a) (n_nw a)) eqn:EC.
    + bind_step H. destruct a0 as [nw_index s1].
      bind_step H. destruct a0; simpl in H.
      * eapply loop_redraw; eauto.
      * bind_step H. bind_step H. bind_step H. destruct a2 as [found s3].
        destruct found.
        -- injection H as <-. eapply loop_found; eauto.
        -- eapply loop_retry; eauto.
    + injection H as <-. eapply loop_exhausted; eauto.
Qed.

Lemma starting_words_returns fuel N ssw_checked s r :
  starting_words_loop rand fuel N ssw_checked s = Ret r ->
  start_returns rand N ssw_checked s r.
Proof.
  revert ssw_checked s r.
  induction fuel as [|fuel IH]; intros ssw_checked s r H; [discriminate|].
  simpl in H.
  destruct (not_all_checked ssw_checked (n_ssw (the_model s))) eqn:EC.
  - bind_step H. destruct a as [ssw_index s1].
    bind_step H. destruct a; simpl in H.
    + eapply start_redraw; eauto.
    + assert (Hm : the_model s1 = the_model s).
      { unfold random_int in E. repeat case_match; try discriminate.
        injection E as _ <-. reflexivity. }
      bind_step H. bind_step H. bind_step H. destruct a1 as [found s3].
      destruct (recursive_returns fuel) as [Hr _].
      destruct found.
      * injection H as <-. eapply start_found; eauto.
      * eapply start_retry; eauto.
  - injection H as <-. apply start_exhausted; assumption.
Qed.

(** Conversely, a derivation yields an amount of fuel from which on the
    function returns the same result. *)
Lemma returns_recursive N :
  (forall i s r,
     rec_returns rand N i s r ->
     exists fuel, forall fuel', fuel <= fuel' ->
       find_words_recursive rand fuel' N i s = Ret r) /\
  (forall i this_word s r,
     loop_returns rand N i this_word s r ->
     exists fuel, forall fuel', fuel <= fuel' ->
       next_words_loop rand fuel' N i this_word s = Ret r).
Proof.
  apply returns_mutind.
  - intros i s p w HN Hp Hw. exists 1. intros [|fuel'] Hf; [lia|].
    simpl. apply Nat.eqb_eq in HN. rewrite HN, Hp. simpl. rewrite Hw. reflexivity.
  - intros i s this_word w r HN Hp Hw _ [fuel IH]. exists (S fuel).
    intros [|fuel'] Hf; [lia|].
    simpl. apply Nat.eqb_neq in HN. rewrite HN, Hp. simpl. rewrite Hw. simpl.
    apply IH. lia.
  - intros i this_word s w Hw HC. exists 1. intros [|fuel'] Hf; [lia|].
    simpl. rewrite Hw. simpl. rewrite HC. reflexivity.
  - intros i this_word s w nw_index s1 r Hw HC HR HT _ [fuel IH].
    exists (S fuel). intros [|fuel'] Hf; [lia|].
    simpl. rewrite Hw. simpl. rewrite HC, HR. simpl. rewrite HT. simpl.
    apply IH. lia.
  - intros i this_word s w nw_index s1 next_word s2 s3 Hw HC HR HT HN HS _ [fuel IH].
    exists (S fuel). intros [|fuel'] Hf; [lia|].
    simpl. rewrite Hw. simpl. rewrite HC, HR. simpl. rewrite HT. simpl.
    rewrite HN. simpl. rewrite HS. simpl. rewrite IH by lia. reflexivity.
  - intros i this_word s w nw_index s1 next_word s2 s3 r Hw HC HR HT HN HS
      _ [fuel1 IH1] _ [fuel2 IH2].
    exists (S (max fuel1 fuel2)). intros [|fuel'] Hf; [lia|].
    simpl. rewrite Hw. simpl. rewrite HC, HR. simpl. rewrite HT. simpl.
    rewrite HN. simpl. rewrite HS. simpl. rewrite IH1 by lia. simpl.
    apply IH2. lia.
Qed.

Lemma returns_starting_words N ssw_checked s r :
  start_returns rand N ssw_checked s r ->
  exists fuel, forall fuel', fuel <= fuel' ->
    starting_words_loop rand fuel' N ssw_checked s = Ret r.
Proof.
  destruct (returns_recursive N) as [Hrec _].
  induction 1 as [ssw_checked s HC
                 |ssw_checked s ssw_index s1 r HC HR HT _ [fuel IH]
                 |ssw_checked s ssw_index s1 p s2 s3 HC HR HT Hp HS Hfound
                 |ssw_checked s ssw_index s1 p s2 s3 r HC HR HT Hp HS Hfound _ [fuel2 IH2]].
  - exists 1. intros [|fuel'] Hf; [lia|]. simpl. rewrite HC. reflexivity.
  - exists (S fuel). intros [|fuel'] Hf; [lia|].
    simpl. rewrite HC, HR. simpl. rewrite HT. simpl. apply IH. lia.
  - destruct (Hrec _ _ _ Hfound) as [fuel IH].
    exists (S fuel). intros [|fuel'] Hf; [lia|].
    simpl. rewrite HC, HR. simpl. rewrite HT. simpl. rewrite Hp. simpl.
    rewrite HS. simpl. rewrite IH by lia. reflexivity.
  - destruct (Hrec _ _ _ Hfound) as [fuel1 IH1].
    exists (S (max fuel1 fuel2)). intros [|fuel'] Hf; [lia|].
    simpl. rewrite HC, HR. simpl. rewrite HT. simpl. rewrite Hp. simpl.
    rewrite HS. simpl. rewrite IH1 by lia. simpl. apply IH2. lia.
Qed.

End Agreement.

(** ** What the search leaves alone *)

Lemma same_fields_refl model : same_fields model model.
Proof. split; reflexivity. Qed.

Lemma same_fields_trans m1 m2 m3 :
  same_fields m1 m2 -> same_fields m2 m3 -> same_fields m1 m3.
Proof. intros [H1 H2] [H3 H4]. split; congruence. Qed.

Lemma same_fields_sym m1 m2 : same_fields m1 m2 -> same_fields m2 m1.
Proof. intros [H1 H2]. split; congruence. Qed.

Lemma same_fields_lookup m m' p w :
  same_fields m m' -> words m !! p = Some w ->
  exists w', words m' !! p = Some w' /\ persistent w' = persistent w.
Proof.
  intros [H _] Hw.
  assert (Hp : map persistent (words m') !! p = Some (persistent w)).
  { rewrite H. change (map persistent (words m)) with (persistent <$> words m).
    rewrite list_lookup_fmap, Hw. reflexivity. }
  change (map persistent (words m')) with (persistent <$> words m') in Hp.
  rewrite list_lookup_fmap in Hp.
  destruct (words m' !! p) as [w'|]; simpl in Hp; [|discriminate].
  exists w'. split; congruence.
Qed.

Lemma same_fields_n_w m m' : same_fields m m' -> n_w m' = n_w m.
Proof.
  intros [H _]. unfold n_w.
  rewrite <- (length_map persistent (words m')), H. apply length_map.
Qed.

Lemma persistent_inj_fields w w' :
  persistent w' = persistent w ->
  string w' = string w /\ n_occurrences w' = n_occurrences w /\
  is_sentence_ender w' = is_sentence_ender w /\ next_words w' = next_words w /\
  length (tested w') = length (tested w).
Proof. unfold persistent. intros H. injection H. auto. Qed.

Lemma same_fields_alter model p f :
  (forall w, words model !! p = Some w -> persistent (f w) = persistent w) ->
  same_fields model (set_words model (alter f p (words model))).
Proof.
  intros Hf. split; [|reflexivity]. simpl.
  apply list_eq. intros j.
  change (map persistent ?l) with (persistent <$> l).
  rewrite !list_lookup_fmap.
  destruct (decide (p = j)) as [->|Hne].
  - rewrite list_lookup_alter_eq.
    destruct (words model !! j) as [w|] eqn:Hw; simpl; [|reflexivity].
    f_equal. auto.
  - rewrite list_lookup_alter_ne by assumption. reflexivity.
Qed.

Lemma length_clear_checked array n :
  length (clear_checked array n) = length array.
Proof.
  revert array. induction n as [|n IH]; intros [|b array]; simpl; auto.
Qed.

Lemma same_fields_store_tested s p t :
  (forall w, words (the_model s) !! p = Some w -> length t = length (tested w)) ->
  same_fields (the_model s) (the_model (store_tested s p t)).
Proof.
  intros Ht. unfold store_tested. simpl. apply same_fields_alter.
  intros w Hw. unfold persistent. simpl. rewrite (Ht w Hw). reflexivity.
Qed.

Lemma frame_refl i s : frame i s s.
Proof. repeat split; auto using same_fields_refl. Qed.

Lemma frame_trans i s1 s2 s3 : frame i s1 s2 -> frame i s2 s3 -> frame i s1 s3.
Proof.
  intros (A1 & B1 & C1 & D1) (A2 & B2 & C2 & D2).
  repeat split; try congruence; try lia.
  - apply (same_fields_trans _ _ _ A1 A2).
  - destruct A1, A2. congruence.
  - intros j Hj. rewrite D2, D1 by lia. reflexivity.
Qed.

Lemma frame_weaken i j s s' : j <= i -> frame i s s' -> frame j s s'.
Proof.
  intros Hj (A & B & C & D). repeat split; try apply A; auto.
  intros k Hk. apply D. lia.
Qed.

Section SearchFacts.

Variable rand : nat -> nat.

Lemma random_int_Ret lo hi s v s1 :
  random_int rand lo hi s = Ret (v, s1) ->
  the_model s1 = the_model s /\ sentence s1 = sentence s /\
  rand_calls s1 = S (rand_calls s) /\
  (lo <= v <= hi)%Z /\
  v = (Z.rem (Z.of_nat (rand (rand_calls s))) (hi - lo + 1) + lo)%Z.
Proof.
  unfold random_int. intros H.
  destruct (hi - lo + 1 =? 0)%Z; [discriminate|].
  destruct (_ && _) eqn:E; [|discriminate].
  injection H as <- <-. simpl.
  apply andb_true_iff in E. destruct E as [E1 E2].
  apply Z.leb_le in E1, E2. repeat split; auto.
Qed.

Lemma random_int_frame i lo hi s v s1 :
  random_int rand lo hi s = Ret (v, s1) -> frame i s s1.
Proof.
  intros H. apply random_int_Ret in H. destruct H as (Hm & Hs & Hc & _).
  unfold frame. rewrite Hm, Hs, Hc.
  repeat split; auto using same_fields_refl.
Qed.

Lemma store_sentence_Ret s i w s2 :
  store_sentence s i w = Ret s2 ->
  i < length (sentence s) /\ s2 = with_sentence s (<[i := w]> (sentence s)).
Proof.
  unfold store_sentence. destruct (i <? length (sentence s)) eqn:E; [|discriminate].
  intros H. injection H as <-. apply Nat.ltb_lt in E. auto.
Qed.

Lemma store_sentence_frame i s w s2 :
  store_sentence s (S i) w = Ret s2 -> frame i s s2.
Proof.
  intros H. apply store_sentence_Ret in H. destruct H as [Hi ->].
  unfold frame. simpl. rewrite length_insert.
  repeat split; auto using same_fields_refl.
  intros j Hj. apply list_lookup_insert_ne. lia.
Qed.

Lemma store_tested_frame i s p t :
  (forall w, words (the_model s) !! p = Some w -> length t = length (tested w)) ->
  frame i s (store_tested s p t).
Proof.
  intros Ht. unfold frame. split; [apply same_fields_store_tested, Ht|].
  simpl. auto.
Qed.

(** Every returning call leaves the persistent fields, the size of
    [sentence] and the cells up to its own position unchanged. *)
Lemma returns_frame N :
  (forall i s r, rec_returns rand N i s r -> frame i s r.2) /\
  (forall i this_word s r,
     loop_returns rand N i this_word s r -> frame i s r.2).
Proof.
  apply returns_mutind; simpl.
  - intros. apply frame_refl.
  - intros i s this_word w r HN Hp Hw _ IH.
    eapply frame_trans; [|exact IH].
    apply store_tested_frame. intros w' Hw'.
    rewrite length_clear_checked. congruence.
  - intros. apply frame_refl.
  - intros i this_word s w nw_index s1 r Hw HC HR HT _ IH.
    eapply frame_trans; [|exact IH]. eapply random_int_frame; eauto.
  - intros i this_word s w nw_index s1 next_word s2 s3 Hw HC HR HT HN HS _ IH.
    eapply frame_trans; [eapply random_int_frame; eauto|].
    eapply frame_trans; [|eapply frame_weaken; [|exact IH]; lia].
    eapply frame_trans; [|eapply store_sentence_frame; rewrite <- Nat.add_1_r; eauto].
    apply store_tested_frame. intros w' Hw'.
    apply random_int_Ret in HR. destruct HR as (Hm & _).
    rewrite Hm, Hw in Hw'. injection Hw' as <-. apply length_insert.
  - intros i this_word s w nw_index s1 next_word s2 s3 r Hw HC HR HT HN HS _ IH1 _ IH2.
    eapply frame_trans; [eapply random_int_frame; eauto|].
    eapply frame_trans; [|exact IH2].
    eapply frame_trans; [|eapply frame_weaken; [|exact IH1]; lia].
    eapply frame_trans; [|eapply store_sentence_frame; rewrite <- Nat.add_1_r; eauto].
    apply store_tested_frame. intros w' Hw'.
    apply random_int_Ret in HR. destruct HR as (Hm & _).
    rewrite Hm, Hw in Hw'. injection Hw' as <-. apply length_insert.
Qed.


(** ** Soundness of the search *)

Lemma follows_same_fields m m' a b :
  same_fields m m' -> follows m' a b -> follows m a b.
Proof.
  intros Hs (w' & Hw' & Hb).
  destruct (same_fields_lookup _ _ _ _ (same_fields_sym _ _ Hs) Hw')
    as (w & Hw & Hp).
  apply persistent_inj_fields in Hp. destruct Hp as (_ & _ & _ & Hn & _).
  exists w. split; [assumption|]. rewrite Hn. assumption.
Qed.

Lemma sentence_ender_same_fields m m' p :
  same_fields m m' -> sentence_ender m' p -> sentence_ender m p.
Proof.
  intros Hs (w' & Hw' & Hb).
  destruct (same_fields_lookup _ _ _ _ (same_fields_sym _ _ Hs) Hw')
    as (w & Hw & Hp).
  apply persistent_inj_fields in Hp. destruct Hp as (_ & _ & He & _).
  exists w. split; [assumption|]. rewrite He. assumption.
Qed.

Lemma chain_from_same_fields N i s0 s s' :
  same_fields (the_model s0) (the_model s) ->
  chain_from N i s s' -> chain_from N i s0 s'.
Proof.
  intros Hs [Hc (p & Hp & He)]. split.
  - intros j a b Hj HN Ha Hb. eapply follows_same_fields; eauto.
  - exists p. split; [assumption|]. eapply sentence_ender_same_fields; eauto.
Qed.

(** One more link in front of a chain. *)
Lemma chain_from_link N i s s2 s3 this_word w next_word :
  words (the_model s) !! this_word = Some w ->
  next_word ∈ next_words w ->
  same_fields (the_model s) (the_model s2) ->
  sentence s2 !! i = Some this_word ->
  sentence s2 !! (S i) = Some next_word ->
  frame (S i) s2 s3 ->
  chain_from N (S i) s2 s3 ->
  chain_from N i s s3.
Proof.
  intros Hw Hin Hsame Hi HSi (_ & _ & _ & Hcells) Hchain.
  apply (chain_from_same_fields _ _ _ _ _ Hsame) in Hchain.
  destruct Hchain as [Hc He]. split; [|assumption].
  intros j a b Hj HN Ha Hb.
  destruct (decide (j = i)) as [->|Hne].
  - rewrite Hcells in Ha, Hb by lia.
    rewrite Hi in Ha. rewrite HSi in Hb.
    injection Ha as <-. injection Hb as <-.
    exists w. auto.
  - apply (Hc j a b); auto. lia.
Qed.

Lemma returns_sound N :
  (forall i s r, rec_returns rand N i s r ->
     r.1 = true -> chain_from N i s r.2) /\
  (forall i this_word s r, loop_returns rand N i this_word s r ->
     r.1 = true -> sentence s !! i = Some this_word -> chain_from N i s r.2).
Proof.
  destruct (returns_frame N) as [Frec Floop].
  apply returns_mutind; simpl.
  - intros i s p w HN Hp Hw He. split.
    + intros j a b Hj HSj. lia.
    + exists p. split; [assumption|]. exists w. auto.
  - intros i s this_word w r HN Hp Hw _ IH Hr.
    eapply chain_from_same_fields; [|apply IH; auto].
    apply same_fields_store_tested. intros w' Hw'.
    rewrite length_clear_checked. congruence.
  - intros; discriminate.
  - intros i this_word s w nw_index s1 r Hw HC HR HT _ IH Hr Hi.
    apply random_int_Ret in HR. destruct HR as (Hm & Hs & _).
    eapply chain_from_same_fields; [|apply IH; auto].
    + rewrite Hm. apply same_fields_refl.
    + rewrite Hs. assumption.
  - intros i this_word s w nw_index s1 next_word s2 s3 Hw HC HR HT HN HS Hrec IH _ Hi.
    apply Frec in Hrec. simpl in Hrec.
    pose proof (random_int_frame i _ _ _ _ _ HR) as F1.
    rewrite Nat.add_1_r in *.
    pose proof (store_sentence_frame i _ _ _ HS) as F2.
    assert (F3 : frame i s1
              (store_tested s1 this_word (<[Z.to_nat nw_index:=true]> (tested w)))).
    { apply store_tested_frame. intros w' Hw'.
      apply random_int_Ret in HR. destruct HR as (Hm & _).
      rewrite Hm, Hw in Hw'. injection Hw' as <-. apply length_insert. }
    pose proof (frame_trans _ _ _ _ F1 (frame_trans _ _ _ _ F3 F2)) as F.
    apply store_sentence_Ret in HS. destruct HS as [Hlen Hs2].
    eapply (chain_from_link N i s s2 s3 this_word w next_word); eauto.
    + eapply list_elem_of_lookup_2; eauto.
    + apply F.
    + destruct F as (_ & _ & _ & Hcells). rewrite Hcells by lia. assumption.
    + subst s2. simpl. apply list_lookup_insert_eq. exact Hlen.
  - intros i this_word s w nw_index s1 next_word s2 s3 r Hw HC HR HT HN HS
      Hrec _ Hloop IH Hr Hi.
    apply Frec in Hrec. simpl in Hrec.
    pose proof (random_int_frame i _ _ _ _ _ HR) as F1.
    rewrite Nat.add_1_r in *.
    pose proof (store_sentence_frame i _ _ _ HS) as F2.
    assert (F3 : frame i s1
              (store_tested s1 this_word (<[Z.to_nat nw_index:=true]> (tested w)))).
    { apply store_tested_frame. intros w' Hw'.
      apply random_int_Ret in HR. destruct HR as (Hm & _).
      rewrite Hm, Hw in Hw'. injection Hw' as <-. apply length_insert. }
    assert (F : frame i s s3).
    { eapply frame_trans; [exact F1|]. eapply frame_trans; [exact F3|].
      eapply frame_trans; [exact F2|]. eapply frame_weaken; [|exact Hrec]. lia. }
    eapply chain_from_same_fields; [apply F|].
    apply IH; [assumption|].
    destruct F as (_ & _ & _ & Hcells). rewrite Hcells by lia. assumption.
Qed.


Lemma start_returns_frame N ssw_checked s r :
  start_returns rand N ssw_checked s r ->
  same_fields (the_model s) (the_model r.2) /\
  length (sentence r.2) = length (sentence s) /\
  rand_calls s <= rand_calls r.2.
Proof.
  destruct (returns_frame N) as [Frec _].
  assert (Hstep : forall s ssw_index s1 p s2 found s3,
    random_int rand 0 (Z.of_nat (n_ssw (the_model s)) - 1) s = Ret (ssw_index, s1) ->
    store_sentence s1 0 p = Ret s2 ->
    rec_returns rand N 0 s2 (found, s3) ->
    same_fields (the_model s) (the_model s3) /\
    length (sentence s3) = length (sentence s) /\
    rand_calls s <= rand_calls s3).
  { clear. intros s ssw_index s1 p s2 found s3 HR HS Hrec.
    apply (proj1 (returns_frame N)) in Hrec. simpl in Hrec.
    destruct Hrec as (A & B & C & _).
    apply random_int_Ret in HR. destruct HR as (Hm & Hs & Hc & _).
    apply store_sentence_Ret in HS. destruct HS as [_ ->].
    simpl in *. rewrite length_insert in B. rewrite Hm in A.
    repeat split; try apply A; try congruence; lia. }
  induction 1 as [ssw_checked s HC
                 |ssw_checked s ssw_index s1 r HC HR HT _ IH
                 |ssw_checked s ssw_index s1 p s2 s3 HC HR HT Hp HS Hfound
                 |ssw_checked s ssw_index s1 p s2 s3 r HC HR HT Hp HS Hfound _ IH];
    simpl.
  - auto using same_fields_refl.
  - apply random_int_Ret in HR. destruct HR as (Hm & Hs & Hc & _).
    rewrite Hm, Hs, Hc in IH. destruct IH as (A & B & C).
    repeat split; try apply A; auto; lia.
  - eapply Hstep; eauto.
  - destruct (Hstep _ _ _ _ _ _ _ HR HS Hfound) as (A & B & C).
    destruct IH as (A' & B' & C').
    repeat split; try congruence; try lia.
    + apply (same_fields_trans _ _ _ A A').
    + destruct A, A'. congruence.
Qed.

Lemma start_returns_sound N ssw_checked s s' :
  start_returns rand N ssw_checked s (true, s') ->
  (exists p, sentence s' !! 0 = Some p /\
             p ∈ sentence_starting_words (the_model s)) /\
  chain_from N 0 s s'.
Proof.
  destruct (returns_frame N) as [Frec _].
  destruct (returns_sound N) as [Srec _].
  intros H. remember (true, s') as r eqn:Hr. revert s' Hr.
  induction H as [ssw_checked s HC
                 |ssw_checked s ssw_index s1 r HC HR HT _ IH
                 |ssw_checked s ssw_index s1 p s2 s3 HC HR HT Hp HS Hfound
                 |ssw_checked s ssw_index s1 p s2 s3 r HC HR HT Hp HS Hfound Hrest IH];
    intros s' Hr.
  - discriminate.
  - apply random_int_Ret in HR. destruct HR as (Hm & Hs & Hc & _).
    destruct (IH s' Hr) as [Hhead Hchain]. rewrite Hm in Hhead.
    split; [assumption|].
    eapply chain_from_same_fields; [|exact Hchain].
    rewrite Hm. apply same_fields_refl.
  - injection Hr as <-.
    pose proof (Frec _ _ _ Hfound) as (_ & _ & _ & Hcells).
    pose proof (Srec _ _ _ Hfound eq_refl) as Hchain.
    simpl in Hcells, Hchain.
    apply random_int_Ret in HR. destruct HR as (Hm & Hs & Hc & _).
    apply store_sentence_Ret in HS. destruct HS as [Hlen ->].
    split.
    + exists p. split.
      * rewrite Hcells by lia. simpl. apply list_lookup_insert_eq. assumption.
      * eapply list_elem_of_lookup_2; eauto.
    + eapply chain_from_same_fields; [|exact Hchain].
      simpl. rewrite Hm. apply same_fields_refl.
  - assert (Hsame : same_fields (the_model s) (the_model s3)).
    { pose proof (Frec _ _ _ Hfound) as (A & _). simpl in A.
      apply random_int_Ret in HR. destruct HR as (Hm & _).
      apply store_sentence_Ret in HS. destruct HS as [_ ->].
      simpl in A. rewrite Hm in A. exact A. }
    destruct (IH s' Hr) as [(q & Hq & Hin) Hchain].
    split.
    + exists q. split; [assumption|]. destruct Hsame as [_ <-]. assumption.
    + eapply chain_from_same_fields; eauto.
Qed.

End SearchFacts.

(** ** Claims about the result of a search *)

(** C4.  Whenever [generate_sentence] returns a sentence, the words it was
    formed from are a valid chain of the model: exactly [N] of them, the
    first one a sentence-starting word, each one among the [next_words] of
    the one before it, the last one a sentence ender. *)
Theorem generate_sentence_valid rand fuel N s text s' :
  length (sentence s) = N ->
  generate_sentence rand fuel N s = Ret (Some text, s') ->
  valid_sentence (the_model s) N (sentence s') /\
  exists ws, pointees (the_model s') (sentence s') = Ret ws /\
             text = combine_words ws N.
Proof.
  intros Hlen H. unfold generate_sentence in H.
  bind_step H. destruct a as [found s1]. destruct found; [|discriminate].
  bind_step H. injection H as <- <-.
  split; [|exists a; split; [unfold pointees; rewrite E0|]; reflexivity].
  unfold find_words in E. apply starting_words_returns in E.
  pose proof (start_returns_frame _ _ _ _ _ E) as (_ & Hl & _). simpl in Hl.
  apply start_returns_sound in E. destruct E as [Hhead [Hchain Hend]].
  split; [congruence|]. split; [exact Hhead|]. split; [|exact Hend].
  intros i x y Hx Hy. apply (Hchain i x y); auto; try lia.
  apply lookup_lt_Some in Hy. lia.
Qed.

Lemma generate_sentence_valid_witness :
  valid_sentence (model_of_text cat_dog) 3 [0; 3; 4] /\
  exists ws,
    pointees (the_model (final_state (start_state (model_of_text cat_dog) 3)
                (generate_sentence counting 10 3
                   (start_state (model_of_text cat_dog) 3)))) [0; 3; 4] = Ret ws /\
    "The dog ran." = combine_words ws 3.
Proof.
  apply (generate_sentence_valid counting 10 3
           (start_state (model_of_text cat_dog) 3) "The dog ran."
           (final_state (start_state (model_of_text cat_dog) 3)
              (generate_sentence counting 10 3
                 (start_state (model_of_text cat_dog) 3)))).
  - reflexivity.
  - vm_compute. reflexivity.
Defined.

(** C2 (as amended).  A call of [generate_sentence] that returns leaves
    the number of words, every word's [string], [n_occurrences],
    [is_sentence_ender] and [next_words], and the list of
    sentence-starting words as they were.  (The [tested] arrays, which
    are part of the model's [Word]s, are not covered.) *)
Theorem generate_sentence_preserves_fields rand fuel N s r s' :
  generate_sentence rand fuel N s = Ret (r, s') ->
  n_w (the_model s') = n_w (the_model s) /\
  (forall p w, words (the_model s) !! p = Some w ->
     exists w', words (the_model s') !! p = Some w' /\
       string w' = string w /\
       n_occurrences w' = n_occurrences w /\
       is_sentence_ender w' = is_sentence_ender w /\
       next_words w' = next_words w) /\
  sentence_starting_words (the_model s') = sentence_starting_words (the_model s).
Proof.
  intros H.
  assert (Hsame : same_fields (the_model s) (the_model s')).
  { unfold generate_sentence in H.
    bind_step H. destruct a as [found s1].
    unfold find_words in E. apply starting_words_returns in E.
    apply start_returns_frame in E. destruct E as (A & _). simpl in A.
    destruct found.
    - bind_step H. injection H as _ <-. exact A.
    - injection H as _ <-. exact A. }
  split; [apply same_fields_n_w; assumption|].
  split; [|apply Hsame].
  intros p w Hw.
  destruct (same_fields_lookup _ _ _ _ Hsame Hw) as (w' & Hw' & Hp).
  apply persistent_inj_fields in Hp.
  exists w'. tauto.
Qed.

Lemma generate_sentence_preserves_fields_witness :
  n_w (the_model (final_state (start_state (model_of_text cat_dog) 3)
         (generate_sentence counting 10 3
            (start_state (model_of_text cat_dog) 3)))) = 5.
Proof.
  pose proof (generate_sentence_preserves_fields counting 10 3
           (start_state (model_of_text cat_dog) 3) (Some "The dog ran.")
           (final_state (start_state (model_of_text cat_dog) 3)
              (generate_sentence counting 10 3
                 (start_state (model_of_text cat_dog) 3)))) as H.
  destruct H as [H _].
  - vm_compute. reflexivity.
  - rewrite H. reflexivity.
Defined.

(** C2, the claim as stated fails: the markers of the inner search are
    the [tested] arrays of the model's words, and a call overwrites
    them.  On the model of "The cat sat. The dog ran." a first call
    leaves the entry of "the" with the marker of its second successor
    set; a second call on the model it left behind clears that marker
    and sets the one of the first successor.  Each of the two calls
    returns with a model different from the one it was given. *)
Lemma generate_sentence_overwrites_tested :
  exists s1 s2,
    generate_sentence counting 10 3 (start_state (model_of_text cat_dog) 3)
    = Ret (Some "The dog ran.", s1) /\
    generate_sentence counting 10 3 (with_sentence s1 (replicate 3 0))
    = Ret (Some "The cat sat.", s2) /\
    the_model s1 <> model_of_text cat_dog /\
    the_model s2 <> the_model s1 /\
    (words (the_model s1) !! 0 ≫= fun w => Some (take 2 (tested w)))
      = Some [false; true] /\
    (words (the_model s2) !! 0 ≫= fun w => Some (take 2 (tested w)))
      = Some [true; false].
Proof.
  eexists. eexists.
  split; [vm_compute; reflexivity|].
  split; [vm_compute; reflexivity|].
  split; [|split; [|split; vm_compute; reflexivity]].
  - intros H.
    apply (f_equal (fun m => words m !! 0 ≫= fun w => tested w !! 1)) in H.
    vm_compute in H. discriminate.
  - intros H.
    apply (f_equal (fun m => words m !! 0 ≫= fun w => tested w !! 1)) in H.
    vm_compute in H. discriminate.
Qed.

(** ** The search never draws from an empty range *)

Lemma bind_Undef {A B : Type} (r : result A) (k : A -> result B) u :
  mbind k r = Undef u -> r = Undef u \/ exists a, r = Ret a /\ k a = Undef u.
Proof.
  destruct r; simpl; intros H; try discriminate.
  - right. exists a. auto.
  - left. injection H as ->. reflexivity.
Qed.

Lemma deref_Undef {A : Type} (o : option A) u :
  deref o = Undef u -> u = wild_pointer.
Proof. destruct o; simpl; intros H; congruence. Qed.

Lemma store_sentence_Undef s i w u :
  store_sentence s i w = Undef u -> u = wild_pointer.
Proof. unfold store_sentence. case_match; congruence. Qed.

Lemma not_all_checked_true array n :
  not_all_checked array n = true ->
  exists k, k < n /\ array !! k = Some false.
Proof.
  revert array. induction n as [|n IH]; intros [|b array]; simpl;
    try discriminate.
  destruct b; simpl.
  - intros H. destruct (IH _ H) as (k & Hk & Hl). exists (S k). split; [lia|auto].
  - intros _. exists 0. split; [lia|reflexivity].
Qed.

Lemma not_all_checked_false array n :
  not_all_checked array n = false ->
  forall k, k < n -> array !! k <> Some false.
Proof.
  revert array. induction n as [|n IH]; intros [|b array]; simpl;
    intros H k Hk; try lia; try (intros ?; discriminate).
  destruct b; simpl in H; [|discriminate].
  destruct k as [|k]; simpl; [discriminate|]. apply IH; [assumption|lia].
Qed.

Section Ranges.

Variable rand : nat -> nat.

(** With at least one element to choose from, [random_int] returns an
    index of the array: the modulus is positive and the assertion holds. *)
Lemma random_int_nonempty n s :
  1 <= n ->
  exists v, random_int rand 0 (Z.of_nat n - 1) s =
              Ret (v, {| the_model := the_model s; sentence := sentence s;
                         rand_calls := S (rand_calls s) |}) /\
            Z.to_nat v = rand (rand_calls s) mod n.
Proof.
  intros Hn. unfold random_int.
  replace (Z.of_nat n - 1 - 0 + 1)%Z with (Z.of_nat n) by lia.
  destruct (Z.of_nat n =? 0)%Z eqn:E0; [apply Z.eqb_eq in E0; lia|].
  rewrite Z.rem_mod_nonneg by lia.
  rewrite <- Nat2Z.inj_mod.
  assert (Hlt : rand (rand_calls s) mod n < n) by (apply Nat.mod_upper_bound; lia).
  destruct (_ && _) eqn:E.
  - eexists. split; [reflexivity|]. lia.
  - apply andb_false_iff in E. destruct E as [E|E]; apply Z.leb_gt in E; lia.
Qed.

Lemma recursive_no_empty_range fuel :
  (forall N i s u,
     find_words_recursive rand fuel N i s = Undef u -> u = wild_pointer) /\
  (forall N i this_word s u,
     next_words_loop rand fuel N i this_word s = Undef u -> u = wild_pointer).
Proof.
  induction fuel as [|fuel [IHr IHl]]; [split; intros; discriminate|].
  split.
  - intros N i s u H. simpl in H.
    destruct (N =? i + 1).
    + apply bind_Undef in H. destruct H as [H|(p & _ & H)];
        [eapply deref_Undef; eauto|].
      apply bind_Undef in H. destruct H as [H|(w & _ & H)];
        [eapply deref_Undef; eauto|discriminate].
    + apply bind_Undef in H. destruct H as [H|(p & _ & H)];
        [eapply deref_Undef; eauto|].
      apply bind_Undef in H. destruct H as [H|(w & _ & H)];
        [eapply deref_Undef; eauto|].
      eapply IHl; eauto.
  - intros N i this_word s u H. simpl in H.
    apply bind_Undef in H. destruct H as [H|(w & _ & H)];
      [eapply deref_Undef; eauto|].
    destruct (not_all_checked (tested w) (n_nw w)) eqn:EC; [|discriminate].
    apply not_all_checked_true in EC. destruct EC as (k & Hk & _).
    destruct (random_int_nonempty (n_nw w) s) as (v & Hv & _); [lia|].
    rewrite Hv in H. simpl in H.
    apply bind_Undef in H. destruct H as [H|(b & _ & H)];
      [eapply deref_Undef; eauto|].
    destruct b; simpl in H; [eapply IHl; eauto|].
    apply bind_Undef in H. destruct H as [H|(nw & _ & H)];
      [eapply deref_Undef; eauto|].
    apply bind_Undef in H. destruct H as [H|(s2 & _ & H)];
      [eapply store_sentence_Undef; eauto|].
    apply bind_Undef in H. destruct H as [H|([found s3] & _ & H)];
      [eapply IHr; eauto|].
    destruct found; [discriminate|]. eapply IHl; eauto.
Qed.

Lemma starting_words_no_empty_range fuel N ssw_checked s u :
  starting_words_loop rand fuel N ssw_checked s = Undef u -> u = wild_pointer.
Proof.
  revert ssw_checked s. induction fuel as [|fuel IH]; intros ssw_checked s H;
    [discriminate|].
  simpl in H.
  destruct (not_all_checked ssw_checked (n_ssw (the_model s))) eqn:EC;
    [|discriminate].
  apply not_all_checked_true in EC. destruct EC as (k & Hk & _).
  destruct (random_int_nonempty (n_ssw (the_model s)) s) as (v & Hv & _); [lia|].
  rewrite Hv in H. simpl in H.
  apply bind_Undef in H. destruct H as [H|(b & _ & H)];
    [eapply deref_Undef; eauto|].
  destruct b; simpl in H; [eapply IH; eauto|].
  apply bind_Undef in H. destruct H as [H|(p & _ & H)];
    [eapply deref_Undef; eauto|].
  apply bind_Undef in H. destruct H as [H|(s2 & _ & H)];
    [eapply store_sentence_Undef; eauto|].
  apply bind_Undef in H. destruct H as [H|([found s3] & _ & H)];
    [eapply (proj1 (recursive_no_empty_range fuel)); eauto|].
  destruct found; [discriminate|]. eapply IH; eauto.
Qed.

End Ranges.

Lemma find_words_recursive_S rand fuel N i s :
  find_words_recursive rand (S fuel) N i s =
  if N =? i + 1 then
    p ← deref (sentence s !! (N - 1));
    w ← deref (words (the_model s) !! p);
    Ret (is_sentence_ender w, s)
  else
    this_word ← deref (sentence s !! i);
    w ← deref (words (the_model s) !! this_word);
    next_words_loop rand fuel N i this_word
      (store_tested s this_word (clear_checked (tested w) (n_nw w))).
Proof. reflexivity. Qed.

Lemma not_all_checked_0 array : not_all_checked array 0 = false.
Proof. destruct array; reflexivity. Qed.

Lemma clear_checked_0 array : clear_checked array 0 = array.
Proof. destruct array; reflexivity. Qed.

Lemma next_words_loop_exhausted rand fuel N i this_word s w :
  words (the_model s) !! this_word = Some w ->
  not_all_checked (tested w) (n_nw w) = false ->
  next_words_loop rand (S fuel) N i this_word s = Ret (false, s).
Proof. intros Hw HC. simpl. rewrite Hw. simpl. rewrite HC. reflexivity. Qed.

Lemma set_tested_same w : set_tested (tested w) w = w.
Proof. destruct w; reflexivity. Qed.

Lemma store_tested_same s p w :
  words (the_model s) !! p = Some w ->
  store_tested s p (tested w) = s.
Proof.
  intros Hw. destruct s as [[ws ssw] a c]. unfold store_tested, with_model, set_words.
  simpl in *. f_equal. f_equal.
  apply list_eq. intros j. destruct (decide (p = j)) as [->|Hne].
  - rewrite list_lookup_alter_eq, Hw. simpl. f_equal. apply set_tested_same.
  - apply list_lookup_alter_ne. assumption.
Qed.

(** C9.  The search never calls [random_int] on an empty range: no run,
    with whatever fuel, stops on the division by zero or on the failed
    assertion of [random_int].  With no sentence-starting word
    [find_words] returns false at once, and so does
    [find_words_recursive] on a word without [next_words] that is not
    the last one; neither consumes a random number. *)
Theorem search_never_draws_from_empty_range rand fuel N s :
  (forall u, find_words rand fuel N s = Undef u ->
     u <> division_by_zero /\ u <> assertion_failed) /\
  (n_ssw (the_model s) = 0 -> find_words rand (S fuel) N s = Ret (false, s)) /\
  (forall i p w,
     sentence s !! i = Some p -> words (the_model s) !! p = Some w ->
     n_nw w = 0 -> N <> i + 1 ->
     find_words_recursive rand (S (S fuel)) N i s = Ret (false, s)).
Proof.
  split; [|split].
  - intros u H. unfold find_words in H.
    apply starting_words_no_empty_range in H. subst u. split; discriminate.
  - intros H0. unfold find_words. simpl. rewrite H0. reflexivity.
  - intros i p w Hp Hw Hn HN.
    rewrite find_words_recursive_S.
    apply Nat.eqb_neq in HN. rewrite HN, Hp. cbn [deref mbind result_bind].
    rewrite Hw. cbn [deref mbind result_bind].
    rewrite Hn, clear_checked_0, (store_tested_same s p w Hw).
    apply (next_words_loop_exhausted _ _ _ _ _ _ w Hw).
    rewrite Hn. apply not_all_checked_0.
Qed.

Lemma search_never_draws_from_empty_range_witness :
  find_words counting 1 3 (start_state initialize_model 3)
    = Ret (false, start_state initialize_model 3) /\
  find_words_recursive counting 2 3 0
    (with_sentence (start_state (model_of_text cat_dog) 3) [2; 0; 0])
    = Ret (false, with_sentence (start_state (model_of_text cat_dog) 3) [2; 0; 0]).
Proof.
  split.
  - apply (proj1 (proj2 (search_never_draws_from_empty_range counting 0 3
                           (start_state initialize_model 3)))).
    reflexivity.
  - apply (proj2 (proj2 (search_never_draws_from_empty_range counting 0 3
                           (with_sentence (start_state (model_of_text cat_dog) 3)
                              [2; 0; 0])))
             0 2 {| string := "sat"; n_occurrences := 1; is_sentence_ender := true;
                    next_words := []; tested := fresh_tested |}).
    + reflexivity.
    + vm_compute. reflexivity.
    + reflexivity.
    + lia.
Defined.

(** ** Termination of the search *)

Lemma unchecked_0 array n :
  unchecked array n = 0 <-> not_all_checked array n = false.
Proof.
  revert array. induction n as [|n IH]; intros [|b array]; simpl; try tauto.
  destruct b; simpl; [apply IH|]. split; intros; discriminate.
Qed.

Lemma unchecked_insert array n k :
  array !! k = Some false -> k < n ->
  S (unchecked (<[k := true]> array) n) = unchecked array n.
Proof.
  revert array k. induction n as [|n IH]; intros [|b array] k Hk Hlt;
    try lia; try discriminate.
  destruct k as [|k]; simpl in *.
  - injection Hk as ->. reflexivity.
  - rewrite <- (IH array k) by (auto; lia). destruct b; simpl; lia.
Qed.

Lemma refilled_refl p s : refilled p s s.
Proof. intros w Hw. exists w. auto. Qed.

Lemma refilled_trans p s1 s2 s3 :
  refilled p s1 s2 -> refilled p s2 s3 -> refilled p s1 s3.
Proof.
  intros H1 H2 w Hw.
  destruct (H1 w Hw) as (w2 & Hw2 & Hn2 & Ht2).
  destruct (H2 w2 Hw2) as (w3 & Hw3 & Hn3 & Ht3).
  exists w3. split; [assumption|]. split; [congruence|].
  destruct Ht3 as [Ht3|Ht3]; [|auto].
  destruct Ht2 as [Ht2|Ht2]; [left; congruence|].
  right. rewrite Ht3, Hn3. assumption.
Qed.

Lemma refilled_same_model p s s' :
  the_model s' = the_model s -> refilled p s s'.
Proof. intros Hm w Hw. exists w. rewrite Hm. auto. Qed.

Lemma refilled_store_tested_ne p this_word s t :
  p <> this_word -> refilled p s (store_tested s this_word t).
Proof.
  intros Hne w Hw. exists w. simpl.
  rewrite list_lookup_alter_ne by auto. auto.
Qed.

Lemma frame_n_nw i s s' p w w' :
  frame i s s' ->
  words (the_model s) !! p = Some w -> words (the_model s') !! p = Some w' ->
  n_nw w' = n_nw w.
Proof.
  intros (Hsame & _) Hw Hw'.
  destruct (same_fields_lookup _ _ _ _ Hsame Hw) as (w2 & Hw2 & Hp).
  rewrite Hw' in Hw2. injection Hw2 as <-.
  apply persistent_inj_fields in Hp. unfold n_nw.
  destruct Hp as (_ & _ & _ & -> & _). reflexivity.
Qed.

Lemma store_tested_lookup s p t w :
  words (the_model s) !! p = Some w ->
  words (the_model (store_tested s p t)) !! p = Some (set_tested t w).
Proof. intros Hw. simpl. rewrite list_lookup_alter_eq, Hw. reflexivity. Qed.

Section Filling.

Variable rand : nat -> nat.

(** A call that returns false has exhausted the markers of every word it
    searched from, and has left the others as they were. *)
Lemma returns_fills N :
  (forall i s r, rec_returns rand N i s r ->
     r.1 = false -> forall p, refilled p s r.2) /\
  (forall i this_word s r, loop_returns rand N i this_word s r ->
     r.1 = false ->
     (forall p, p <> this_word -> refilled p s r.2) /\
     (exists w', words (the_model r.2) !! this_word = Some w' /\
                 unchecked (tested w') (n_nw w') = 0)).
Proof.
  apply returns_mutind; simpl.
  - intros. apply refilled_refl.
  - intros i s this_word w r HN Hp Hw Hloop IH Hr p.
    destruct (IH Hr) as [Hother (w' & Hw' & Hu)].
    destruct (decide (p = this_word)) as [->|Hne].
    + intros w0 Hw0. exists w'. split; [assumption|].
      assert (Hn : n_nw w' = n_nw w0); [|auto].
      apply (proj2 (returns_frame rand N)) in Hloop.
      rewrite Hw in Hw0. injection Hw0 as <-.
      eapply (frame_n_nw _ _ _ this_word (set_tested _ w) w' Hloop); eauto.
      apply store_tested_lookup. assumption.
    + eapply refilled_trans; [|apply Hother; assumption].
      apply refilled_store_tested_ne. assumption.
  - intros i this_word s w Hw HC _. split.
    + intros. apply refilled_refl.
    + exists w. split; [assumption|]. apply unchecked_0. assumption.
  - intros i this_word s w nw_index s1 r Hw HC HR HT _ IH Hr.
    apply random_int_Ret in HR. destruct HR as (Hm & _).
    destruct (IH Hr) as [Hother Hthis]. split; [|assumption].
    intros p Hne. eapply refilled_trans; [|apply Hother; assumption].
    apply refilled_same_model. assumption.
  - intros; discriminate.
  - intros i this_word s w nw_index s1 next_word s2 s3 r Hw HC HR HT HN HS
      _ IH1 _ IH2 Hr.
    apply random_int_Ret in HR. destruct HR as (Hm & _).
    apply store_sentence_Ret in HS. destruct HS as [_ ->].
    destruct (IH2 Hr) as [Hother Hthis]. split; [|assumption].
    intros p Hne.
    eapply refilled_trans; [|apply Hother; assumption].
    eapply refilled_trans; [|apply IH1; reflexivity].
    eapply refilled_trans; [apply (refilled_same_model p s s1); assumption|].
    eapply refilled_trans; [apply refilled_store_tested_ne; eassumption|].
    apply refilled_same_model. reflexivity.
Qed.

End Filling.

Lemma wf_model_same_fields m m' :
  same_fields m m' -> wf_model m -> wf_model m'.
Proof.
  intros Hs [Hw Hssw]. pose proof (same_fields_n_w _ _ Hs) as Hn. split.
  - apply Forall_lookup. intros p w' Hw'.
    destruct (same_fields_lookup _ _ _ _ (same_fields_sym _ _ Hs) Hw')
      as (w & Hw0 & Hp).
    apply persistent_inj_fields in Hp. destruct Hp as (_ & _ & _ & Hnext & Hlen).
    rewrite Forall_lookup in Hw. destruct (Hw p w Hw0) as [A B].
    unfold wf_word, n_nw in *. rewrite Hn, <- Hnext, <- Hlen. auto.
  - destruct Hs as [_ ->]. rewrite Hn. assumption.
Qed.

Lemma search_inv_frame N i s s' :
  frame i s s' -> search_inv N s -> search_inv N s'.
Proof.
  intros (Hsame & Hlen & _) [Hwf HN]. split; [|congruence].
  eapply wf_model_same_fields; eauto.
Qed.

Lemma wf_model_next_word model p w k next_word :
  wf_model model -> words model !! p = Some w ->
  next_words w !! k = Some next_word -> next_word < n_w model.
Proof.
  intros [Hw _] Hp Hk. rewrite Forall_lookup in Hw.
  destruct (Hw p w Hp) as [Hnext _]. rewrite Forall_lookup in Hnext. eauto.
Qed.

Lemma wf_model_tested model p w k :
  wf_model model -> words model !! p = Some w -> k < n_nw w ->
  is_Some (tested w !! k).
Proof.
  intros [Hw _] Hp Hk. rewrite Forall_lookup in Hw.
  destruct (Hw p w Hp) as [_ Hlen]. apply lookup_lt_is_Some_2. lia.
Qed.

(** The ranges drawn from are among the fields that the search leaves
    alone. *)
Lemma moduli_same_fields m m' : same_fields m m' -> moduli m' = moduli m.
Proof.
  intros [Hw Hs]. unfold moduli, n_ssw. rewrite Hs. f_equal.
  assert (H : forall ws : list Word,
             map n_nw ws = map (fun t => length t.1.2) (map persistent ws)).
  { intros ws. rewrite map_map. reflexivity. }
  rewrite !H, Hw. reflexivity.
Qed.

Lemma fair_for_same_fields m m' rand :
  same_fields m m' -> fair_for m rand -> fair_for m' rand.
Proof.
  intros Hsf H start n r Hn. apply H. rewrite <- (moduli_same_fields _ _ Hsf).
  exact Hn.
Qed.

Lemma fair_for_frame i s s' rand :
  frame i s s' -> fair_for (the_model s) rand -> fair_for (the_model s') rand.
Proof. intros [Hsf _]. apply fair_for_same_fields. exact Hsf. Qed.

Lemma n_ssw_in_moduli model : n_ssw model ∈ moduli model.
Proof. apply list_elem_of_here. Qed.

Lemma n_nw_in_moduli model p w :
  words model !! p = Some w -> n_nw w ∈ moduli model.
Proof.
  intros H. apply list_elem_of_further, list_elem_of_In, in_map, list_elem_of_In.
  eapply list_elem_of_lookup_2, H.
Qed.

Lemma fair_upto_for M model rand :
  Forall (fun n => n <= M) (moduli model) -> fair_upto M rand ->
  fair_for model rand.
Proof.
  intros Hb H start n r Hn. apply H. rewrite Forall_forall in Hb. auto.
Qed.

Lemma fair_fair_upto M rand : fair rand -> fair_upto M rand.
Proof. intros H start n r _. apply H. Qed.

Lemma fair_fair_for model rand : fair rand -> fair_for model rand.
Proof. intros H start n r _. apply H. Qed.

Section Termination.

Variable rand : nat -> nat.
Variable N : nat.

(** One iteration that draws an untried index: the recursive call
    returns (by [IHrec]) and, if it found nothing, the loop goes on with
    fewer untried indices (by [IHloop]). *)
Lemma loop_try_terminates i this_word u s w v s1 :
  i + 1 < N ->
  (forall s, search_inv N s -> fair_for (the_model s) rand ->
     (exists p, sentence s !! (i + 1) = Some p /\ p < n_w (the_model s)) ->
     exists r, rec_returns rand N (i + 1) s r) ->
  (forall s w, words (the_model s) !! this_word = Some w ->
     unchecked (tested w) (n_nw w) <= u -> search_inv N s ->
     fair_for (the_model s) rand ->
     exists r, loop_returns rand N i this_word s r) ->
  words (the_model s) !! this_word = Some w ->
  unchecked (tested w) (n_nw w) <= S u ->
  search_inv N s ->
  fair_for (the_model s) rand ->
  not_all_checked (tested w) (n_nw w) = true ->
  random_int rand 0 (Z.of_nat (n_nw w) - 1) s = Ret (v, s1) ->
  tested w !! Z.to_nat v = Some false ->
  exists r, loop_returns rand N i this_word s r.
Proof.
  intros Hi IHrec IHloop Hw Hu [Hwf Hlen] Hfair HC HR HT.
  destruct (random_int_Ret _ _ _ _ _ _ HR) as (Hm & Hs & _ & Hrange & _).
  assert (Hv : Z.to_nat v < n_nw w) by lia.
  destruct (lookup_lt_is_Some_2 (next_words w) (Z.to_nat v) Hv) as [next_word HN].
  pose proof (wf_model_next_word _ _ _ _ _ Hwf Hw HN) as Hnext.
  set (st := store_tested s1 this_word (<[Z.to_nat v := true]> (tested w))).
  assert (Fst : frame i s st).
  { eapply frame_trans; [eapply random_int_frame; eauto|].
    apply store_tested_frame. intros w' Hw'. rewrite Hm, Hw in Hw'.
    injection Hw' as <-. apply length_insert. }
  assert (Hst : search_inv N st) by (eapply search_inv_frame; eauto; split; auto).
  destruct (store_sentence st (i + 1) next_word) as [s2| | |] eqn:HS;
    try (unfold store_sentence in HS; destruct Hst as [_ Hl];
         rewrite Hl in HS; apply Nat.ltb_lt in Hi; rewrite Hi in HS; discriminate).
  pose proof HS as HS'. apply store_sentence_Ret in HS'. destruct HS' as [Hlt Hs2].
  assert (F2 : frame i st s2).
  { apply store_sentence_frame with next_word. rewrite <- Nat.add_1_r. exact HS. }
  assert (Hs2inv : search_inv N s2) by (eapply search_inv_frame; eauto).
  assert (Hfair2 : fair_for (the_model s2) rand).
  { eapply fair_for_frame; [exact F2|]. eapply fair_for_frame; [exact Fst|].
    exact Hfair. }
  destruct (IHrec s2 Hs2inv Hfair2) as [[found s3] Hrec].
  { exists next_word. split.
    - rewrite Hs2. simpl. apply list_lookup_insert_eq. exact Hlt.
    - destruct (frame_trans _ _ _ _ Fst F2) as (Hsame & _).
      rewrite (same_fields_n_w _ _ Hsame). assumption. }
  destruct found.
  - exists (true, s3). eapply loop_found; eauto.
  - pose proof (proj1 (returns_frame rand N) _ _ _ Hrec) as F3. simpl in F3.
    pose proof (proj1 (returns_fills rand N) _ _ _ Hrec eq_refl this_word) as Hfill.
    simpl in Hfill.
    assert (Hw2 : words (the_model s2) !! this_word
                  = Some (set_tested (<[Z.to_nat v := true]> (tested w)) w)).
    { rewrite Hs2. simpl. rewrite list_lookup_alter_eq, Hm, Hw. reflexivity. }
    destruct (Hfill _ Hw2) as (w3 & Hw3 & Hn3 & Ht3).
    destruct (IHloop s3 w3 Hw3) as [r Hr].
    + pose proof (unchecked_insert (tested w) (n_nw w) (Z.to_nat v) HT Hv) as Hins.
      destruct Ht3 as [Ht3|Ht3]; [|lia].
      rewrite Ht3, Hn3. simpl. unfold n_nw at 1. simpl. fold (n_nw w). lia.
    + eapply search_inv_frame; eauto.
    + eapply fair_for_frame; eauto.
    + exists r. eapply loop_retry; eauto.
Qed.

Lemma loop_terminates i this_word :
  i + 1 < N ->
  (forall s, search_inv N s -> fair_for (the_model s) rand ->
     (exists p, sentence s !! (i + 1) = Some p /\ p < n_w (the_model s)) ->
     exists r, rec_returns rand N (i + 1) s r) ->
  forall u s w, words (the_model s) !! this_word = Some w ->
    unchecked (tested w) (n_nw w) <= u -> search_inv N s ->
    fair_for (the_model s) rand ->
    exists r, loop_returns rand N i this_word s r.
Proof.
  intros Hi IHrec. induction u as [|u IHu]; intros s w Hw Hu Hinv Hfair.
  { exists (false, s). eapply loop_exhausted; eauto. apply unchecked_0. lia. }
  destruct (not_all_checked (tested w) (n_nw w)) eqn:HC;
    [|exists (false, s); eapply loop_exhausted; eauto].
  destruct (not_all_checked_true _ _ HC) as (k & Hk & Hfalse).
  destruct (Hfair (rand_calls s) (n_nw w) k (n_nw_in_moduli _ _ _ Hw) Hk)
    as (q & Hq & Hhit).
  assert (Hinner : forall dist s', rand_calls s' + dist = q ->
            the_model s' = the_model s -> length (sentence s') = N ->
            exists r, loop_returns rand N i this_word s' r).
  { induction dist as [|dist IHd]; intros s' Hdist Hm Hlen;
      destruct (random_int_nonempty rand (n_nw w) s') as (v & Hv & Hvmod);
      try lia;
      (assert (Hw' : words (the_model s') !! this_word = Some w)
         by (rewrite Hm; exact Hw));
      (assert (Hinv' : search_inv N s')
         by (destruct Hinv; split; [rewrite Hm|]; assumption));
      (assert (Hfair' : fair_for (the_model s') rand)
         by (rewrite Hm; exact Hfair));
      (assert (Hlt : Z.to_nat v < n_nw w)
         by (rewrite Hvmod; apply Nat.mod_upper_bound; lia));
      destruct (wf_model_tested _ _ _ _ (proj1 Hinv') Hw' Hlt) as [[|] HT];
      try (eapply loop_try_terminates; eauto; fail).
    - exfalso. rewrite Hvmod in HT. replace (rand_calls s') with q in HT by lia.
      rewrite Hhit in HT. congruence.
    - destruct (IHd {| the_model := the_model s'; sentence := sentence s';
                       rand_calls := S (rand_calls s') |}
                  ltac:(simpl; lia) Hm Hlen) as [r Hr].
      exists r. eapply loop_redraw; eauto. }
  apply (Hinner (q - rand_calls s) s); try lia; try reflexivity. apply Hinv.
Qed.

Lemma rec_terminates d :
  forall i s, i + d + 1 = N -> search_inv N s ->
    fair_for (the_model s) rand ->
    (exists p, sentence s !! i = Some p /\ p < n_w (the_model s)) ->
    exists r, rec_returns rand N i s r.
Proof.
  induction d as [|d IHd]; intros i s HN Hinv Hfair (p & Hp & Hlt);
    destruct (lookup_lt_is_Some_2 (words (the_model s)) p Hlt) as [w Hw].
  - exists (is_sentence_ender w, s). eapply rec_last; eauto; try lia.
    replace (N - 1) with i by lia. assumption.
  - set (s0 := store_tested s p (clear_checked (tested w) (n_nw w))).
    assert (F0 : frame i s s0).
    { apply store_tested_frame. intros w' Hw'. rewrite Hw in Hw'.
      injection Hw' as <-. apply length_clear_checked. }
    destruct (loop_terminates i p ltac:(lia)
                (fun s Hs Hf Hc => IHd (i + 1) s ltac:(lia) Hs Hf Hc)
                (unchecked (clear_checked (tested w) (n_nw w)) (n_nw w)) s0
                (set_tested (clear_checked (tested w) (n_nw w)) w))
      as [r Hr].
    + apply store_tested_lookup. assumption.
    + reflexivity.
    + eapply search_inv_frame; eauto.
    + eapply fair_for_frame; eauto.
    + exists r. eapply rec_inner; eauto. lia.
Qed.

Lemma start_try_terminates u ssw_checked s v s1 :
  1 <= N ->
  (forall ssw_checked s,
     unchecked ssw_checked (n_ssw (the_model s)) <= u ->
     n_ssw (the_model s) <= length ssw_checked ->
     search_inv N s ->
     fair_for (the_model s) rand ->
     exists r, start_returns rand N ssw_checked s r) ->
  unchecked ssw_checked (n_ssw (the_model s)) <= S u ->
  n_ssw (the_model s) <= length ssw_checked ->
  search_inv N s ->
  fair_for (the_model s) rand ->
  not_all_checked ssw_checked (n_ssw (the_model s)) = true ->
  random_int rand 0 (Z.of_nat (n_ssw (the_model s)) - 1) s = Ret (v, s1) ->
  ssw_checked !! Z.to_nat v = Some false ->
  exists r, start_returns rand N ssw_checked s r.
Proof.
  intros HN IHloop Hu Hck [Hwf Hlen] Hfair HC HR HT.
  destruct (random_int_Ret _ _ _ _ _ _ HR) as (Hm & Hs & _ & Hrange & _).
  assert (Hv : Z.to_nat v < n_ssw (the_model s)) by lia.
  destruct (lookup_lt_is_Some_2 (sentence_starting_words (the_model s))
              (Z.to_nat v) Hv) as [p Hp].
  assert (Hplt : p < n_w (the_model s)).
  { destruct Hwf as [_ Hssw]. rewrite Forall_lookup in Hssw. eauto. }
  assert (HS : store_sentence s1 0 p
               = Ret (with_sentence s1 (<[0 := p]> (sentence s1)))).
  { unfold store_sentence. rewrite Hs, Hlen. destruct N; [lia|reflexivity]. }
  set (s2 := with_sentence s1 (<[0 := p]> (sentence s1))) in *.
  assert (Hinv2 : search_inv N s2).
  { split; simpl; [rewrite Hm; exact Hwf|]. rewrite length_insert. congruence. }
  assert (Hfair2 : fair_for (the_model s2) rand)
    by (simpl; rewrite Hm; exact Hfair).
  destruct (rec_terminates (N - 1) 0 s2 ltac:(lia) Hinv2 Hfair2)
    as [[found s3] Hrec].
  { exists p. split; simpl; [|rewrite Hm; exact Hplt].
    apply list_lookup_insert_eq. rewrite Hs. lia. }
  destruct found; [exists (true, s3); eapply start_found; eauto|].
  pose proof (proj1 (returns_frame rand N) _ _ _ Hrec) as F3. simpl in F3.
  assert (Hm3 : same_fields (the_model s) (the_model s3)).
  { destruct F3 as (A & _). simpl in A. rewrite Hm in A. exact A. }
  assert (Hn3 : n_ssw (the_model s3) = n_ssw (the_model s)).
  { destruct Hm3 as [_ Hssw3]. unfold n_ssw. rewrite Hssw3. reflexivity. }
  destruct (IHloop (<[Z.to_nat v := true]> ssw_checked) s3) as [r Hr].
  - rewrite Hn3.
    pose proof (unchecked_insert ssw_checked _ _ HT Hv). lia.
  - rewrite Hn3, length_insert. exact Hck.
  - eapply search_inv_frame; eauto.
  - eapply fair_for_same_fields; eauto.
  - exists r. eapply start_retry; eauto.
Qed.

Lemma start_terminates :
  1 <= N ->
  forall u ssw_checked s,
    unchecked ssw_checked (n_ssw (the_model s)) <= u ->
    n_ssw (the_model s) <= length ssw_checked ->
    search_inv N s ->
    fair_for (the_model s) rand ->
    exists r, start_returns rand N ssw_checked s r.
Proof.
  intros HN. induction u as [|u IHu]; intros ssw_checked s Hu Hck Hinv Hfair.
  { exists (false, s). apply start_exhausted. apply unchecked_0. lia. }
  destruct (not_all_checked ssw_checked (n_ssw (the_model s))) eqn:HC;
    [|exists (false, s); apply start_exhausted; assumption].
  destruct (not_all_checked_true _ _ HC) as (k & Hk & Hfalse).
  destruct (Hfair (rand_calls s) (n_ssw (the_model s)) k
              (n_ssw_in_moduli _) Hk) as (q & Hq & Hhit).
  assert (Hinner : forall dist s', rand_calls s' + dist = q ->
            the_model s' = the_model s -> length (sentence s') = N ->
            exists r, start_returns rand N ssw_checked s' r).
  { induction dist as [|dist IHd]; intros s' Hdist Hm Hlen;
      destruct (random_int_nonempty rand (n_ssw (the_model s)) s')
        as (v & Hv & Hvmod); try lia;
      (assert (Hinv' : search_inv N s')
         by (destruct Hinv; split; [rewrite Hm|]; assumption));
      (assert (Hfair' : fair_for (the_model s') rand)
         by (rewrite Hm; exact Hfair));
      (assert (Hlt : Z.to_nat v < n_ssw (the_model s))
         by (rewrite Hvmod; apply Nat.mod_upper_bound; lia));
      (destruct (lookup_lt_is_Some_2 ssw_checked (Z.to_nat v) ltac:(lia))
         as [[|] HT]);
      try (rewrite <- Hm in Hu, Hck, HC, Hv;
           eapply (start_try_terminates u ssw_checked s' v); eauto; fail).
    - exfalso. rewrite Hvmod in HT. replace (rand_calls s') with q in HT by lia.
      rewrite Hhit in HT. congruence.
    - destruct (IHd {| the_model := the_model s'; sentence := sentence s';
                       rand_calls := S (rand_calls s') |}
                  ltac:(simpl; lia) Hm Hlen) as [r Hr].
      exists r. rewrite <- Hm in HC, Hv.
      exact (start_redraw rand N ssw_checked s' v _ r HC Hv HT Hr). }
  apply (Hinner (q - rand_calls s) s); try lia; try reflexivity. apply Hinv.
Qed.

End Termination.

(** The cells of a valid chain point into [words]. *)
Lemma valid_sentence_pointers model N l :
  wf_model model -> valid_sentence model N l ->
  forall i p, l !! i = Some p -> p < n_w model.
Proof.
  intros Hwf (Hlen & (p0 & Hp0 & Hin) & Hchain & _).
  induction i as [|i IH]; intros p Hp.
  - rewrite Hp0 in Hp. injection Hp as <-.
    destruct Hwf as [_ Hssw]. rewrite Forall_forall in Hssw. auto.
  - destruct (lookup_lt_is_Some_2 l i) as [a Ha].
    { apply lookup_lt_Some in Hp. lia. }
    destruct (Hchain i a p Ha Hp) as (w & Hw & Hpw).
    apply list_elem_of_lookup_1 in Hpw. destruct Hpw as [k Hk].
    eapply wf_model_next_word; eauto.
Qed.

Lemma fair_counting : fair counting.
Proof.
  intros start n r Hr. unfold counting.
  exists (start + (n - start mod n) + r). split; [lia|].
  pose proof (Nat.mod_upper_bound start n ltac:(lia)) as Hlt.
  pose proof (Nat.div_mod_eq start n) as Hdiv.
  replace (start + (n - start mod n) + r)
    with (r + (start / n + 1) * n) by nia.
  rewrite Nat.Div0.mod_add. apply Nat.mod_small. assumption.
Qed.

(** A source of random numbers within [RAND_MAX] that is fair for all
    ranges of at most [RAND_MAX + 1] indices. *)
Lemma cycling_bounded k : cycling k <= RAND_MAX.
Proof.
  unfold cycling.
  pose proof (Nat.mod_upper_bound k (S RAND_MAX) ltac:(lia)). lia.
Qed.

Lemma fair_upto_cycling M : M <= S RAND_MAX -> fair_upto M cycling.
Proof.
  intros HM start n r Hn Hr. unfold cycling.
  set (m := S RAND_MAX) in *.
  assert (Hm : 0 < m) by (unfold m; lia).
  exists (r + (start / m + 1) * m). split.
  - pose proof (Nat.div_mod_eq start m) as Hdiv.
    pose proof (Nat.mod_upper_bound start m ltac:(lia)) as Hlt. nia.
  - rewrite Nat.Div0.mod_add, (Nat.mod_small r m) by lia.
    apply Nat.mod_small. assumption.
Qed.

Lemma next_words_loop_S rand fuel N i this_word s :
  next_words_loop rand (S fuel) N i this_word s =
  w ← deref (words (the_model s) !! this_word);
  if not_all_checked (tested w) (n_nw w) then
    '(nw_index, s) ← random_int rand 0 (Z.of_nat (n_nw w) - 1) s;
    let nw_index := Z.to_nat nw_index in
    was_tested ← deref (tested w !! nw_index);
    if negb was_tested then
      let s := store_tested s this_word (<[nw_index := true]> (tested w)) in
      next_word ← deref (next_words w !! nw_index);
      s ← store_sentence s (i + 1) next_word;
      '(found, s) ← find_words_recursive rand fuel N (i + 1) s;
      if found : bool then Ret (true, s)
      else next_words_loop rand fuel N i this_word s
    else next_words_loop rand fuel N i this_word s
  else Ret (false, s).
Proof. reflexivity. Qed.

Lemma starting_words_loop_S rand fuel N ssw_checked s :
  starting_words_loop rand (S fuel) N ssw_checked s =
  if not_all_checked ssw_checked (n_ssw (the_model s)) then
    '(ssw_index, s1) ← random_int rand 0 (Z.of_nat (n_ssw (the_model s)) - 1) s;
    let ssw_index := Z.to_nat ssw_index in
    was_checked ← deref (ssw_checked !! ssw_index);
    if negb was_checked then
      let ssw_checked := <[ssw_index := true]> ssw_checked in
      p ← deref (sentence_starting_words (the_model s) !! ssw_index);
      s2 ← store_sentence s1 0 p;
      '(found, s3) ← find_words_recursive rand fuel N 0 s2;
      if found : bool then Ret (true, s3)
      else starting_words_loop rand fuel N ssw_checked s3
    else starting_words_loop rand fuel N ssw_checked s1
  else Ret (false, s).
Proof. reflexivity. Qed.

(** The loop of [find_words] does not end while [rand()] yields marked
    indices only. *)
Lemma starting_words_loop_spins rand fuel N ssw_checked s :
  not_all_checked ssw_checked (n_ssw (the_model s)) = true ->
  (forall k, ssw_checked !! (rand k mod n_ssw (the_model s)) = Some true) ->
  starting_words_loop rand fuel N ssw_checked s = Timeout.
Proof.
  revert s. induction fuel as [|fuel IH]; intros s HC Hmarked; [reflexivity|].
  rewrite starting_words_loop_S, HC.
  destruct (not_all_checked_true _ _ HC) as (k & Hk & _).
  destruct (random_int_nonempty rand (n_ssw (the_model s)) s) as (v & Hv & Hmod);
    [lia|].
  rewrite Hv. cbn [mbind result_bind]. rewrite Hmod, Hmarked.
  cbn [deref mbind result_bind negb].
  apply IH; assumption.
Qed.

(** C3.  On every well-formed model and for every [N >= 1],
    [generate_sentence] terminates, cycles in the graph or not, provided
    that [rand()] keeps producing every index of the ranges that the
    search draws from on the model (its number of sentence starters and
    the numbers of followers of its words): there is an amount of fuel
    from which on the call returns, with a sentence or with NULL. *)
Theorem generate_sentence_terminates rand N s :
  fair_for (the_model s) rand -> wf_model (the_model s) -> 1 <= N ->
  length (sentence s) = N ->
  exists fuel r s', forall fuel', fuel <= fuel' ->
    generate_sentence rand fuel' N s = Ret (r, s').
Proof.
  intros Hfair Hwf HN Hlen.
  destruct (start_terminates rand N HN
              (unchecked (replicate (n_ssw (the_model s)) false)
                 (n_ssw (the_model s)))
              (replicate (n_ssw (the_model s)) false) s)
    as [[found s1] Hstart].
  { reflexivity. }
  { rewrite length_replicate. reflexivity. }
  { split; assumption. }
  { exact Hfair. }
  destruct (returns_starting_words rand _ _ _ _ Hstart) as [fuel Hfuel].
  destruct found.
  - pose proof (start_returns_frame _ _ _ _ _ Hstart) as (Hsame & Hl & _).
    simpl in Hsame, Hl.
    pose proof (start_returns_sound _ _ _ _ _ Hstart) as [Hhead [Hchain Hend]].
    assert (Hvalid : valid_sentence (the_model s) N (sentence s1)).
    { split; [congruence|]. split; [exact Hhead|]. split; [|exact Hend].
      intros i x y Hx Hy. apply (Hchain i x y); auto; try lia.
      apply lookup_lt_Some in Hy. lia. }
    destruct (mapM_is_Some_2 (fun p => words (the_model s1) !! p) (sentence s1))
      as [ws Hws].
    { apply Forall_lookup. intros i p Hp. simpl.
      apply lookup_lt_is_Some_2. fold (n_w (the_model s1)).
      rewrite (same_fields_n_w _ _ Hsame).
      eapply valid_sentence_pointers; eauto. }
    exists fuel, (Some (combine_words ws N)), s1. intros fuel' Hf.
    unfold generate_sentence, find_words. rewrite Hfuel by assumption.
    simpl. unfold pointees. rewrite Hws. reflexivity.
  - exists fuel, None, s1. intros fuel' Hf.
    unfold generate_sentence, find_words. rewrite Hfuel by assumption.
    reflexivity.
Qed.

Lemma generate_sentence_terminates_witness :
  exists fuel r s', forall fuel', fuel <= fuel' ->
    generate_sentence cycling fuel' 5 (start_state (model_of_text aaab) 5)
    = Ret (r, s').
Proof.
  apply generate_sentence_terminates.
  - apply (fair_upto_for MAX_STARTING_WORDS).
    + apply (bool_decide_unpack _). vm_compute. reflexivity.
    + apply fair_upto_cycling. unfold MAX_STARTING_WORDS, RAND_MAX. lia.
  - apply (bool_decide_unpack _). vm_compute. reflexivity.
  - lia.
  - reflexivity.
Defined.

(** C3 without the proviso, on the model of "a. b." for [N = 2] and a
    [rand()] that returns 0 every time.  The model has the two sentence
    starters a and b, neither with a follower.  The first draw picks a,
    the call for it finds nothing and a is marked; every later draw picks
    a again, which is skipped, and b is never drawn: the loop of
    [find_words] goes on for ever. *)
Theorem generate_sentence_runs_on_when_rand_repeats :
  ~ exists fuel r s',
      generate_sentence always_zero fuel 2 (start_state (model_of_text a_b) 2)
      = Ret (r, s').
Proof.
  assert (Hspin : forall fuel,
            find_words always_zero fuel 2 (start_state (model_of_text a_b) 2)
            = Timeout).
  { intros [|[|[|fuel]]]; try reflexivity.
    assert (Hword : words (model_of_text a_b) !! 0
                    = Some (mkWord "a" 1 true [] fresh_tested))
      by (vm_compute; reflexivity).
    assert (Hssw : sentence_starting_words (model_of_text a_b) = [0; 1])
      by (vm_compute; reflexivity).
    unfold find_words, start_state. rewrite starting_words_loop_S.
    cbn [the_model]. unfold n_ssw. rewrite Hssw.
    change (not_all_checked (replicate (length [0; 1]) false) (length [0; 1]))
      with true. cbn iota.
    change (random_int always_zero 0 (Z.of_nat (length [0; 1]) - 1)
              {| the_model := model_of_text a_b; sentence := replicate 2 0;
                 rand_calls := 0 |})
      with (Ret (0%Z, {| the_model := model_of_text a_b;
                         sentence := [0; 0]; rand_calls := 1 |})
            : result (Z * search_state)).
    cbn [mbind result_bind].
    change (Z.to_nat 0) with 0.
    change (replicate (length [0; 1]) false !! 0) with (Some false).
    change ([0; 1] !! 0) with (Some 0).
    cbn [deref mbind result_bind negb].
    change (store_sentence
              {| the_model := model_of_text a_b; sentence := [0; 0];
                 rand_calls := 1 |} 0 0)
      with (Ret {| the_model := model_of_text a_b; sentence := [0; 0];
                   rand_calls := 1 |}).
    cbn [mbind result_bind].
    rewrite find_words_recursive_S.
    change (2 =? 0 + 1) with false. cbn iota.
    cbn [sentence the_model].
    change ([0; 0] !! 0) with (Some 0).
    cbn [deref mbind result_bind].
    rewrite Hword. cbn [deref mbind result_bind].
    rewrite (next_words_loop_exhausted always_zero fuel 2 0 0 _
               (mkWord "a" 1 true [] fresh_tested)).
    - cbn [mbind result_bind].
      apply starting_words_loop_spins.
      + unfold n_ssw.
        cbn [the_model store_tested with_model set_words sentence_starting_words].
        rewrite Hssw. reflexivity.
      + intros k. unfold n_ssw.
        cbn [the_model store_tested with_model set_words sentence_starting_words].
        rewrite Hssw. reflexivity.
    - cbn [the_model store_tested with_model set_words words].
      rewrite list_lookup_alter_eq, Hword. reflexivity.
    - reflexivity. }
  intros (fuel & r & s' & H).
  unfold generate_sentence in H. rewrite Hspin in H. discriminate.
Qed.

Lemma fair_zeros_then_counting : fair zeros_then_counting.
Proof.
  intros start n r Hr.
  destruct (fair_counting (start + 3) n r Hr) as (k & Hk & Hmod).
  exists k. split; [lia|]. unfold zeros_then_counting.
  destruct (k <? 3) eqn:E; [apply Nat.ltb_lt in E; lia|exact Hmod].
Qed.

(** ** The search is not exhaustive *)

(** C1, evaluated on the model of "a a c d." for [N = 3].  The chain
    a, c, d is valid.  Word a has the successors a and c.  When the first
    draw at position 0 picks a, the call for position 1 works on the same
    word: it clears a's [tested] array, tries both successors, fails and
    leaves every marker of a set; back at position 0 the loop then finds
    nothing left to try, so c is never tried there and the search reports
    that no sentence exists.  When the first draw picks c, the search
    succeeds.  Both sources of random numbers are fair. *)
Theorem find_words_can_miss_a_valid_sentence :
  let model := model_of_text aacd in
  valid_sentence model 3 [0; 1; 2] /\
  wf_model model /\
  fair zeros_then_counting /\ fair counting /\
  (exists s', find_words zeros_then_counting 10 3 (start_state model 3)
              = Ret (false, s')) /\
  (exists s', find_words counting 10 3 (start_state model 3) = Ret (true, s') /\
              sentence s' = [0; 1; 2]).
Proof.
  intros model. split; [|split; [|split; [|split; [|split]]]].
  - split; [reflexivity|]. split; [|split].
    + exists 0. split; [reflexivity|]. vm_compute. apply list_elem_of_here.
    + intros [|[|i]] a b Ha Hb; vm_compute in Ha, Hb; try discriminate;
        injection Ha as <-; injection Hb as <-.
      * eexists. split; [vm_compute; reflexivity|]. simpl.
        apply list_elem_of_further, list_elem_of_here.
      * eexists. split; [vm_compute; reflexivity|]. simpl.
        apply list_elem_of_here.
    + exists 2. split; [reflexivity|].
      eexists. split; [vm_compute; reflexivity|]. reflexivity.
  - apply (bool_decide_unpack _). vm_compute. reflexivity.
  - exact fair_zeros_then_counting.
  - exact fair_counting.
  - eexists. vm_compute. reflexivity.
  - eexists. split; vm_compute; reflexivity.
Qed.

(** * The model builder *)

(** ** Observations, one token more *)

Lemma observe_snoc new_sentence pre token :
  observe new_sentence (pre ++ [token]) =
  observe new_sentence pre
  ++ [observe_token (flag_after new_sentence (observe new_sentence pre)) token].
Proof.
  revert new_sentence. induction pre as [|t pre IH]; intros new_sentence.
  - reflexivity.
  - simpl. rewrite IH. f_equal. f_equal. f_equal.
    unfold flag_after. rewrite last_cons.
    destruct (last (observe _ pre)); reflexivity.
Qed.

Lemma vocabulary_snoc obs o :
  vocabulary (obs ++ [o]) = add_new (vocabulary obs) (ob_text o).
Proof. unfold vocabulary. rewrite map_app, fold_left_app. reflexivity. Qed.

Lemma elem_of_add_new l x y : y ∈ add_new l x <-> y ∈ l \/ y = x.
Proof.
  unfold add_new. destruct (decide (x ∈ l)).
  - split; [auto|]. intros [H| ->]; assumption.
  - rewrite elem_of_app, list_elem_of_singleton. reflexivity.
Qed.

Lemma NoDup_add_new l x : NoDup l -> NoDup (add_new l x).
Proof.
  intros H. unfold add_new. destruct (decide (x ∈ l)); [assumption|].
  apply NoDup_app. split; [assumption|]. split.
  - intros y Hy Hx. apply list_elem_of_singleton in Hx. subst. contradiction.
  - apply NoDup_singleton.
Qed.

Lemma elem_of_vocabulary obs x :
  x ∈ vocabulary obs <-> x ∈ map ob_text obs.
Proof.
  induction obs as [|o obs IH] using rev_ind.
  - reflexivity.
  - rewrite vocabulary_snoc, elem_of_add_new, IH, map_app.
    rewrite elem_of_app. simpl. rewrite list_elem_of_singleton. reflexivity.
Qed.

Lemma NoDup_vocabulary obs : NoDup (vocabulary obs).
Proof.
  induction obs as [|o obs IH] using rev_ind.
  - apply NoDup_nil_2.
  - rewrite vocabulary_snoc. apply NoDup_add_new. assumption.
Qed.

Lemma starters_snoc obs o :
  starters (obs ++ [o]) =
  starters obs ++ (if ob_starts o then [ob_text o] else []).
Proof.
  unfold starters. rewrite List.filter_app, map_app. simpl.
  destruct (ob_starts o); reflexivity.
Qed.

Lemma transitions_snoc obs o :
  transitions (obs ++ [o]) =
  transitions obs ++
  match last obs with
  | Some a => if ob_starts o then [] else [(ob_text a, ob_text o)]
  | None => []
  end.
Proof.
  induction obs as [|a obs IH]; [reflexivity|].
  destruct obs as [|b obs].
  - simpl. destruct (ob_starts o); reflexivity.
  - change ((a :: b :: obs) ++ [o]) with (a :: (b :: obs) ++ [o]).
    change (transitions (a :: (b :: obs) ++ [o]))
      with ((if ob_starts b then [] else [(ob_text a, ob_text b)])
            ++ transitions ((b :: obs) ++ [o])).
    rewrite IH. rewrite (last_cons a (b :: obs)).
    destruct (last (b :: obs)) eqn:E.
    + simpl. rewrite <- app_assoc. reflexivity.
    + apply last_None in E. discriminate.
Qed.

Lemma successors_snoc w obs o :
  successors w (obs ++ [o]) =
  successors w obs ++
  match last obs with
  | Some a =>
      if negb (ob_starts o) && String.eqb (ob_text a) w then [ob_text o] else []
  | None => []
  end.
Proof.
  unfold successors. rewrite transitions_snoc, List.filter_app, map_app.
  f_equal. destruct (last obs) as [a|]; [|reflexivity].
  destruct (ob_starts o); simpl; [reflexivity|].
  destruct (String.eqb (ob_text a) w); reflexivity.
Qed.

Lemma occurrences_snoc w obs o :
  occurrences w (obs ++ [o]) =
  occurrences w obs + (if String.eqb (ob_text o) w then 1 else 0).
Proof.
  unfold occurrences. rewrite List.filter_app, length_app. simpl.
  destruct (String.eqb (ob_text o) w); reflexivity.
Qed.

Lemma ends_somewhere_snoc w obs o :
  ends_somewhere w (obs ++ [o]) =
  ends_somewhere w obs || (String.eqb (ob_text o) w && ob_ends o).
Proof.
  unfold ends_somewhere. rewrite existsb_app. simpl.
  rewrite orb_false_r. reflexivity.
Qed.

Lemma not_elem_of_vocabulary_snoc w obs o :
  (w ∉ vocabulary (obs ++ [o])) <-> (w ∉ vocabulary obs) /\ w <> ob_text o.
Proof. rewrite vocabulary_snoc, elem_of_add_new. tauto. Qed.

Lemma occurrences_fresh w obs : w ∉ vocabulary obs -> occurrences w obs = 0.
Proof.
  induction obs as [|o obs IH] using rev_ind; [reflexivity|].
  rewrite not_elem_of_vocabulary_snoc, occurrences_snoc. intros [Hn Hne].
  rewrite (IH Hn).
  destruct (String.eqb_spec (ob_text o) w) as [Heq|_]; [congruence|reflexivity].
Qed.

Lemma ends_somewhere_fresh w obs :
  w ∉ vocabulary obs -> ends_somewhere w obs = false.
Proof.
  induction obs as [|o obs IH] using rev_ind; [reflexivity|].
  rewrite not_elem_of_vocabulary_snoc, ends_somewhere_snoc. intros [Hn Hne].
  rewrite (IH Hn).
  destruct (String.eqb_spec (ob_text o) w) as [Heq|_]; [congruence|reflexivity].
Qed.

Lemma transitions_from obs a b :
  (a, b) ∈ transitions obs -> a ∈ map ob_text obs.
Proof.
  induction obs as [|x obs IH]; [intros H; inversion H|].
  destruct obs as [|y obs]; [intros H; inversion H|].
  change (transitions (x :: y :: obs))
    with ((if ob_starts y then [] else [(ob_text x, ob_text y)])
          ++ transitions (y :: obs)).
  rewrite elem_of_app. intros [H|H].
  - destruct (ob_starts y); [inversion H|].
    apply list_elem_of_singleton in H. injection H as -> ->.
    simpl. apply list_elem_of_here.
  - change (map ob_text (x :: y :: obs))
      with (ob_text x :: map ob_text (y :: obs)).
    apply list_elem_of_further, IH, H.
Qed.

Lemma successors_fresh w obs : w ∉ vocabulary obs -> successors w obs = [].
Proof.
  rewrite elem_of_vocabulary. intros Hn. unfold successors.
  assert (H : forall l : list (String.string * String.string),
              (forall a b, (a, b) ∈ l -> a <> w) ->
              List.filter (fun p => String.eqb (fst p) w) l = []).
  { induction l as [|[a b] l IH]; [reflexivity|]. intros Hl. simpl.
    destruct (String.eqb_spec a w) as [->|_].
    - exfalso. apply (Hl w b); [apply list_elem_of_here|reflexivity].
    - apply IH. intros a' b' Hin. apply (Hl a' b'). apply list_elem_of_further, Hin. }
  rewrite H; [reflexivity|].
  intros a b Hin ->. apply Hn. eapply transitions_from; eauto.
Qed.

(** ** Looking up a word *)

Lemma search_from_Some ws i buf k :
  search_from ws i buf = Some k ->
  exists j w, k = i + j /\ ws !! j = Some w /\ string w = buf.
Proof.
  revert i. induction ws as [|w ws IH]; intros i H; [discriminate|].
  simpl in H. destruct (String.eqb_spec (string w) buf) as [Heq|Hne].
  - injection H as <-. exists 0, w. split; [lia|]. auto.
  - destruct (IH _ H) as (j & w' & -> & Hj & Hs).
    exists (S j), w'. split; [lia|]. auto.
Qed.

Lemma search_from_None ws i buf :
  search_from ws i buf = None -> buf ∉ map string ws.
Proof.
  revert i. induction ws as [|w ws IH]; intros i H.
  - simpl. apply not_elem_of_nil.
  - simpl in H. destruct (String.eqb_spec (string w) buf) as [Heq|Hne];
      [discriminate|].
    simpl. apply not_elem_of_cons. split; [congruence|eauto].
Qed.

Lemma search_words_Some model buf k :
  search_words model buf = Some k ->
  exists w, words model !! k = Some w /\ string w = buf.
Proof.
  unfold search_words. intros H.
  destruct (search_from_Some _ _ _ _ H) as (j & w & -> & Hj & Hs). eauto.
Qed.

Lemma text_at_lookup ws p w : ws !! p = Some w -> text_at ws p = string w.
Proof. unfold text_at. intros ->. reflexivity. Qed.

Lemma lookup_map_string (ws : list Word) p w :
  ws !! p = Some w -> map string ws !! p = Some (string w).
Proof.
  intros H. change (map string ws) with (string <$> ws).
  rewrite list_lookup_fmap, H. reflexivity.
Qed.

(** Distinct entries have distinct texts. *)
Lemma same_string_same_index (ws : list Word) p q w w' :
  NoDup (map string ws) ->
  ws !! p = Some w -> ws !! q = Some w' -> string w = string w' -> p = q.
Proof.
  intros Hnd Hp Hq Heq.
  apply lookup_map_string in Hp, Hq. rewrite Heq in Hp.
  eapply NoDup_lookup; eauto.
Qed.

Lemma map_string_alter f p (ws : list Word) :
  (forall w, string (f w) = string w) ->
  map string (alter f p ws) = map string ws.
Proof.
  intros Hf. apply list_eq. intros j.
  change (map string ?l) with (string <$> l). rewrite !list_lookup_fmap.
  destruct (decide (p = j)) as [->|Hne].
  - rewrite list_lookup_alter_eq. destruct (ws !! j); simpl; [|reflexivity].
    f_equal. apply Hf.
  - rewrite list_lookup_alter_ne by assumption. reflexivity.
Qed.

Lemma text_at_same_strings ws ws' p :
  map string ws' = map string ws -> text_at ws' p = text_at ws p.
Proof.
  intros H. unfold text_at.
  assert (Hp : map string ws' !! p = map string ws !! p) by (rewrite H; reflexivity).
  change (map string ?l) with (string <$> l) in Hp.
  rewrite !list_lookup_fmap in Hp.
  destruct (ws' !! p), (ws !! p); simpl in Hp; congruence.
Qed.

Lemma text_at_app_l ws ws' p : p < length ws -> text_at (ws ++ ws') p = text_at ws p.
Proof. intros H. unfold text_at. rewrite lookup_app_l by assumption. reflexivity. Qed.

(** ** One iteration, on arrays without a capacity *)

Lemma word_ok_blank ws obs buf :
  buf ∉ vocabulary obs -> word_ok ws obs (blank_word buf).
Proof.
  intros Hn. unfold word_ok. simpl.
  rewrite occurrences_fresh, ends_somewhere_fresh, successors_fresh by assumption.
  repeat split; auto.
Qed.

(** The entry after the iteration records the observations with [o]
    added, provided [is_next] and [is_this] say what they should. *)
Lemma word_ok_step ws ws' obs o next_word is_next is_this w :
  word_ok ws obs w ->
  (forall q, q < length ws -> text_at ws' q = text_at ws q) ->
  length ws <= length ws' ->
  next_word < length ws' ->
  text_at ws' next_word = ob_text o ->
  (is_next = true <-> string w = ob_text o) ->
  (ob_starts o = false ->
   exists a, last obs = Some a /\ (is_this = true <-> string w = ob_text a)) ->
  word_ok ws' (obs ++ [o]) (step_word o next_word is_next is_this w).
Proof.
  intros (Hocc & Hend & Hnext & Hlt & Htested) Htext Hlen Hnw Hnwtext Hisnext Histhis.
  assert (Hmap : map (text_at ws') (next_words w) = map (text_at ws) (next_words w)).
  { apply map_ext_in. intros q Hq. apply Htext.
    rewrite Forall_forall in Hlt. apply Hlt. apply list_elem_of_In. exact Hq. }
  assert (Hlt' : Forall (fun q => q < length ws') (next_words w)).
  { eapply Forall_impl; [exact Hlt|]. simpl. intros; lia. }
  assert (Heqb : String.eqb (ob_text o) (string w) = is_next).
  { destruct (String.eqb_spec (ob_text o) (string w)) as [Heq|Hne];
      destruct is_next; try reflexivity.
    - symmetry. apply Hisnext. auto.
    - exfalso. apply Hne. symmetry. apply Hisnext. reflexivity. }
  assert (Hsucc : successors (string w) (obs ++ [o]) =
                  successors (string w) obs
                  ++ (if negb (ob_starts o) && is_this then [ob_text o] else [])).
  { rewrite successors_snoc. f_equal.
    destruct (ob_starts o) eqn:Est; simpl.
    - destruct (last obs); reflexivity.
    - destruct (Histhis eq_refl) as (a & -> & Ha).
      destruct (String.eqb_spec (ob_text a) (string w)) as [Heq|Hne];
        destruct is_this; try reflexivity.
      + assert (false = true) by (apply Ha; auto). discriminate.
      + exfalso. apply Hne. symmetry. apply Ha. reflexivity. }
  unfold word_ok, step_word.
  assert (Hstring : forall b1 b2 b3 : bool,
            string (if b3 then set_is_sentence_ender true
                       (if b2 then push_next_word next_word
                          (if b1 then count_occurrence (ob_ends o) w else w)
                        else (if b1 then count_occurrence (ob_ends o) w else w))
                     else (if b2 then push_next_word next_word
                          (if b1 then count_occurrence (ob_ends o) w else w)
                        else (if b1 then count_occurrence (ob_ends o) w else w)))
            = string w).
  { intros [] [] []; unfold count_occurrence; destruct (ob_ends o); reflexivity. }
  rewrite Hstring, occurrences_snoc, ends_somewhere_snoc, Hsucc, Heqb.
  unfold count_occurrence.
  destruct is_next, (ob_ends o), (negb (ob_starts o) && is_this); simpl;
    rewrite ?map_app, ?Hmap, ?Hnext, ?Hend, ?Hocc, ?orb_true_r, ?orb_false_r;
    simpl; rewrite ?Hnwtext, ?app_nil_r;
    repeat split; auto; try lia;
    try (apply Forall_app; split; [assumption|]; apply Forall_singleton; assumption).
Qed.

Lemma extend_spec ws buf :
  map string (extend ws buf).1 = add_new (map string ws) buf /\
  (exists w, (extend ws buf).1 !! (extend ws buf).2 = Some w /\ string w = buf) /\
  length ws <= length (extend ws buf).1 /\
  (forall q, q < length ws -> text_at (extend ws buf).1 q = text_at ws q) /\
  (forall p w, (extend ws buf).1 !! p = Some w ->
     ws !! p = Some w \/ ((buf ∉ map string ws) /\ w = blank_word buf)).
Proof.
  unfold extend, add_new. destruct (search_from ws 0 buf) as [i|] eqn:E; simpl.
  - destruct (search_from_Some _ _ _ _ E) as (j & w & -> & Hj & Hs). simpl.
    destruct (decide (buf ∈ map string ws)) as [_|Hn].
    + repeat split; eauto.
    + exfalso. apply Hn. rewrite <- Hs.
      eapply list_elem_of_lookup_2, lookup_map_string, Hj.
  - apply search_from_None in E.
    destruct (decide (buf ∈ map string ws)) as [Hin|_]; [contradiction|].
    split; [rewrite map_app; reflexivity|].
    split; [exists (blank_word buf); split; [|reflexivity];
            rewrite lookup_app_r, Nat.sub_diag by lia; reflexivity|].
    split; [rewrite length_app; lia|].
    split; [intros q Hq; apply text_at_app_l; assumption|].
    intros p w Hp. apply lookup_app_Some in Hp. destruct Hp as [Hp|[Hge Hp]].
    + left. assumption.
    + right. split; [assumption|].
      destruct (p - length ws) as [|k]; simpl in Hp; [congruence|].
      rewrite lookup_nil in Hp. discriminate.
Qed.

(** The entry at [p] after an iteration, in terms of the entry at [p] of
    the extended array before it. *)
Lemma ideal_words_lookup o next_word this_word (ws : list Word) p :
  (if ob_ends o then alter (set_is_sentence_ender true) next_word else id)
    ((if ob_starts o then id
      else match this_word with
           | Some t => alter (push_next_word next_word) t
           | None => id
           end)
       (alter (count_occurrence (ob_ends o)) next_word ws)) !! p
  = step_word o next_word (bool_decide (p = next_word))
      (bool_decide (this_word = Some p)) <$> ws !! p.
Proof.
  unfold step_word.
  destruct (ob_ends o), (ob_starts o), this_word as [t|]; simpl;
    rewrite ?list_lookup_alter;
    repeat case_decide; repeat case_bool_decide; subst; try congruence;
    destruct (ws !! p); reflexivity.
Qed.

Lemma ideal_step_words st o :
  words (model_of (ideal_step st o)) =
  (if ob_ends o then alter (set_is_sentence_ender true)
                      (extend (words (model_of st)) (ob_text o)).2 else id)
    ((if ob_starts o then id
      else match this_word st with
           | Some t => alter (push_next_word
                                (extend (words (model_of st)) (ob_text o)).2) t
           | None => id
           end)
       (alter (count_occurrence (ob_ends o))
          (extend (words (model_of st)) (ob_text o)).2
          (extend (words (model_of st)) (ob_text o)).1)).
Proof.
  unfold ideal_step. destruct (extend _ _) as [ws0 nw]. simpl.
  destruct (ob_ends o), (ob_starts o), (this_word st); reflexivity.
Qed.

Lemma step_word_string o next_word b1 b2 w :
  string (step_word o next_word b1 b2 w) = string w.
Proof.
  unfold step_word, count_occurrence.
  destruct b1, b2, (ob_ends o), (ob_starts o); reflexivity.
Qed.

Lemma ideal_step_strings st o :
  map string (words (model_of (ideal_step st o)))
  = map string (extend (words (model_of st)) (ob_text o)).1.
Proof.
  apply list_eq. intros p.
  change (map string ?l) with (string <$> l). rewrite !list_lookup_fmap.
  rewrite ideal_step_words, ideal_words_lookup.
  destruct (_ !! p); simpl; [|reflexivity].
  rewrite step_word_string. reflexivity.
Qed.

Lemma ideal_step_reflects obs st o :
  reflects obs st ->
  (ob_starts o = false -> obs <> []) ->
  reflects (obs ++ [o]) (ideal_step st o).
Proof.
  intros [Hvoc Hwords [Hst Hstlt] Hloop] Hnonempty.
  set (ws := words (model_of st)) in *.
  destruct (extend_spec ws (ob_text o))
    as (Hstr0 & (wn & Hwn & Hwntxt) & Hlen0 & Htext0 & Hold).
  pose proof (ideal_step_strings st o) as Hstr3. fold ws in Hstr3.
  set (ws3 := words (model_of (ideal_step st o))) in *.
  set (ws0 := (extend ws (ob_text o)).1) in *.
  set (nw := (extend ws (ob_text o)).2) in *.
  assert (Hvoc3 : map string ws3 = vocabulary (obs ++ [o])).
  { rewrite Hstr3, Hstr0, Hvoc, vocabulary_snoc. reflexivity. }
  assert (Hnd0 : NoDup (map string ws0)).
  { rewrite <- Hstr3, Hvoc3. apply NoDup_vocabulary. }
  assert (Hlen3 : length ws3 = length ws0).
  { rewrite <- (length_map string ws3), Hstr3. apply length_map. }
  assert (Htext3 : forall q, q < length ws -> text_at ws3 q = text_at ws q).
  { intros q Hq. rewrite (text_at_same_strings ws0 ws3 q Hstr3). auto. }
  assert (Hnwlt : nw < length ws3).
  { rewrite Hlen3. eapply lookup_lt_Some; eauto. }
  assert (Hnwtext : text_at ws3 nw = ob_text o).
  { rewrite (text_at_same_strings ws0 ws3 nw Hstr3).
    rewrite (text_at_lookup _ _ _ Hwn). assumption. }
  assert (Hthis : this_word (ideal_step st o) = Some nw
                  /\ new_sentence (ideal_step st o) = ob_ends o
                  /\ sentence_starting_words (model_of (ideal_step st o))
                     = sentence_starting_words (model_of st)
                       ++ (if ob_starts o then [nw] else [])).
  { unfold ideal_step, nw. fold ws. destruct (extend ws (ob_text o)). auto. }
  destruct Hthis as (Hthis & Hnew & Hssw).
  constructor.
  - exact Hvoc3.
  - fold ws3. intros p w' Hp.
    unfold ws3 in Hp. rewrite ideal_step_words, ideal_words_lookup in Hp.
    fold ws ws0 nw in Hp.
    destruct (ws0 !! p) as [w0|] eqn:Hw0; [|discriminate].
    simpl in Hp. injection Hp as <-.
    apply (word_ok_step ws ws3 obs o nw _ _ w0); auto.
    + destruct (Hold p w0 Hw0) as [Hp|[Hn ->]]; [eauto|].
      apply word_ok_blank. rewrite <- Hvoc. assumption.
    + lia.
    + rewrite bool_decide_eq_true. split.
      * intros ->. rewrite Hwn in Hw0. congruence.
      * intros Heq. eapply same_string_same_index; eauto. congruence.
    + intros Hstarts. destruct (last obs) as [a|] eqn:Hlast.
      2: { apply last_None in Hlast. destruct (Hnonempty Hstarts Hlast). }
      destruct Hloop as (_ & t & Ht & Htlt & Httext).
      exists a. split; [reflexivity|].
      assert (Hw0t : exists wt, ws0 !! t = Some wt /\ string wt = ob_text a).
      { destruct (lookup_lt_is_Some_2 ws0 t) as [wt Hwt]; [unfold n_w in Htlt; fold ws in Htlt; lia|].
        exists wt. split; [assumption|].
        rewrite <- (text_at_lookup _ _ _ Hwt), Htext0; auto. }
      destruct Hw0t as (wt & Hwt & Hwttext).
      rewrite bool_decide_eq_true, Ht. split.
      * intros Heq. injection Heq as ->. congruence.
      * intros Heq. f_equal. eapply same_string_same_index; eauto. congruence.
  - fold ws3. rewrite Hssw, map_app, starters_snoc. split.
    + f_equal.
      * rewrite <- Hst. apply map_ext_in. intros q Hq. apply Htext3.
        rewrite Forall_forall in Hstlt. apply Hstlt, list_elem_of_In, Hq.
      * destruct (ob_starts o); simpl; [rewrite Hnwtext|]; reflexivity.
    + unfold n_w. fold ws3. apply Forall_app. split.
      * eapply Forall_impl; [exact Hstlt|]. simpl. unfold n_w. fold ws. intros; lia.
      * destruct (ob_starts o); [apply Forall_singleton; assumption|apply Forall_nil_2].
  - rewrite last_snoc. split; [assumption|].
    exists nw. unfold n_w. fold ws3. auto.
Qed.

(** ** One iteration, within the capacities *)

Lemma insert_as_alter {A : Type} (f : A -> A) (l : list A) i x :
  l !! i = Some x -> <[i := f x]> l = alter f i l.
Proof.
  intros H. apply list_eq. intros j. destruct (decide (i = j)) as [->|Hne].
  - rewrite list_lookup_alter_eq, H.
    apply list_lookup_insert_eq. eapply lookup_lt_Some; eauto.
  - rewrite list_lookup_insert_ne, list_lookup_alter_ne by assumption. reflexivity.
Qed.

Lemma count_occurrence_blank ends_sentence buf :
  count_occurrence ends_sentence (blank_word buf) =
  {| string := buf; n_occurrences := 1%Z; is_sentence_ender := ends_sentence;
     next_words := []; tested := fresh_tested |}.
Proof. destruct ends_sentence; reflexivity. Qed.

(** [add_next_word_to_model] computes the first stage of [ideal_step],
    unless [words] is full. *)
Lemma add_next_word_to_model_extend (model : Model) (buf : String.string)
  (ends_sentence new_sentence : bool) :
  let text := if new_sentence then decapitalize buf else buf in
  add_next_word_to_model model buf ends_sentence new_sentence =
  if decide (text ∈ map string (words model) \/ n_w model < MAX_WORDS_IN_MODEL)
  then Ret (set_words model
              (alter (count_occurrence ends_sentence)
                 (extend (words model) text).2 (extend (words model) text).1),
            (extend (words model) text).2)
  else Undef words_overflow.
Proof.
  intros text. unfold add_next_word_to_model, extend, search_words. fold text.
  destruct (search_from (words model) 0 text) as [i|] eqn:E.
  - destruct (search_from_Some _ _ _ _ E) as (j & w & -> & Hj & Hs).
    rewrite decide_True; [reflexivity|].
    left. rewrite <- Hs. eapply list_elem_of_lookup_2, lookup_map_string, Hj.
  - apply search_from_None in E. unfold create_word.
    destruct (n_w model <? MAX_WORDS_IN_MODEL) eqn:Elt.
    + apply Nat.ltb_lt in Elt. rewrite decide_True by auto. simpl.
      unfold n_w.
      rewrite <- (Nat.add_0_r (length (words model))) at 2.
      rewrite alter_app_r. simpl. rewrite count_occurrence_blank. reflexivity.
    + apply Nat.ltb_ge in Elt. rewrite decide_False; [reflexivity|].
      intros [H|H]; [contradiction|lia].
Qed.

Lemma reflects_n_w obs st :
  reflects obs st -> n_w (model_of st) = length (vocabulary obs).
Proof.
  intros [Hvoc _ _ _]. unfold n_w. rewrite <- Hvoc, length_map. reflexivity.
Qed.

Lemma reflects_n_ssw obs st :
  reflects obs st -> n_ssw (model_of st) = length (starters obs).
Proof.
  intros [_ _ [Hst _] _]. unfold n_ssw. rewrite <- Hst, length_map. reflexivity.
Qed.

Lemma reflects_n_nw obs st p w :
  reflects obs st -> words (model_of st) !! p = Some w ->
  n_nw w = length (successors (string w) obs).
Proof.
  intros [_ Hwords _ _] Hp. destruct (Hwords p w Hp) as (_ & _ & Hnext & _).
  unfold n_nw. rewrite <- Hnext, length_map. reflexivity.
Qed.

(** After at least one token, [this_word] points to the entry of the
    last one. *)
Lemma reflects_this_word obs st a :
  reflects obs st -> last obs = Some a ->
  exists t w, this_word st = Some t /\ words (model_of st) !! t = Some w /\
              string w = ob_text a.
Proof.
  intros [_ _ _ Hloop] Hlast. rewrite Hlast in Hloop.
  destruct Hloop as (_ & t & Ht & Hlt & Htext).
  destruct (lookup_lt_is_Some_2 _ _ Hlt) as [w Hw].
  exists t, w. split; [assumption|]. split; [assumption|].
  rewrite <- (text_at_lookup _ _ _ Hw). assumption.
Qed.

Lemma reflects_new_sentence obs st :
  reflects obs st -> new_sentence st = flag_after true obs.
Proof.
  intros [_ _ _ Hloop]. unfold flag_after.
  destruct (last obs); [apply Hloop|apply Hloop].
Qed.

Lemma observe_token_fields new_sentence token :
  ob_text (observe_token new_sentence token) =
    (if new_sentence then decapitalize (check_if_ends_sentence token).2
     else (check_if_ends_sentence token).2) /\
  ob_ends (observe_token new_sentence token) = (check_if_ends_sentence token).1 /\
  ob_starts (observe_token new_sentence token) = new_sentence.
Proof.
  unfold observe_token. destruct (check_if_ends_sentence token). auto.
Qed.

(** With room in the arrays, [scan_step] does what [ideal_step] does. *)
Lemma scan_step_ideal obs st token :
  reflects obs st ->
  room_for obs (observe_token (new_sentence st) token) ->
  scan_step st token = Ret (ideal_step st (observe_token (new_sentence st) token)).
Proof.
  intros Hr [Hroom1 Hroom2].
  pose proof (reflects_n_w _ _ Hr) as Hnw.
  pose proof (reflects_n_ssw _ _ Hr) as Hnssw.
  pose proof (reflects_new_sentence _ _ Hr) as Hflag.
  destruct (observe_token_fields (new_sentence st) token) as (Htext & Hends & Hstarts).
  unfold scan_step, ideal_step.
  rewrite Htext, Hends, Hstarts in *. clear Htext Hends Hstarts.
  destruct (check_if_ends_sentence token) as [ends_sentence buf]. simpl fst in *. simpl snd in *.
  rewrite add_next_word_to_model_extend.
  set (text := if new_sentence st then decapitalize buf else buf) in *.
  rewrite decide_True.
  2: { destruct Hroom1 as [H|H]; [left|right; lia].
       rewrite (reflects_vocabulary _ _ Hr). assumption. }
  destruct (extend (words (model_of st)) text) as [ws0 nw] eqn:Hext.
  cbn [mbind result_bind fst snd].
  destruct (new_sentence st) eqn:Ens.
  - unfold push_starting_word.
    replace (n_ssw _ <? MAX_STARTING_WORDS) with true
      by (symmetry; apply Nat.ltb_lt; unfold n_ssw in *; simpl; lia).
    cbn [mbind result_bind]. destruct ends_sentence; reflexivity.
  - destruct (last obs) as [a|] eqn:Hlast.
    2: { unfold flag_after in Hflag. rewrite Hlast in Hflag. discriminate. }
    destruct (reflects_this_word _ _ _ Hr Hlast) as (t & wt & Ht & Hwt & Hwttext).
    rewrite Ht. unfold link_words. cbn [words set_words].
    pose proof (extend_spec (words (model_of st)) text) as (_ & _ & _ & _ & Hold).
    rewrite Hext in Hold. simpl in Hold.
    assert (Hwt0 : ws0 !! t = Some wt).
    { unfold extend in Hext. destruct (search_from _ _ _); injection Hext as <- <-;
        [assumption|]. apply lookup_app_l_Some. assumption. }
    assert (Hn : forall w', n_nw w' = n_nw wt -> (n_nw w' <? MAX_FOLLOWING_WORDS) = true).
    { intros w' ->. apply Nat.ltb_lt.
      rewrite (reflects_n_nw _ _ _ _ Hr Hwt), Hwttext. apply Hroom2. reflexivity. }
    destruct (decide (nw = t)) as [->|Hne].
    + rewrite list_lookup_alter_eq, Hwt0. cbn [fmap option_fmap option_map].
      rewrite Hn by (unfold count_occurrence; destruct ends_sentence; reflexivity).
      cbn [mbind result_bind].
      rewrite (insert_as_alter (push_next_word t) _ t (count_occurrence ends_sentence wt))
        by (rewrite list_lookup_alter_eq, Hwt0; reflexivity).
      rewrite app_nil_r. destruct ends_sentence; reflexivity.
    + rewrite list_lookup_alter_ne, Hwt0 by assumption.
      rewrite Hn by reflexivity.
      cbn [mbind result_bind].
      rewrite (insert_as_alter (push_next_word nw) _ t wt)
        by (rewrite list_lookup_alter_ne, Hwt0 by assumption; reflexivity).
      rewrite app_nil_r. destruct ends_sentence; reflexivity.
Qed.

(** Without room, [scan_step] writes past the end of an array. *)
Lemma scan_step_overflow obs st token :
  reflects obs st ->
  ~ room_for obs (observe_token (new_sentence st) token) ->
  exists u, scan_step st token = Undef u /\ is_overflow u.
Proof.
  intros Hr Hroom.
  pose proof (reflects_n_w _ _ Hr) as Hnw.
  pose proof (reflects_n_ssw _ _ Hr) as Hnssw.
  pose proof (reflects_new_sentence _ _ Hr) as Hflag.
  destruct (observe_token_fields (new_sentence st) token) as (Htext & Hends & Hstarts).
  unfold room_for in Hroom. unfold scan_step, is_overflow.
  rewrite Htext, Hstarts in Hroom. clear Htext Hends Hstarts.
  destruct (check_if_ends_sentence token) as [ends_sentence buf].
  simpl fst in *. simpl snd in *.
  rewrite add_next_word_to_model_extend.
  set (text := if new_sentence st then decapitalize buf else buf) in *.
  rewrite (reflects_vocabulary _ _ Hr), Hnw.
  destruct (decide (text ∈ vocabulary obs
                    \/ length (vocabulary obs) < MAX_WORDS_IN_MODEL)) as [Hroom1|_];
    [|eexists; split; [reflexivity|auto]].
  assert (Hroom2 : ~ (if new_sentence st
                      then length (starters obs) < MAX_STARTING_WORDS
                      else forall a, last obs = Some a ->
                        length (successors (ob_text a) obs) < MAX_FOLLOWING_WORDS))
    by tauto.
  clear Hroom.
  destruct (extend (words (model_of st)) text) as [ws0 nw] eqn:Hext.
  cbn [mbind result_bind fst snd].
  destruct (new_sentence st) eqn:Ens.
  - unfold push_starting_word.
    replace (n_ssw _ <? MAX_STARTING_WORDS) with false
      by (symmetry; apply Nat.ltb_ge; unfold n_ssw in *; simpl; lia).
    eexists; split; [reflexivity|auto].
  - destruct (last obs) as [a|] eqn:Hlast.
    2: { unfold flag_after in Hflag. rewrite Hlast in Hflag. discriminate. }
    destruct (reflects_this_word _ _ _ Hr Hlast) as (t & wt & Ht & Hwt & Hwttext).
    rewrite Ht. unfold link_words. cbn [words set_words].
    assert (Hwt0 : ws0 !! t = Some wt).
    { unfold extend in Hext. destruct (search_from _ _ _); injection Hext as <- <-;
        [assumption|]. apply lookup_app_l_Some. assumption. }
    assert (Hn : forall w', n_nw w' = n_nw wt -> (n_nw w' <? MAX_FOLLOWING_WORDS) = false).
    { intros w' ->. apply Nat.ltb_ge.
      rewrite (reflects_n_nw _ _ _ _ Hr Hwt), Hwttext.
      apply Nat.nlt_ge. intros Hlt. apply Hroom2.
      intros a' Ha'. injection Ha' as <-. exact Hlt. }
    destruct (decide (nw = t)) as [->|Hne].
    + rewrite list_lookup_alter_eq, Hwt0. cbn [fmap option_fmap option_map].
      rewrite Hn by (unfold count_occurrence; destruct ends_sentence; reflexivity).
      eexists; split; [reflexivity|auto].
    + rewrite list_lookup_alter_ne, Hwt0 by assumption.
      rewrite Hn by reflexivity.
      eexists; split; [reflexivity|auto].
Qed.

(** ** The whole loop *)

Lemma scan_loop_snoc st pre token :
  scan_loop st (pre ++ [token]) = scan_loop st pre ≫= fun st' => scan_step st' token.
Proof.
  revert st. induction pre as [|t pre IH]; intros st; simpl.
  - destruct (scan_step st token); reflexivity.
  - destruct (scan_step st t); simpl; auto.
Qed.

Lemma observations_snoc pre token :
  observations (pre ++ [token]) =
  observations pre ++ [observe_token (flag_after true (observations pre)) token].
Proof. apply observe_snoc. Qed.

Lemma reflects_init : reflects [] scan_init.
Proof.
  constructor; simpl; auto.
  intros p w Hp. rewrite lookup_nil in Hp. discriminate.
Qed.

Lemma length_add_new l x :
  length (add_new l x) = length l + (if decide (x ∈ l) then 0 else 1).
Proof.
  unfold add_new. destruct (decide (x ∈ l)); [lia|].
  rewrite length_app. reflexivity.
Qed.

Lemma last_in_vocabulary obs a : last obs = Some a -> ob_text a ∈ vocabulary obs.
Proof.
  intros H. apply elem_of_vocabulary.
  apply last_Some in H. destruct H as [l ->].
  rewrite map_app. apply elem_of_app. right. apply list_elem_of_here.
Qed.

(** The text with one more token fits exactly when the text fits and
    there is room for the token. *)
Lemma within_capacity_snoc pre token :
  within_capacity (pre ++ [token]) <->
  within_capacity pre /\
  room_for (observations pre)
    (observe_token (flag_after true (observations pre)) token).
Proof.
  unfold within_capacity, room_for. cbv zeta. rewrite observations_snoc.
  set (obs := observations pre).
  set (o := observe_token (flag_after true obs) token).
  rewrite vocabulary_snoc, starters_snoc, length_add_new, length_app.
  rewrite !Forall_forall.
  assert (Hsucc : forall w, length (successors w (obs ++ [o])) =
            length (successors w obs) +
            match last obs with
            | Some a => if negb (ob_starts o) && String.eqb (ob_text a) w
                        then 1 else 0
            | None => 0
            end).
  { intros w. rewrite successors_snoc, length_app. f_equal.
    destruct (last obs); [|reflexivity]. destruct (_ && _); reflexivity. }
  split.
  - intros (Hv & Hs & Hf). repeat split.
    + destruct (decide (ob_text o ∈ vocabulary obs)); lia.
    + destruct (ob_starts o); simpl in Hs; lia.
    + intros w Hw. specialize (Hf w). rewrite Hsucc in Hf.
      assert (w ∈ add_new (vocabulary obs) (ob_text o))
        by (apply elem_of_add_new; auto).
      specialize (Hf H). lia.
    + destruct (decide (ob_text o ∈ vocabulary obs)); [auto|right; lia].
    + destruct (ob_starts o) eqn:Est; [simpl in Hs; lia|].
      intros a Ha. specialize (Hf (ob_text a)). rewrite Hsucc, Ha in Hf.
      simpl in Hf. rewrite String.eqb_refl in Hf.
      assert (ob_text a ∈ add_new (vocabulary obs) (ob_text o))
        by (apply elem_of_add_new; left; apply last_in_vocabulary; assumption).
      specialize (Hf H). lia.
  - intros ((Hv & Hs & Hf) & Hroom1 & Hroom2). repeat split.
    + destruct (decide (ob_text o ∈ vocabulary obs)); [lia|].
      destruct Hroom1; [contradiction|lia].
    + destruct (ob_starts o); simpl; lia.
    + intros w Hw. rewrite Hsucc.
      apply elem_of_add_new in Hw.
      assert (Hold : length (successors w obs) <= MAX_FOLLOWING_WORDS).
      { destruct (decide (w ∈ vocabulary obs)) as [Hin|Hn]; [auto|].
        rewrite successors_fresh by assumption. simpl. lia. }
      destruct (last obs) as [a|] eqn:Hlast; [|lia].
      destruct (ob_starts o); simpl; [lia|].
      destruct (String.eqb_spec (ob_text a) w) as [<-|_]; [|lia].
      specialize (Hroom2 a eq_refl). lia.
Qed.

(** The loop of [create_model] on a text that fits: it runs through and
    leaves the model of the observations. *)
Lemma scan_loop_reflects text :
  within_capacity text ->
  exists st, scan_loop scan_init text = Ret st /\ reflects (observations text) st.
Proof.
  induction text as [|token pre IH] using rev_ind; intros Hfit.
  - exists scan_init. split; [reflexivity|apply reflects_init].
  - apply within_capacity_snoc in Hfit. destruct Hfit as [Hpre Hroom].
    destruct (IH Hpre) as (st & Hst & Hr).
    rewrite <- (reflects_new_sentence _ _ Hr) in Hroom.
    exists (ideal_step st (observe_token (new_sentence st) token)). split.
    + rewrite scan_loop_snoc, Hst. simpl. eapply scan_step_ideal; eauto.
    + rewrite observations_snoc, <- (reflects_new_sentence _ _ Hr).
      apply ideal_step_reflects; [assumption|].
      intros Hstarts Hnil.
      destruct (observe_token_fields (new_sentence st) token) as (_ & _ & Hs).
      rewrite Hs in Hstarts.
      rewrite (reflects_new_sentence _ _ Hr), Hnil in Hstarts. discriminate.
Qed.

(** On a text that does not fit, the loop writes past an array. *)
Lemma scan_loop_overflows text :
  ~ within_capacity text ->
  exists u, scan_loop scan_init text = Undef u /\ is_overflow u.
Proof.
  induction text as [|token pre IH] using rev_ind; intros Hfit.
  - exfalso. apply Hfit. unfold within_capacity. simpl.
    repeat split; try apply Forall_nil_2; unfold MAX_WORDS_IN_MODEL, MAX_STARTING_WORDS; lia.
  - rewrite scan_loop_snoc.
    destruct (decide (within_capacity pre)) as [Hpre|Hpre].
    + destruct (scan_loop_reflects pre Hpre) as (st & Hst & Hr).
      rewrite Hst. simpl.
      apply (scan_step_overflow _ _ _ Hr).
      rewrite (reflects_new_sentence _ _ Hr).
      intros Hroom. apply Hfit. apply within_capacity_snoc. auto.
    + destruct (IH Hpre) as (u & Hu & Hov). rewrite Hu. exists u. auto.
Qed.

Lemma within_capacity_prefix pre suf :
  within_capacity (pre ++ suf) -> within_capacity pre.
Proof.
  induction suf as [|token suf IH] using rev_ind.
  - rewrite app_nil_r. auto.
  - rewrite app_assoc. intros H. apply within_capacity_snoc in H. tauto.
Qed.

Lemma within_capacity_nil : within_capacity [].
Proof.
  unfold within_capacity. simpl.
  repeat split; try apply Forall_nil_2;
    unfold MAX_WORDS_IN_MODEL, MAX_STARTING_WORDS; lia.
Qed.

Lemma reflects_wf_model obs st :
  reflects obs st ->
  Forall (fun w => n_nw w <= MAX_FOLLOWING_WORDS) (words (model_of st)) ->
  wf_model (model_of st).
Proof.
  intros [_ Hwords [_ Hst] _] Hcap. split; [|assumption].
  apply Forall_lookup. intros p w Hp.
  destruct (Hwords p w Hp) as (_ & _ & _ & Hlt & Htested).
  split; [assumption|].
  rewrite Htested. unfold fresh_tested. rewrite length_replicate.
  rewrite Forall_lookup in Hcap. eauto.
Qed.

(** The sizes of the arrays of a model that reflects a text that fits. *)
Lemma reflects_bounds text st :
  within_capacity text -> reflects (observations text) st ->
  n_w (model_of st) <= MAX_WORDS_IN_MODEL /\
  n_ssw (model_of st) <= MAX_STARTING_WORDS /\
  Forall (fun w => n_nw w <= MAX_FOLLOWING_WORDS) (words (model_of st)).
Proof.
  intros (Hv & Hs & Hf) Hr.
  rewrite (reflects_n_w _ _ Hr), (reflects_n_ssw _ _ Hr).
  split; [assumption|]. split; [assumption|].
  apply Forall_lookup. intros p w Hp.
  rewrite (reflects_n_nw _ _ _ _ Hr Hp).
  rewrite Forall_forall in Hf. apply Hf.
  rewrite <- (reflects_vocabulary _ _ Hr).
  eapply list_elem_of_lookup_2, lookup_map_string, Hp.
Qed.

(** C8.  The builder checks no capacity.  On a text with at most
    [MAX_WORDS_IN_MODEL] distinct words, [MAX_STARTING_WORDS] sentence
    starts and [MAX_FOLLOWING_WORDS] transitions out of any one word, the
    loop of [create_model] runs through every prefix of the text with
    [n_w], [n_ssw] and every [n_nw] within the bounds of their arrays; on
    any other text it writes past the end of one of the arrays. *)
Theorem create_model_stays_in_bounds text :
  (within_capacity text ->
   forall pre suf, text = pre ++ suf ->
     exists st, scan_loop scan_init pre = Ret st /\
       n_w (model_of st) <= MAX_WORDS_IN_MODEL /\
       n_ssw (model_of st) <= MAX_STARTING_WORDS /\
       Forall (fun w => n_nw w <= MAX_FOLLOWING_WORDS) (words (model_of st))) /\
  (~ within_capacity text ->
   exists u, scan_loop scan_init text = Undef u /\ is_overflow u).
Proof.
  split.
  - intros Hfit pre suf ->. apply within_capacity_prefix in Hfit.
    destruct (scan_loop_reflects pre Hfit) as (st & Hst & Hr).
    exists st. split; [assumption|]. eapply reflects_bounds; eauto.
  - apply scan_loop_overflows.
Qed.

Lemma create_model_stays_in_bounds_witness :
  (exists st, scan_loop scan_init ["The"; "cat"; "sat."] = Ret st /\
     n_w (model_of st) <= MAX_WORDS_IN_MODEL /\
     n_ssw (model_of st) <= MAX_STARTING_WORDS /\
     Forall (fun w => n_nw w <= MAX_FOLLOWING_WORDS) (words (model_of st))) /\
  (exists u, scan_loop scan_init (replicate 102 "a") = Undef u /\ is_overflow u).
Proof.
  split.
  - apply (proj1 (create_model_stays_in_bounds cat_dog)
             ltac:(apply (bool_decide_unpack _); vm_compute; reflexivity)
             ["The"; "cat"; "sat."] ["The"; "dog"; "ran."]).
    reflexivity.
  - apply (proj2 (create_model_stays_in_bounds (replicate 102 "a"))).
    apply (bool_decide_eq_false_1 (within_capacity (replicate 102 "a"))).
    vm_compute. reflexivity.
Defined.

(** ** Counting occurrences *)

Lemma sum_indicator_absent (x : String.string) l :
  x ∉ l -> sum_list_with (fun v => if String.eqb x v then 1 else 0) l = 0.
Proof.
  induction l as [|v l IH]; [reflexivity|]. intros Hn.
  apply not_elem_of_cons in Hn. destruct Hn as [Hne Hn]. simpl.
  destruct (String.eqb_spec x v); [contradiction|]. rewrite IH; auto.
Qed.

Lemma sum_indicator_present (x : String.string) l :
  NoDup l -> x ∈ l ->
  sum_list_with (fun v => if String.eqb x v then 1 else 0) l = 1.
Proof.
  induction l as [|v l IH]; intros Hnd Hin; [inversion Hin|].
  apply NoDup_cons in Hnd. destruct Hnd as [Hv Hnd]. simpl.
  destruct (String.eqb_spec x v) as [->|Hne].
  - rewrite sum_indicator_absent; auto.
  - apply elem_of_cons in Hin. destruct Hin as [Heq|Hin]; [contradiction|].
    rewrite IH; auto.
Qed.

Lemma sum_list_with_plus {A : Type} (f g : A -> nat) l :
  sum_list_with (fun v => f v + g v) l = sum_list_with f l + sum_list_with g l.
Proof. induction l as [|v l IH]; simpl; lia. Qed.

Lemma sum_list_with_pointwise {A : Type} (f g : A -> nat) l :
  (forall v, f v = g v) -> sum_list_with f l = sum_list_with g l.
Proof. intros H. induction l as [|v l IH]; simpl; [reflexivity|]. rewrite H, IH. reflexivity. Qed.

Lemma sum_occurrences obs l :
  NoDup l -> (forall o, o ∈ obs -> ob_text o ∈ l) ->
  sum_list_with (fun v => occurrences v obs) l = length obs.
Proof.
  intros Hnd. induction obs as [|o obs IH]; intros Hin.
  - unfold occurrences. simpl. clear. induction l; simpl; auto.
  - assert (Hocc : forall v, occurrences v (o :: obs) =
              (if String.eqb (ob_text o) v then 1 else 0) + occurrences v obs).
    { intros v. unfold occurrences. simpl.
      destruct (String.eqb (ob_text o) v); reflexivity. }
    rewrite (sum_list_with_pointwise _ _ l Hocc).
    rewrite sum_list_with_plus, IH, sum_indicator_present; auto.
    + apply Hin, list_elem_of_here.
    + intros o' Ho'. apply Hin, list_elem_of_further, Ho'.
Qed.

Lemma total_occurrences_sum obs ws :
  Forall (fun w => n_occurrences w = Z.of_nat (occurrences (string w) obs)) ws ->
  total_occurrences ws
  = Z.of_nat (sum_list_with (fun v => occurrences v obs) (map string ws)).
Proof.
  induction 1 as [|w ws Hw _ IH]; [reflexivity|].
  change (total_occurrences (w :: ws))
    with (n_occurrences w + total_occurrences ws)%Z.
  rewrite IH, Hw. simpl. lia.
Qed.

Lemma total_occurrences_reflects obs st :
  reflects obs st ->
  total_occurrences (words (model_of st)) = Z.of_nat (length obs).
Proof.
  intros Hr.
  rewrite (total_occurrences_sum obs).
  - rewrite (reflects_vocabulary _ _ Hr). f_equal.
    apply sum_occurrences; [apply NoDup_vocabulary|].
    intros o Ho. apply elem_of_vocabulary.
    apply list_elem_of_In, in_map, list_elem_of_In, Ho.
  - apply Forall_lookup. intros p w Hp. apply (reflects_words _ _ Hr p w Hp).
Qed.

Lemma observations_nil text : observations text = [] -> text = [].
Proof. destruct text; [reflexivity|discriminate]. Qed.

Lemma vocabulary_nil obs : vocabulary obs = [] -> obs = [].
Proof.
  destruct obs as [|o obs]; [reflexivity|]. intros H.
  assert (Hin : ob_text o ∈ vocabulary (o :: obs)).
  { apply elem_of_vocabulary. simpl. apply list_elem_of_here. }
  rewrite H in Hin. inversion Hin.
Qed.

Lemma starters_first text token :
  exists l, starters (observations (token :: text)) = ob_text (observe_token true token) :: l.
Proof.
  unfold observations, starters. simpl.
  destruct (observe_token_fields true token) as (_ & _ & ->). simpl. eauto.
Qed.

(** [create_model] on a non-empty text that fits returns the model that
    the loop built, and that model reflects the whole text. *)
Lemma create_model_reflects text :
  text <> [] -> within_capacity text ->
  exists st, create_model text = Ret (model_of st) /\
             reflects (observations text) st.
Proof.
  intros Hne Hfit. destruct (scan_loop_reflects text Hfit) as (st & Hst & Hr).
  exists st. split; [|assumption].
  unfold create_model. rewrite Hst. simpl.
  destruct (n_w (model_of st) =? 0) eqn:E; [|reflexivity].
  apply Nat.eqb_eq in E. rewrite (reflects_n_w _ _ Hr) in E.
  apply length_zero_iff_nil, vocabulary_nil, observations_nil in E. contradiction.
Qed.

(** A returned model comes from a non-empty text that fits. *)
Lemma create_model_Ret text model :
  create_model text = Ret model -> text <> [] /\ within_capacity text.
Proof.
  intros H. split.
  - intros ->. discriminate.
  - destruct (decide (within_capacity text)) as [Hfit|Hfit]; [assumption|].
    destruct (scan_loop_overflows text Hfit) as (u & Hu & _).
    unfold create_model in H. rewrite Hu in H. discriminate.
Qed.

Lemma length_observe new_sentence text :
  length (observe new_sentence text) = length text.
Proof.
  revert new_sentence. induction text as [|token text IH]; intros b; simpl; auto.
Qed.

(** ** The counters stay within the range of [int]

    [n_w], [n_ssw] and [n_nw] are bounded by the capacities of their
    arrays.  [n_occurrences] is modelled without wrap-around: a model
    that [create_model] returns was built from at most
    [MAX_STARTING_WORDS + MAX_WORDS_IN_MODEL * MAX_FOLLOWING_WORDS]
    tokens, so no counter in it comes near [INT_MAX]. *)

Lemma sum_lengths_by_key {A : Type} (key : A -> String.string) (xs : list A) l :
  NoDup l -> (forall x, x ∈ xs -> key x ∈ l) ->
  sum_list_with
    (fun v => length (List.filter (fun x => String.eqb (key x) v) xs)) l
  = length xs.
Proof.
  intros Hnd. induction xs as [|x xs IH]; intros Hin.
  - simpl. clear. induction l; simpl; auto.
  - rewrite (sum_list_with_pointwise _
               (fun v => (if String.eqb (key x) v then 1 else 0)
                         + length (List.filter (fun x => String.eqb (key x) v) xs))).
    + rewrite sum_list_with_plus, IH, sum_indicator_present; auto.
      * apply Hin, list_elem_of_here.
      * intros x' Hx'. apply Hin, list_elem_of_further, Hx'.
    + intros v. simpl. destruct (String.eqb (key x) v); reflexivity.
Qed.

Lemma sum_list_with_bound {A : Type} (f : A -> nat) l M :
  Forall (fun v => f v <= M) l -> sum_list_with f l <= length l * M.
Proof. induction 1 as [|v l Hv _ IH]; simpl; lia. Qed.

Lemma length_transitions_vocabulary obs :
  sum_list_with (fun v => length (successors v obs)) (vocabulary obs)
  = length (transitions obs).
Proof.
  rewrite <- (sum_lengths_by_key fst (transitions obs) (vocabulary obs)).
  - apply sum_list_with_pointwise. intros v. unfold successors.
    rewrite length_map. reflexivity.
  - apply NoDup_vocabulary.
  - intros [a b] Hab. apply elem_of_vocabulary. eapply transitions_from; eauto.
Qed.

(** Every token is a sentence start or the target of a transition. *)
Lemma length_observations text :
  length text
  = length (starters (observations text)) + length (transitions (observations text)).
Proof.
  induction text as [|token text IH] using rev_ind; [reflexivity|].
  rewrite observations_snoc, starters_snoc, transitions_snoc, !length_app, IH.
  destruct (observe_token_fields (flag_after true (observations text)) token)
    as (_ & _ & ->).
  unfold flag_after.
  destruct (last (observations text)) as [a|] eqn:Hlast.
  - destruct (ob_ends a); simpl; lia.
  - apply last_None in Hlast. rewrite Hlast. simpl. lia.
Qed.

Lemma within_capacity_length text :
  within_capacity text ->
  length text <= MAX_STARTING_WORDS + MAX_WORDS_IN_MODEL * MAX_FOLLOWING_WORDS.
Proof.
  intros (Hv & Hs & Hf).
  rewrite length_observations, <- length_transitions_vocabulary.
  pose proof (sum_list_with_bound _ _ _ Hf) as Hsum.
  assert (length (vocabulary (observations text)) * MAX_FOLLOWING_WORDS
          <= MAX_WORDS_IN_MODEL * MAX_FOLLOWING_WORDS)
    by (apply Nat.mul_le_mono_r; assumption).
  lia.
Qed.

Lemma n_occurrences_fit_int text model :
  create_model text = Ret model ->
  Forall (fun w => (0 <= n_occurrences w < INT_MAX)%Z) (words model).
Proof.
  intros H. destruct (create_model_Ret _ _ H) as [Hne Hfit].
  destruct (create_model_reflects text Hne Hfit) as (st & Hst & Hr).
  rewrite H in Hst. injection Hst as ->.
  apply Forall_lookup. intros p w Hw.
  destruct (reflects_words _ _ Hr p w Hw) as (-> & _).
  pose proof (within_capacity_length text Hfit) as Hlen.
  assert (Hocc : occurrences (string w) (observations text) <= length text).
  { unfold occurrences, observations.
    rewrite <- (length_observe true text). apply List.filter_length_le. }
  split; [lia|].
  apply Z.le_lt_trans with
    (Z.of_nat MAX_STARTING_WORDS
     + Z.of_nat MAX_WORDS_IN_MODEL * Z.of_nat MAX_FOLLOWING_WORDS)%Z.
  - rewrite <- Nat2Z.inj_mul, <- Nat2Z.inj_add. apply Nat2Z.inj_le. lia.
  - vm_compute. reflexivity.
Qed.

(** ** Claims about the builder *)

(** C5 (as amended).  [create_model] takes the "no words found" exit
    exactly on the empty token stream.  On every non-empty token stream
    that fits the fixed-size arrays it returns a model, and that model is
    complete: it is well formed and records every token of the text. *)
Theorem create_model_empty_or_complete text :
  (create_model text = Exit1 <-> text = []) /\
  (text <> [] -> within_capacity text ->
   exists st, create_model text = Ret (model_of st) /\
     reflects (observations text) st /\ wf_model (model_of st)).
Proof.
  split.
  - split; [|intros ->; reflexivity].
    intros H. destruct text as [|token text]; [reflexivity|]. exfalso.
    destruct (decide (within_capacity (token :: text))) as [Hfit|Hfit].
    + destruct (create_model_reflects (token :: text)) as (st & Hst & _);
        [discriminate|assumption|]. congruence.
    + destruct (scan_loop_overflows _ Hfit) as (u & Hu & _).
      unfold create_model in H. rewrite Hu in H. discriminate.
  - intros Hne Hfit.
    destruct (create_model_reflects text Hne Hfit) as (st & Hst & Hr).
    exists st. split; [assumption|]. split; [assumption|].
    apply (reflects_wf_model _ _ Hr).
    apply (reflects_bounds text st Hfit Hr).
Qed.

Lemma create_model_empty_or_complete_witness :
  exists st, create_model cat_dog = Ret (model_of st) /\
    reflects (observations cat_dog) st /\ wf_model (model_of st).
Proof.
  apply (proj2 (create_model_empty_or_complete cat_dog)).
  - discriminate.
  - apply (bool_decide_unpack _). vm_compute. reflexivity.
Defined.

(** C5, the claim as stated fails: a text of 102 tokens "a" yields
    tokens, yet [create_model] neither reports an empty corpus nor
    returns a model; the 101st link out of "a" is written past the end
    of its [next_words] array. *)
Lemma create_model_overflows_next_words :
  replicate 102 "a" <> [] /\
  create_model (replicate 102 "a") = Undef next_words_overflow.
Proof. split; [discriminate|]. vm_compute. reflexivity. Qed.

(** C6.  The model built from a text with at least one token has a
    sentence-starting word, and its [n_occurrences] add up to the number
    of tokens of the text; such a model is built whenever the text fits
    the arrays. *)
Theorem create_model_counts text :
  text <> [] ->
  (forall model, create_model text = Ret model ->
     sentence_starting_words model <> [] /\
     total_occurrences (words model) = Z.of_nat (length text)) /\
  (within_capacity text -> exists model, create_model text = Ret model).
Proof.
  intros Hne. split.
  - intros model H.
    destruct (create_model_Ret _ _ H) as [_ Hfit].
    destruct (create_model_reflects text Hne Hfit) as (st & Hst & Hr).
    rewrite H in Hst. injection Hst as ->. split.
    + destruct text as [|token text]; [contradiction|].
      destruct (starters_first text token) as [l Hl].
      destruct (reflects_starters _ _ Hr) as [Hmap _]. rewrite Hl in Hmap.
      intros Hnil. rewrite Hnil in Hmap. discriminate.
    + rewrite (total_occurrences_reflects _ _ Hr).
      unfold observations. rewrite length_observe. reflexivity.
  - intros Hfit.
    destruct (create_model_reflects text Hne Hfit) as (st & Hst & _). eauto.
Qed.

Lemma create_model_counts_witness :
  sentence_starting_words (model_of_text cat_dog) <> [] /\
  total_occurrences (words (model_of_text cat_dog)) = 6%Z.
Proof.
  apply (proj1 (create_model_counts cat_dog ltac:(discriminate))
           (model_of_text cat_dog)).
  vm_compute. reflexivity.
Defined.

Lemma observe_app new_sentence l1 l2 :
  observe new_sentence (l1 ++ l2) =
  observe new_sentence l1
  ++ observe (flag_after new_sentence (observe new_sentence l1)) l2.
Proof.
  revert new_sentence. induction l1 as [|t l1 IH]; intros b; [reflexivity|].
  simpl. rewrite IH. f_equal. f_equal.
  unfold flag_after. rewrite last_cons. destruct (last (observe _ l1)); reflexivity.
Qed.

Lemma observe_token_terminator new_sentence c :
  ends_clause c = true ->
  observe_token new_sentence (String c EmptyString) =
  {| ob_text := EmptyString; ob_ends := true; ob_starts := new_sentence |}.
Proof.
  intros Hc. unfold observe_token. simpl. rewrite Hc.
  destruct new_sentence; reflexivity.
Qed.

Lemma vocabulary_app obs1 obs2 :
  exists l, vocabulary (obs1 ++ obs2) = vocabulary obs1 ++ l.
Proof.
  induction obs2 as [|o obs2 [l IH]] using rev_ind.
  - exists []. rewrite !app_nil_r. reflexivity.
  - rewrite app_assoc, vocabulary_snoc, IH. unfold add_new.
    destruct (decide (ob_text o ∈ vocabulary obs1 ++ l)).
    + exists l. reflexivity.
    + exists (l ++ [ob_text o]). rewrite app_assoc. reflexivity.
Qed.

(** What [add_next_word_to_model] does with the empty buffer that is left
    of a token consisting of one clause-ending character. *)
Lemma add_next_word_to_model_empty model new_sentence :
  is_Some (search_words model EmptyString) \/ n_w model < MAX_WORDS_IN_MODEL ->
  exists model' p w,
    add_next_word_to_model model EmptyString true new_sentence = Ret (model', p) /\
    p = match search_words model EmptyString with
        | Some match_ => match_
        | None => n_w model
        end /\
    words model' !! p = Some w /\
    string w = EmptyString /\
    is_sentence_ender w = true.
Proof.
  intros Hroom. unfold add_next_word_to_model.
  replace (if new_sentence then decapitalize EmptyString else EmptyString)
    with EmptyString by (destruct new_sentence; reflexivity).
  destruct (search_words model EmptyString) as [i|] eqn:E.
  - destruct (search_words_Some _ _ _ E) as (w0 & Hw0 & Hs).
    eexists. exists i. eexists. split; [reflexivity|]. split; [reflexivity|].
    simpl. rewrite list_lookup_alter_eq, Hw0. simpl.
    split; [reflexivity|]. split; [exact Hs|reflexivity].
  - destruct Hroom as [[x Hx]|Hlt]; [discriminate|].
    unfold create_word. apply Nat.ltb_lt in Hlt. rewrite Hlt.
    eexists. exists (n_w model). eexists. split; [reflexivity|].
    split; [reflexivity|]. simpl. unfold n_w.
    rewrite lookup_app_r, Nat.sub_diag by lia. simpl.
    split; [reflexivity|]. split; reflexivity.
Qed.

(** C10.  A token that is just one of the characters . ? ! ; is stripped
    to the empty string.  [add_next_word_to_model] then re-matches the
    entry whose [string] is empty if [search_words] finds one, and
    registers a new one at the end of [words] otherwise; either way the
    entry is marked as a sentence ender.  In the finished model that
    entry still has the empty [string] and the mark, so a search that has
    it in the last cell of [sentence] succeeds. *)
Theorem terminator_token_registers_empty_word pre c suf :
  ends_clause c = true ->
  within_capacity (pre ++ String c EmptyString :: suf) ->
  check_if_ends_sentence (String c EmptyString) = (true, EmptyString) /\
  exists st model' model p w' w,
    scan_loop scan_init pre = Ret st /\
    add_next_word_to_model (model_of st) EmptyString true (new_sentence st)
      = Ret (model', p) /\
    p = match search_words (model_of st) EmptyString with
        | Some match_ => match_
        | None => n_w (model_of st)
        end /\
    words model' !! p = Some w' /\
    string w' = EmptyString /\
    is_sentence_ender w' = true /\
    create_model (pre ++ String c EmptyString :: suf) = Ret model /\
    words model !! p = Some w /\
    string w = EmptyString /\
    is_sentence_ender w = true /\
    forall rand fuel N s,
      the_model s = model -> 1 <= N -> sentence s !! (N - 1) = Some p ->
      find_words_recursive rand (S fuel) N (N - 1) s = Ret (true, s).
Proof.
  intros Hc Hfit. split; [simpl; rewrite Hc; reflexivity|].
  set (token := String c EmptyString) in *.
  assert (Hne : pre ++ token :: suf <> []) by (destruct pre; discriminate).
  destruct (create_model_reflects _ Hne Hfit) as (st & Hst & Hr).
  assert (Hfit1 : within_capacity (pre ++ [token])).
  { apply (within_capacity_prefix _ suf). rewrite <- app_assoc. exact Hfit. }
  apply within_capacity_snoc in Hfit1. destruct Hfit1 as [Hpre [Hroom _]].
  destruct (scan_loop_reflects pre Hpre) as (st0 & Hst0 & Hr0).
  set (obs0 := observations pre) in *.
  set (o := {| ob_text := EmptyString; ob_ends := true;
               ob_starts := flag_after true obs0 |}).
  unfold token in Hroom. rewrite (observe_token_terminator _ c Hc) in Hroom.
  simpl ob_text in Hroom.
  destruct (add_next_word_to_model_empty (model_of st0) (new_sentence st0))
    as (model' & p & w' & Hadd & Hp & Hw' & Hstr' & Hend').
  { rewrite (reflects_n_w _ _ Hr0). destruct Hroom as [Hin|Hlt]; [left|right; exact Hlt].
    rewrite <- (reflects_vocabulary _ _ Hr0) in Hin.
    destruct (search_words (model_of st0) EmptyString) eqn:E; [eauto|].
    apply search_from_None in E. contradiction. }
  assert (Hobs : exists rest, observations (pre ++ token :: suf) = (obs0 ++ [o]) ++ rest).
  { unfold observations. change (pre ++ token :: suf) with (pre ++ [token] ++ suf).
    rewrite app_assoc, observe_app, observe_snoc.
    unfold token. rewrite (observe_token_terminator _ c Hc). eauto. }
  destruct Hobs as [rest Hobs].
  assert (Hpext : p = (extend (words (model_of st0)) EmptyString).2).
  { rewrite Hp. unfold extend, search_words, n_w.
    destruct (search_from _ _ _); reflexivity. }
  assert (Hp1 : vocabulary (obs0 ++ [o]) !! p = Some EmptyString).
  { destruct (extend_spec (words (model_of st0)) EmptyString)
      as (Hstr & (w0 & Hw0 & Hw0s) & _).
    rewrite vocabulary_snoc, <- (reflects_vocabulary _ _ Hr0). simpl ob_text.
    rewrite <- Hstr, Hpext.
    pose proof (lookup_map_string _ _ _ Hw0) as H. rewrite Hw0s in H. exact H. }
  assert (Hpm : map string (words (model_of st)) !! p = Some EmptyString).
  { rewrite (reflects_vocabulary _ _ Hr), Hobs.
    destruct (vocabulary_app (obs0 ++ [o]) rest) as [l ->].
    apply lookup_app_l_Some. exact Hp1. }
  change (map string ?l) with (string <$> l) in Hpm.
  rewrite list_lookup_fmap in Hpm.
  destruct (words (model_of st) !! p) as [w|] eqn:Hw; [|discriminate].
  assert (Hstr : string w = EmptyString) by (cbn in Hpm; congruence).
  assert (Hend : is_sentence_ender w = true).
  { destruct (reflects_words _ _ Hr p w Hw) as (_ & -> & _).
    unfold ends_somewhere. apply existsb_exists.
    exists o. split.
    - apply list_elem_of_In. rewrite Hobs.
      apply elem_of_app. left. apply elem_of_app. right. apply list_elem_of_here.
    - simpl. rewrite Hstr. reflexivity. }
  exists st0, model', (model_of st), p, w', w.
  repeat (split; [assumption|]).
  intros rand fuel N s Hm HN Hcell.
  rewrite find_words_recursive_S.
  replace (N - 1 + 1) with N by lia. rewrite Nat.eqb_refl, Hcell.
  cbn [deref mbind result_bind]. rewrite Hm, Hw.
  cbn [deref mbind result_bind]. rewrite Hend. reflexivity.
Qed.

Lemma terminator_token_registers_empty_word_witness :
  exists st model' model p w' w,
    scan_loop scan_init ["Stop"] = Ret st /\
    add_next_word_to_model (model_of st) EmptyString true (new_sentence st)
      = Ret (model', p) /\
    p = match search_words (model_of st) EmptyString with
        | Some match_ => match_
        | None => n_w (model_of st)
        end /\
    words model' !! p = Some w' /\
    string w' = EmptyString /\
    is_sentence_ender w' = true /\
    create_model ["Stop"; "."] = Ret model /\
    words model !! p = Some w /\
    string w = EmptyString /\
    is_sentence_ender w = true /\
    forall rand fuel N s,
      the_model s = model -> 1 <= N -> sentence s !! (N - 1) = Some p ->
      find_words_recursive rand (S fuel) N (N - 1) s = Ret (true, s).
Proof.
  apply (terminator_token_registers_empty_word ["Stop"] "." []).
  - reflexivity.
  - apply (bool_decide_unpack _). vm_compute. reflexivity.
Defined.

(** * The formatter *)

Lemma append_nil_l (s : String.string) : EmptyString +:+ s = s.
Proof. reflexivity. Qed.

Lemma append_cons c (s t : String.string) : String c s +:+ t = String c (s +:+ t).
Proof. reflexivity. Qed.

Lemma append_assoc (s t u : String.string) : (s +:+ t) +:+ u = s +:+ t +:+ u.
Proof.
  induction s as [|c s IH]; [reflexivity|].
  rewrite !append_cons, IH. reflexivity.
Qed.

Lemma concat_cons_cons sep (x y : String.string) l :
  String.concat sep (x :: y :: l) = x +:+ sep +:+ String.concat sep (y :: l).
Proof. reflexivity. Qed.

(** The loop of [combine_words] appends the words, separated by single
    spaces, and a period. *)
Lemma combine_loop_concat ws N i sentence_string :
  ws <> [] -> i + length ws = N ->
  combine_loop ws N i sentence_string =
  sentence_string +:+ String.concat " " (map string ws) +:+ ".".
Proof.
  revert i sentence_string. induction ws as [|w ws IH]; intros i acc Hne Hlen;
    [contradiction|].
  destruct ws as [|w' ws].
  - simpl in *. replace (i =? N - 1) with true by (symmetry; apply Nat.eqb_eq; lia).
    rewrite append_assoc. reflexivity.
  - change (combine_loop (w :: w' :: ws) N i acc)
      with (combine_loop (w' :: ws) N (S i)
              (if i =? N - 1 then (acc +:+ string w) +:+ "."
               else (acc +:+ string w) +:+ " ")).
    replace (i =? N - 1) with false
      by (symmetry; apply Nat.eqb_neq; simpl in Hlen; lia).
    rewrite IH by (try discriminate; simpl in *; lia).
    change (map string (w :: w' :: ws)) with (string w :: map string (w' :: ws)).
    change (map string (w' :: ws)) with (string w' :: map string ws).
    rewrite concat_cons_cons, !append_assoc. reflexivity.
Qed.

Lemma combine_words_concat ws N :
  length ws = N -> 1 <= N ->
  combine_words ws N = capitalize (String.concat " " (map string ws) +:+ ".").
Proof.
  intros Hlen HN. unfold combine_words.
  rewrite firstn_all2 by lia.
  rewrite combine_loop_concat; [reflexivity| |lia].
  destruct ws; [simpl in Hlen; lia|discriminate].
Qed.

(** ** Characters *)

Lemma isupper_toupper c : isalpha c = true -> isupper (toupper c) = true.
Proof. destruct c as [[] [] [] [] [] [] [] []]; vm_compute; congruence. Qed.

Lemma isspace_toupper c : isspace (toupper c) = isspace c.
Proof. destruct c as [[] [] [] [] [] [] [] []]; reflexivity. Qed.

Lemma period_toupper c : (toupper c =? ".")%char = (c =? ".")%char.
Proof. destruct c as [[] [] [] [] [] [] [] []]; reflexivity. Qed.

(** ** Counting tokens *)

Lemma count_tokens_plain in_token (s rest : String.string) :
  plain s ->
  count_tokens_from in_token (s +:+ rest) =
  (if in_token then 0 else 1) + count_tokens_from true rest.
Proof.
  intros [Hne Hns]. revert in_token.
  induction s as [|c s IH]; intros in_token; [contradiction|].
  simpl in Hns. apply andb_true_iff in Hns. destruct Hns as [Hc Hs].
  apply negb_true_iff in Hc.
  rewrite append_cons. simpl. rewrite Hc.
  destruct s as [|d s].
  - rewrite append_nil_l. reflexivity.
  - rewrite (IH ltac:(discriminate) Hs true). lia.
Qed.

Lemma count_tokens_sentence texts :
  texts <> [] -> Forall plain texts ->
  count_tokens_from false (String.concat " " texts +:+ ".") = length texts.
Proof.
  induction texts as [|t texts IH]; intros Hne Hall; [contradiction|].
  apply Forall_cons in Hall. destruct Hall as [Ht Hall].
  destruct texts as [|t' texts].
  - simpl String.concat. rewrite (count_tokens_plain false t "." Ht). reflexivity.
  - rewrite concat_cons_cons, !append_assoc.
    rewrite (count_tokens_plain false t _ Ht).
    rewrite append_cons, append_nil_l.
    change (count_tokens_from true (String " " ?x)) with (count_tokens_from false x).
    rewrite IH by (try discriminate; assumption). reflexivity.
Qed.

Lemma count_tokens_capitalize s : count_tokens (capitalize s) = count_tokens s.
Proof.
  destruct s as [|c s]; [reflexivity|].
  unfold count_tokens. simpl. rewrite isspace_toupper. reflexivity.
Qed.

(** ** The final period *)

Lemma append_not_empty (s : String.string) c : s +:+ String c EmptyString <> EmptyString.
Proof. destruct s; discriminate. Qed.

Lemma ends_with_one_period_snoc s :
  ends_with_one_period (s +:+ ".") = negb (ends_with_period s).
Proof.
  induction s as [|c s IH]; [reflexivity|].
  destruct s as [|d s].
  - simpl. rewrite andb_true_r. reflexivity.
  - rewrite append_cons.
    change (ends_with_period (String c (String d s)))
      with (ends_with_period (String d s)).
    rewrite <- IH. rewrite append_cons.
    destruct (s +:+ ".") eqn:E; [|reflexivity].
    destruct (append_not_empty s "." E).
Qed.

Lemma ends_with_period_append (s t : String.string) :
  t <> EmptyString -> ends_with_period (s +:+ t) = ends_with_period t.
Proof.
  intros Ht. induction s as [|c s IH]; [reflexivity|].
  rewrite append_cons. simpl.
  destruct (s +:+ t) eqn:E; [|assumption].
  destruct s; [simpl in E; contradiction|discriminate].
Qed.

Lemma ends_with_period_concat texts t :
  last texts = Some t -> t <> EmptyString ->
  ends_with_period (String.concat " " texts) = ends_with_period t.
Proof.
  induction texts as [|x texts IH]; intros Hlast Ht; [discriminate|].
  destruct texts as [|y texts].
  - simpl in *. congruence.
  - rewrite concat_cons_cons, <- append_assoc.
    rewrite last_cons_cons in Hlast.
    assert (Hc : String.concat " " (y :: texts) <> EmptyString).
    { intros Hc. specialize (IH Hlast Ht). rewrite Hc in IH.
      destruct t; [contradiction|]. clear - IH Hlast Hc.
      revert y Hlast Hc. induction texts as [|z texts IHt]; intros y Hlast Hc.
      - simpl in *. congruence.
      - rewrite concat_cons_cons in Hc. destruct y; discriminate. }
    rewrite ends_with_period_append by assumption. auto.
Qed.

Lemma ends_with_one_period_capitalize s :
  ends_with_one_period (capitalize s) = ends_with_one_period s.
Proof.
  destruct s as [|c [|d [|e s]]]; simpl; rewrite ?period_toupper; reflexivity.
Qed.

(** ** Claim about the formatter *)

(** C7 (as amended).  For [N >= 1] words whose texts are not empty and
    contain no white space, the first text starting with a letter and the
    last one not ending in a period, [combine_words] yields the texts
    joined by single spaces and followed by a period, with the first
    character in upper case: a string that starts with an upper-case
    letter, ends with exactly one period and has exactly [N]
    whitespace-separated tokens. *)
Theorem combine_words_shape ws N :
  length ws = N -> 1 <= N ->
  Forall (fun w => plain (string w)) ws ->
  (exists w, head ws = Some w /\ starts_with_letter (string w) = true) ->
  (exists w, last ws = Some w /\ ends_with_period (string w) = false) ->
  combine_words ws N = capitalize (String.concat " " (map string ws) +:+ ".") /\
  starts_uppercase (combine_words ws N) = true /\
  ends_with_one_period (combine_words ws N) = true /\
  count_tokens (combine_words ws N) = N.
Proof.
  intros Hlen HN Hplain (w1 & Hhead & Hletter) (wn & Hlast & Hperiod).
  rewrite combine_words_concat by assumption.
  split; [reflexivity|]. split; [|split].
  - destruct ws as [|w ws]; [discriminate|]. injection Hhead as ->.
    destruct (string w1) as [|c r] eqn:Hs; [discriminate|]. simpl in Hletter.
    change (map string (w1 :: ws)) with (string w1 :: map string ws).
    rewrite Hs. destruct (map string ws); simpl; apply isupper_toupper; assumption.
  - rewrite ends_with_one_period_capitalize, ends_with_one_period_snoc.
    rewrite (ends_with_period_concat _ (string wn)).
    + rewrite Hperiod. reflexivity.
    + change (map string ws) with (string <$> ws). rewrite fmap_last, Hlast.
      reflexivity.
    + rewrite Forall_forall in Hplain. apply Hplain.
      apply last_Some_elem_of. assumption.
  - rewrite count_tokens_capitalize. unfold count_tokens.
    rewrite count_tokens_sentence.
    + rewrite length_map. assumption.
    + destruct ws; [simpl in Hlen; lia|discriminate].
    + change (map string ws) with (string <$> ws). apply Forall_fmap.
      exact Hplain.
Qed.

Lemma combine_words_shape_witness :
  combine_words (take 3 (words (model_of_text cat_dog))) 3 = "The cat sat." /\
  starts_uppercase (combine_words (take 3 (words (model_of_text cat_dog))) 3) = true /\
  ends_with_one_period (combine_words (take 3 (words (model_of_text cat_dog))) 3) = true /\
  count_tokens (combine_words (take 3 (words (model_of_text cat_dog))) 3) = 3.
Proof.
  apply (combine_words_shape (take 3 (words (model_of_text cat_dog))) 3).
  - reflexivity.
  - lia.
  - vm_compute. repeat constructor; discriminate.
  - eexists. split; vm_compute; reflexivity.
  - eexists. split; vm_compute; reflexivity.
Defined.

(** C7, the claim as stated fails: the one-word sequence of the entry
    that the builder creates for the token "." has the empty text, and
    [combine_words] turns it into ".", whose first character is not an
    upper-case letter; this is the sentence that [generate_sentence]
    returns for the text "." and [N = 1].  Likewise the token "Wait..."
    leaves the text "wait..", which is formatted as "Wait...", a string
    that ends with three periods. *)
Lemma combine_words_of_empty_word :
  (exists w s',
     words (model_of_text ["."]) !! 0 = Some w /\
     generate_sentence counting 10 1 (start_state (model_of_text ["."]) 1)
       = Ret (Some (combine_words [w] 1), s') /\
     combine_words [w] 1 = "." /\
     starts_uppercase (combine_words [w] 1) = false) /\
  (exists w s',
     words (model_of_text ["Wait..."]) !! 0 = Some w /\
     generate_sentence counting 10 1 (start_state (model_of_text ["Wait..."]) 1)
       = Ret (Some (combine_words [w] 1), s') /\
     combine_words [w] 1 = "Wait..." /\
     ends_with_one_period (combine_words [w] 1) = false).
Proof.
  split.
  - eexists. eexists. split; [vm_compute; reflexivity|].
    split; [vm_compute; reflexivity|]. split; reflexivity.
  - eexists. eexists. split; [vm_compute; reflexivity|].
    split; [vm_compute; reflexivity|]. split; reflexivity.
Qed.

(** * Further properties of the code *)

(** ** The helpers of the builder *)

(** X1.  [check_if_ends_sentence] looks at the last character only: a
    clause-ending one is cut off (one character, whatever stands before
    it), any other leaves the buffer as it is. *)
Theorem check_if_ends_sentence_last_char front c :
  check_if_ends_sentence (front +:+ String c EmptyString) =
  if ends_clause c then (true, front)
  else (false, front +:+ String c EmptyString).
Proof.
  induction front as [|d front IH].
  - simpl. destruct (ends_clause c); reflexivity.
  - rewrite append_cons.
    change (check_if_ends_sentence (String d (front +:+ String c EmptyString)))
      with (match front +:+ String c EmptyString with
            | EmptyString =>
                if ends_clause d then (true, EmptyString)
                else (false, String d EmptyString)
            | String _ _ =>
                let (ends_sentence, rest') :=
                  check_if_ends_sentence (front +:+ String c EmptyString) in
                (ends_sentence, String d rest')
            end).
    destruct (front +:+ String c EmptyString) eqn:E.
    + destruct (append_not_empty front c E).
    + rewrite IH. destruct (ends_clause c); reflexivity.
Qed.

Lemma search_from_first ws i buf k :
  search_from ws i buf = Some k ->
  forall j w, i + j < k -> ws !! j = Some w -> string w <> buf.
Proof.
  revert i. induction ws as [|w0 ws IH]; intros i H j w Hj Hw; [discriminate|].
  simpl in H. destruct (String.eqb_spec (string w0) buf) as [Heq|Hne].
  - injection H as <-. lia.
  - destruct j as [|j]; simpl in Hw.
    + injection Hw as <-. assumption.
    + apply (IH (S i) H j w); [lia|assumption].
Qed.

(** X2.  [search_words] returns the first entry whose [string] is the buffer,
    and NULL exactly when there is none. *)
Theorem search_words_first_match model buf :
  match search_words model buf with
  | Some i =>
      (exists w, words model !! i = Some w /\ string w = buf) /\
      (forall j w, j < i -> words model !! j = Some w -> string w <> buf)
  | None => forall j w, words model !! j = Some w -> string w <> buf
  end.
Proof.
  destruct (search_words model buf) as [i|] eqn:E.
  - split; [apply search_words_Some; assumption|].
    intros j w Hj Hw. unfold search_words in E.
    eapply (search_from_first _ 0); eauto.
  - unfold search_words in E. apply search_from_None in E.
    intros j w Hw Heq. apply E. rewrite <- Heq.
    eapply list_elem_of_lookup_2, lookup_map_string, Hw.
Qed.

Lemma search_from_same_strings ws ws' i buf :
  map string ws = map string ws' ->
  search_from ws i buf = search_from ws' i buf.
Proof.
  revert ws' i. induction ws as [|w ws IH]; intros [|w' ws'] i H;
    try discriminate; [reflexivity|].
  simpl in H. injection H as Hw Hws. simpl. rewrite Hw.
  destruct (String.eqb (string w') buf); auto.
Qed.

Lemma search_from_app_absent ws ws' i buf :
  buf ∉ map string ws ->
  search_from (ws ++ ws') i buf = search_from ws' (i + length ws) buf.
Proof.
  revert i. induction ws as [|w ws IH]; intros i Hn; simpl.
  - rewrite Nat.add_0_r. reflexivity.
  - simpl in Hn. apply not_elem_of_cons in Hn. destruct Hn as [Hne Hn].
    destruct (String.eqb_spec (string w) buf) as [Heq|_]; [congruence|].
    rewrite IH by assumption. f_equal. lia.
Qed.

(** X3.  After [add_next_word_to_model] has returned an entry, [search_words]
    finds that same entry for the (normalised) word; the array has grown
    by at most one entry, and the texts and links of the entries that
    were there, and the sentence starters, are as before. *)
Theorem add_next_word_then_search model buf ends_sentence new_sentence model' p :
  add_next_word_to_model model buf ends_sentence new_sentence = Ret (model', p) ->
  search_words model' (if new_sentence then decapitalize buf else buf) = Some p /\
  n_w model <= n_w model' <= n_w model + 1 /\
  (forall j w, words model !! j = Some w ->
     exists w', words model' !! j = Some w' /\
       string w' = string w /\ next_words w' = next_words w) /\
  sentence_starting_words model' = sentence_starting_words model.
Proof.
  unfold add_next_word_to_model, search_words.
  set (text := if new_sentence then decapitalize buf else buf).
  destruct (search_from (words model) 0 text) as [i|] eqn:E.
  - intros H. injection H as <- <-. simpl.
    split; [|split; [|split; [|reflexivity]]].
    + rewrite <- E. apply search_from_same_strings.
      apply map_string_alter. intros w. destruct ends_sentence; reflexivity.
    + unfold n_w. simpl. rewrite length_alter. lia.
    + intros j w Hw. destruct (decide (i = j)) as [->|Hne].
      * rewrite list_lookup_alter_eq, Hw. simpl. eexists. split; [reflexivity|].
        destruct ends_sentence; auto.
      * rewrite list_lookup_alter_ne by assumption. eauto.
  - unfold create_word. destruct (n_w model <? MAX_WORDS_IN_MODEL); [|discriminate].
    intros H. injection H as <- <-. simpl.
    apply search_from_None in E.
    split; [|split; [|split; [|reflexivity]]].
    + rewrite search_from_app_absent by assumption. simpl.
      rewrite String.eqb_refl. reflexivity.
    + unfold n_w. simpl. rewrite length_app. simpl. lia.
    + intros j w Hw. exists w. split; [|auto]. apply lookup_app_l_Some. assumption.
Qed.

Lemma add_next_word_then_search_witness :
  search_words
    (set_words (model_of_text cat_dog)
       (alter (count_occurrence false) 3 (words (model_of_text cat_dog))))
    "dog" = Some 3.
Proof.
  apply (add_next_word_then_search (model_of_text cat_dog) "Dog" false true
           (set_words (model_of_text cat_dog)
              (alter (count_occurrence false) 3 (words (model_of_text cat_dog))))
           3).
  vm_compute. reflexivity.
Defined.

(** ** The model that [create_model] builds *)

Lemma create_model_Ret_reflects text model :
  create_model text = Ret model ->
  exists st, model = model_of st /\ reflects (observations text) st /\
             wf_model model.
Proof.
  intros H. destruct (create_model_Ret _ _ H) as [Hne Hcap].
  destruct (create_model_reflects text Hne Hcap) as (st & Hst & Hr).
  rewrite H in Hst. injection Hst as ->.
  exists st. split; [reflexivity|]. split; [assumption|].
  apply (reflects_wf_model _ _ Hr).
  apply (reflects_bounds text st Hcap Hr).
Qed.

(** X4.  No two entries of a built model hold the same text, so that
    [search_words] on the text of an entry finds that entry. *)
Theorem create_model_lookup_round_trip text model :
  create_model text = Ret model ->
  NoDup (map string (words model)) /\
  forall p w, words model !! p = Some w -> search_words model (string w) = Some p.
Proof.
  intros H. destruct (create_model_Ret_reflects _ _ H) as (st & -> & Hr & _).
  assert (Hnd : NoDup (map string (words (model_of st))))
    by (rewrite (reflects_vocabulary _ _ Hr); apply NoDup_vocabulary).
  split; [assumption|].
  intros p w Hw.
  destruct (search_words (model_of st) (string w)) as [q|] eqn:E.
  - destruct (search_words_Some _ _ _ E) as (w' & Hw' & Heq).
    f_equal. eapply same_string_same_index; eauto.
  - unfold search_words in E. apply search_from_None in E.
    destruct E. eapply list_elem_of_lookup_2, lookup_map_string, Hw.
Qed.

Lemma create_model_lookup_round_trip_witness :
  NoDup (map string (words (model_of_text cat_dog))) /\
  forall p w, words (model_of_text cat_dog) !! p = Some w ->
    search_words (model_of_text cat_dog) (string w) = Some p.
Proof.
  apply (create_model_lookup_round_trip cat_dog). vm_compute. reflexivity.
Defined.

Lemma transitions_lookup obs x y :
  (x, y) ∈ transitions obs <->
  exists k o1 o2, obs !! k = Some o1 /\ obs !! S k = Some o2 /\
    ob_starts o2 = false /\ x = ob_text o1 /\ y = ob_text o2.
Proof.
  induction obs as [|a rest IH].
  - simpl. split.
    + intros H. inversion H.
    + intros (k & o1 & o2 & H & _). discriminate.
  - destruct rest as [|b rest'].
    + simpl. split.
      * intros H. inversion H.
      * intros (k & o1 & o2 & _ & H & _). discriminate.
    + change (transitions (a :: b :: rest'))
        with ((if ob_starts b then [] else [(ob_text a, ob_text b)])
              ++ transitions (b :: rest')).
      rewrite elem_of_app, IH. split.
      * intros [H|(k & o1 & o2 & H1 & H2 & H3)].
        -- destruct (ob_starts b) eqn:Eb; [inversion H|].
           apply list_elem_of_singleton in H. injection H as -> ->.
           exists 0, a, b. auto.
        -- exists (S k), o1, o2. auto.
      * intros (k & o1 & o2 & H1 & H2 & H3 & -> & ->).
        destruct k as [|k].
        -- left. simpl in H1, H2. injection H1 as <-. injection H2 as <-.
           rewrite H3. apply list_elem_of_singleton. reflexivity.
        -- right. exists k, o1, o2. auto.
Qed.

Lemma observe_starts new_sentence text k o1 o2 :
  observe new_sentence text !! k = Some o1 ->
  observe new_sentence text !! S k = Some o2 ->
  ob_starts o2 = ob_ends o1.
Proof.
  revert new_sentence k. induction text as [|token rest IH]; intros b k H1 H2;
    [discriminate|].
  simpl in H1, H2. destruct k as [|k].
  - simpl in H1. injection H1 as <-.
    destruct rest as [|token' rest']; [discriminate|].
    simpl in H2. injection H2 as <-.
    unfold observe_token at 1. destruct (check_if_ends_sentence token'). reflexivity.
  - eapply IH; eauto.
Qed.

Lemma elem_of_successors w obs y :
  y ∈ successors w obs <-> (w, y) ∈ transitions obs.
Proof.
  unfold successors. rewrite list_elem_of_In, in_map_iff. split.
  - intros ([x y'] & <- & Hin). apply filter_In in Hin. destruct Hin as [Hin Heq].
    simpl in Heq. apply String.eqb_eq in Heq. subst x.
    apply list_elem_of_In. assumption.
  - intros H. exists (w, y). split; [reflexivity|].
    apply filter_In. split; [apply list_elem_of_In; assumption|].
    simpl. apply String.eqb_refl.
Qed.

(** X5.  Word [b] is recorded as a follower of word [a] exactly when, somewhere
    in the text, an occurrence of [a] that does not end a sentence is
    directly followed by an occurrence of [b]: every pair inside a
    sentence is linked, and no link crosses the end of a sentence. *)
Theorem create_model_links text model :
  create_model text = Ret model ->
  forall a b wa wb,
    words model !! a = Some wa -> words model !! b = Some wb ->
    (follows model a b <->
     exists k o1 o2,
       observations text !! k = Some o1 /\ observations text !! S k = Some o2 /\
       ob_ends o1 = false /\ ob_text o1 = string wa /\ ob_text o2 = string wb).
Proof.
  intros H a b wa wb Ha Hb.
  destruct (create_model_Ret_reflects _ _ H) as (st & -> & Hr & _).
  assert (Hnd : NoDup (map string (words (model_of st))))
    by (rewrite (reflects_vocabulary _ _ Hr); apply NoDup_vocabulary).
  destruct (reflects_words _ _ Hr a wa Ha) as (_ & _ & Hsucc & Hbound & _).
  assert (Hiff : b ∈ next_words wa <->
                 (string wa, string wb) ∈ transitions (observations text)).
  { rewrite <- elem_of_successors, <- Hsucc. split.
    - intros Hin. rewrite <- (text_at_lookup _ _ _ Hb).
      apply list_elem_of_In, in_map, list_elem_of_In, Hin.
    - intros Hin. apply list_elem_of_In, in_map_iff in Hin.
      destruct Hin as (q & Hq & Hin). apply list_elem_of_In in Hin.
      rewrite Forall_forall in Hbound. specialize (Hbound q Hin).
      destruct (lookup_lt_is_Some_2 _ _ Hbound) as [wq Hwq].
      rewrite (text_at_lookup _ _ _ Hwq) in Hq.
      rewrite <- (same_string_same_index _ _ _ _ _ Hnd Hwq Hb Hq). assumption. }
  split.
  - intros (w & Hw & Hin). rewrite Ha in Hw. injection Hw as <-.
    apply Hiff, transitions_lookup in Hin.
    destruct Hin as (k & o1 & o2 & H1 & H2 & H3 & E1 & E2).
    exists k, o1, o2. rewrite <- (observe_starts _ _ _ _ _ H1 H2). auto.
  - intros (k & o1 & o2 & H1 & H2 & H3 & E1 & E2).
    exists wa. split; [assumption|]. apply Hiff, transitions_lookup.
    exists k, o1, o2. rewrite (observe_starts _ _ _ _ _ H1 H2). auto.
Qed.

Lemma create_model_links_witness :
  follows (model_of_text cat_dog) 0 1 <->
  exists k o1 o2,
    observations cat_dog !! k = Some o1 /\ observations cat_dog !! S k = Some o2 /\
    ob_ends o1 = false /\ ob_text o1 = "the" /\ ob_text o2 = "cat".
Proof.
  apply (create_model_links cat_dog (model_of_text cat_dog)
           ltac:(vm_compute; reflexivity) 0 1
           (mkWord "the" 2 false [1; 3] fresh_tested)
           (mkWord "cat" 1 false [2] fresh_tested));
    vm_compute; reflexivity.
Defined.

Lemma occurrences_positive obs x : x ∈ map ob_text obs -> 1 <= occurrences x obs.
Proof.
  unfold occurrences. induction obs as [|o obs IH]; intros H; [inversion H|].
  simpl in H. simpl. apply elem_of_cons in H.
  destruct (String.eqb_spec (ob_text o) x) as [_|Hne]; [simpl; lia|].
  destruct H as [H|H]; [congruence|]. auto.
Qed.

(** X6.  Each entry's counter is the number of tokens read as its word; it is
    at least 1 and stays below [INT_MAX], so that [n_occurrences++]
    never overflows. The entry is flagged as a sentence ender exactly
    when one of those tokens carried clause-ending punctuation. *)
Theorem create_model_word_entries text model :
  create_model text = Ret model ->
  forall p w, words model !! p = Some w ->
    n_occurrences w = Z.of_nat (occurrences (string w) (observations text)) /\
    (1 <= n_occurrences w < INT_MAX)%Z /\
    (is_sentence_ender w = true <->
     exists k o, observations text !! k = Some o /\
                 ob_text o = string w /\ ob_ends o = true).
Proof.
  intros H p w Hw.
  pose proof (n_occurrences_fit_int _ _ H) as Hfit.
  destruct (create_model_Ret_reflects _ _ H) as (st & -> & Hr & _).
  destruct (reflects_words _ _ Hr p w Hw) as (Hocc & Hend & _).
  split; [assumption|]. split.
  - rewrite Forall_lookup in Hfit. specialize (Hfit p w Hw). simpl in Hfit.
    split; [|lia]. rewrite Hocc.
    assert (1 <= occurrences (string w) (observations text)); [|lia].
    apply occurrences_positive, elem_of_vocabulary.
    rewrite <- (reflects_vocabulary _ _ Hr).
    eapply list_elem_of_lookup_2, lookup_map_string, Hw.
  - rewrite Hend. unfold ends_somewhere. rewrite existsb_exists. split.
    + intros (o & Hin & Ho). apply andb_true_iff in Ho. destruct Ho as [Ho1 Ho2].
      apply String.eqb_eq in Ho1.
      apply list_elem_of_In, list_elem_of_lookup_1 in Hin. destruct Hin as [k Hk].
      exists k, o. auto.
    + intros (k & o & Hk & Ho1 & Ho2). exists o. split.
      * eapply list_elem_of_In, list_elem_of_lookup_2, Hk.
      * rewrite Ho2, Ho1, String.eqb_refl. reflexivity.
Qed.

Lemma create_model_word_entries_witness :
  n_occurrences (mkWord "the" 2 false [1; 3] fresh_tested)
  = Z.of_nat (occurrences "the" (observations cat_dog)).
Proof.
  apply (create_model_word_entries cat_dog (model_of_text cat_dog)
           ltac:(vm_compute; reflexivity) 0
           (mkWord "the" 2 false [1; 3] fresh_tested)).
  vm_compute. reflexivity.
Defined.

Lemma isupper_tolower c : isupper (tolower c) = false.
Proof.
  destruct c as [[] [] [] [] [] [] [] []]; reflexivity.
Qed.

Lemma starts_uppercase_decapitalize buf :
  starts_uppercase (decapitalize buf) = false.
Proof.
  destruct buf as [|c rest]; [reflexivity|]. simpl. apply isupper_tolower.
Qed.

Lemma observe_lookup_starts new_sentence text k o :
  observe new_sentence text !! k = Some o -> ob_starts o = true ->
  starts_uppercase (ob_text o) = false.
Proof.
  revert new_sentence k. induction text as [|token rest IH]; intros b k H Hs;
    [discriminate|].
  destruct k as [|k]; simpl in H.
  - injection H as <-. unfold observe_token in *.
    destruct (check_if_ends_sentence token) as [e buf]. simpl in *. subst b.
    apply starts_uppercase_decapitalize.
  - eapply IH; eauto.
Qed.

(** The number of tokens of [text] that start a sentence when the first
    one does so iff [new_sentence]: each token after one with
    clause-ending punctuation. *)
Lemma length_starters_observe new_sentence text :
  length (starters (observe new_sentence text)) =
  match text with
  | [] => 0
  | _ :: _ =>
      (if new_sentence then 1 else 0)
      + length (List.filter (fun token => (check_if_ends_sentence token).1)
                  (removelast text))
  end.
Proof.
  revert new_sentence. induction text as [|token rest IH]; intros b; [reflexivity|].
  unfold starters in *. simpl observe. 
  assert (Hs : ob_starts (observe_token b token) = b)
    by (unfold observe_token; destruct (check_if_ends_sentence token); reflexivity).
  assert (He : ob_ends (observe_token b token) = (check_if_ends_sentence token).1)
    by (unfold observe_token; destruct (check_if_ends_sentence token); reflexivity).
  simpl List.filter. rewrite Hs, He.
  assert (Hlen : length (map ob_text
                   (if b then observe_token b token
                              :: List.filter ob_starts
                                   (observe (check_if_ends_sentence token).1 rest)
                    else List.filter ob_starts
                           (observe (check_if_ends_sentence token).1 rest)))
                 = (if b then 1 else 0)
                   + length (map ob_text (List.filter ob_starts
                       (observe (check_if_ends_sentence token).1 rest))))
    by (destruct b; reflexivity).
  rewrite Hlen, IH. destruct rest as [|token' rest']; [reflexivity|].
  change (removelast (token :: token' :: rest'))
    with (token :: removelast (token' :: rest')).
  simpl List.filter. destruct ((check_if_ends_sentence token).1); simpl; lia.
Qed.

Lemma head_fold_add_new l acc x :
  head acc = Some x -> head (fold_left add_new l acc) = Some x.
Proof.
  revert acc. induction l as [|y l IH]; intros acc H; [assumption|].
  simpl. apply IH. unfold add_new. destruct (decide (y ∈ acc)); [assumption|].
  destruct acc; [discriminate|assumption].
Qed.

Lemma head_vocabulary o obs : head (vocabulary (o :: obs)) = Some (ob_text o).
Proof.
  unfold vocabulary. simpl. apply head_fold_add_new.
  unfold add_new. destruct (decide (ob_text o ∈ [])); [|reflexivity].
  apply elem_of_nil in e. destruct e.
Qed.

(** X7.  The first sentence starter is the first entry of the model, no
    sentence starter begins with a capital letter ([tolower] has been
    applied to it), and there is one starter for the first token and one
    for each token that directly follows a token with clause-ending
    punctuation. *)
Theorem create_model_sentence_starters text model :
  create_model text = Ret model ->
  head (sentence_starting_words model) = Some 0 /\
  (forall p, p ∈ sentence_starting_words model ->
     starts_uppercase (text_at (words model) p) = false) /\
  n_ssw model =
    1 + length (List.filter (fun token => (check_if_ends_sentence token).1)
                  (removelast text)).
Proof.
  intros H. destruct (create_model_Ret _ _ H) as [Hne _].
  destruct (create_model_Ret_reflects _ _ H) as (st & -> & Hr & _).
  destruct (reflects_starters _ _ Hr) as [Hst Hbound].
  assert (Hnd : NoDup (map string (words (model_of st))))
    by (rewrite (reflects_vocabulary _ _ Hr); apply NoDup_vocabulary).
  split; [|split].
  - destruct text as [|token rest]; [congruence|].
    destruct (starters_first rest token) as [l Hfirst].
    pose proof (head_vocabulary (observe_token true token)
                  (observe (ob_ends (observe_token true token)) rest)) as Hvfirst.
    change (observe_token true token
            :: observe (ob_ends (observe_token true token)) rest)
      with (observations (token :: rest)) in Hvfirst.
    rewrite <- (reflects_vocabulary _ _ Hr) in Hvfirst.
    rewrite <- Hst in Hfirst.
    destruct (sentence_starting_words (model_of st)) as [|p ssw] eqn:Essw;
      [discriminate|].
    simpl. f_equal.
    apply Forall_cons in Hbound. destruct Hbound as [Hp _].
    destruct (lookup_lt_is_Some_2 _ _ Hp) as [wp Hwp].
    simpl in Hfirst. injection Hfirst as Hfirst _.
    rewrite (text_at_lookup _ _ _ Hwp) in Hfirst.
    destruct (words (model_of st)) as [|w0 ws] eqn:Ews; [discriminate|].
    simpl in Hvfirst. injection Hvfirst as Hvfirst.
    eapply (same_string_same_index (w0 :: ws) p 0 wp w0); eauto.
    congruence.
  - intros p Hp.
    assert (Hin : text_at (words (model_of st)) p ∈ starters (observations text)).
    { rewrite <- Hst. apply list_elem_of_In, in_map, list_elem_of_In, Hp. }
    unfold starters in Hin. apply list_elem_of_In, in_map_iff in Hin.
    destruct Hin as (o & <- & Hin). apply filter_In in Hin. destruct Hin as [Hin Hs].
    apply list_elem_of_In, list_elem_of_lookup_1 in Hin. destruct Hin as [k Hk].
    eapply observe_lookup_starts; eauto.
  - rewrite (reflects_n_ssw _ _ Hr). unfold observations.
    rewrite length_starters_observe. destruct text; [congruence|reflexivity].
Qed.

Lemma create_model_sentence_starters_witness :
  head (sentence_starting_words (model_of_text cat_dog)) = Some 0 /\
  (forall p, p ∈ sentence_starting_words (model_of_text cat_dog) ->
     starts_uppercase (text_at (words (model_of_text cat_dog)) p) = false) /\
  n_ssw (model_of_text cat_dog) =
    1 + length (List.filter (fun token => (check_if_ends_sentence token).1)
                  (removelast cat_dog)).
Proof.
  apply (create_model_sentence_starters cat_dog). vm_compute. reflexivity.
Defined.

Lemma sum_list_with_map {A B : Type} (f : B -> nat) (g : A -> B) l :
  sum_list_with f (map g l) = sum_list_with (fun x => f (g x)) l.
Proof. induction l as [|x l IH]; simpl; congruence. Qed.

Lemma sum_list_with_lookup {A : Type} (f g : A -> nat) l :
  (forall p x, l !! p = Some x -> f x = g x) ->
  sum_list_with f l = sum_list_with g l.
Proof.
  induction l as [|x l IH]; intros H; [reflexivity|]. simpl.
  rewrite (H 0 x eq_refl), IH; [reflexivity|].
  intros p y Hy. apply (H (S p) y Hy).
Qed.

(** X8.  The counters of a built model balance: every token read was counted
    once in some entry's [n_occurrences], and was either appended to the
    sentence starters or linked as a follower of the word before it. *)
Theorem create_model_counters_balance text model :
  create_model text = Ret model ->
  total_occurrences (words model) =
    Z.of_nat (n_ssw model + sum_list_with n_nw (words model)) /\
  n_ssw model + sum_list_with n_nw (words model) = length text.
Proof.
  intros H. destruct (create_model_Ret_reflects _ _ H) as (st & -> & Hr & _).
  assert (Hsum : n_ssw (model_of st) + sum_list_with n_nw (words (model_of st))
                 = length text).
  { rewrite (reflects_n_ssw _ _ Hr), (length_observations text). f_equal.
    rewrite <- length_transitions_vocabulary, <- (reflects_vocabulary _ _ Hr).
    rewrite sum_list_with_map. apply sum_list_with_lookup.
    intros p w Hw. apply (reflects_n_nw _ _ _ _ Hr Hw). }
  split; [|assumption].
  rewrite Hsum, (total_occurrences_reflects _ _ Hr).
  unfold observations. rewrite length_observe. reflexivity.
Qed.

Lemma create_model_counters_balance_witness :
  total_occurrences (words (model_of_text cat_dog)) =
    Z.of_nat (n_ssw (model_of_text cat_dog)
              + sum_list_with n_nw (words (model_of_text cat_dog))) /\
  n_ssw (model_of_text cat_dog)
  + sum_list_with n_nw (words (model_of_text cat_dog)) = length cat_dog.
Proof.
  apply (create_model_counters_balance cat_dog). vm_compute. reflexivity.
Defined.

(** ** The search stays inside its arrays *)

Lemma no_fault_cases {A : Type} (r : result A) :
  no_fault r <-> r = Timeout \/ exists a, r = Ret a.
Proof.
  destruct r; simpl; split; try tauto; eauto.
  - intros [H|[a H]]; discriminate.
  - intros [H|[a H]]; discriminate.
Qed.

Lemma search_inv_store_tested N s p t :
  (forall w, words (the_model s) !! p = Some w -> length t = length (tested w)) ->
  search_inv N s -> search_inv N (store_tested s p t).
Proof.
  intros H. apply (search_inv_frame N 0). apply store_tested_frame. assumption.
Qed.

Lemma n_w_store_tested s p t : n_w (the_model (store_tested s p t)) = n_w (the_model s).
Proof. unfold store_tested, n_w. simpl. apply length_alter. Qed.

Lemma search_inv_next_call s :
  forall N, search_inv N s ->
  search_inv N {| the_model := the_model s; sentence := sentence s;
                  rand_calls := S (rand_calls s) |}.
Proof. intros N H. exact H. Qed.

Section SearchSafety.

Variable rand : nat -> nat.

Lemma recursive_no_fault N fuel :
  (forall i s, search_inv N s -> i < N ->
     (exists p, sentence s !! i = Some p /\ p < n_w (the_model s)) ->
     no_fault (find_words_recursive rand fuel N i s)) /\
  (forall i this_word s, search_inv N s -> i + 1 < N ->
     this_word < n_w (the_model s) ->
     no_fault (next_words_loop rand fuel N i this_word s)).
Proof.
  induction fuel as [|fuel [IHr IHl]]; [split; intros; exact I|].
  split.
  - intros i s Hinv Hi (p & Hp & Hlt).
    rewrite find_words_recursive_S.
    destruct (lookup_lt_is_Some_2 _ _ Hlt) as [w Hw].
    destruct (N =? i + 1) eqn:EN.
    + apply Nat.eqb_eq in EN. replace (N - 1) with i by lia.
      rewrite Hp. cbn [deref mbind result_bind]. rewrite Hw. exact I.
    + apply Nat.eqb_neq in EN.
      rewrite Hp. cbn [deref mbind result_bind]. rewrite Hw.
      cbn [deref mbind result_bind].
      apply IHl.
      * apply search_inv_store_tested; [|assumption].
        intros w' Hw'. rewrite Hw in Hw'. injection Hw' as <-.
        apply length_clear_checked.
      * lia.
      * rewrite n_w_store_tested. assumption.
  - intros i this_word s Hinv Hi Hlt.
    rewrite next_words_loop_S.
    destruct (lookup_lt_is_Some_2 _ _ Hlt) as [w Hw].
    rewrite Hw. cbn [deref mbind result_bind].
    destruct (not_all_checked (tested w) (n_nw w)) eqn:EC; [|exact I].
    apply not_all_checked_true in EC. destruct EC as (k & Hk & _).
    destruct (random_int_nonempty rand (n_nw w) s) as (v & Hv & Hmod); [lia|].
    rewrite Hv. cbn [deref mbind result_bind].
    assert (Hidx : Z.to_nat v < n_nw w)
      by (rewrite Hmod; apply Nat.mod_upper_bound; lia).
    destruct (wf_model_tested _ _ _ _ (proj1 Hinv) Hw Hidx) as [b Hb].
    rewrite Hb. cbn [deref mbind result_bind].
    set (s1 := {| the_model := the_model s; sentence := sentence s;
                  rand_calls := S (rand_calls s) |}).
    destruct b; cbn [negb].
    + apply IHl; assumption.
    + destruct (lookup_lt_is_Some_2 (next_words w) _ Hidx) as [next_word Hnw].
      rewrite Hnw. cbn [deref mbind result_bind].
      set (s1' := store_tested s1 this_word (<[Z.to_nat v := true]> (tested w))).
      assert (Hinv1 : search_inv N s1').
      { apply search_inv_store_tested; [|exact Hinv].
        intros w' Hw'. change (the_model s1) with (the_model s) in Hw'.
        rewrite Hw in Hw'. injection Hw' as <-. apply length_insert. }
      unfold store_sentence.
      assert (Hlen : (i + 1 <? length (sentence s1')) = true).
      { apply Nat.ltb_lt. rewrite (proj2 Hinv1). assumption. }
      rewrite Hlen. cbn [deref mbind result_bind].
      set (s2 := with_sentence s1' (<[i + 1 := next_word]> (sentence s1'))).
      assert (Hinv2 : search_inv N s2).
      { split; [exact (proj1 Hinv1)|]. simpl. rewrite length_insert.
        exact (proj2 Hinv1). }
      assert (Hcell : exists p, sentence s2 !! (i + 1) = Some p
                                /\ p < n_w (the_model s2)).
      { exists next_word. split.
        - simpl. apply list_lookup_insert_eq. rewrite (proj2 Hinv). assumption.
        - change (the_model s2) with (the_model s1'). unfold s1'.
          rewrite n_w_store_tested.
          eapply wf_model_next_word; [exact (proj1 Hinv)|exact Hw|exact Hnw]. }
      pose proof (IHr (i + 1) s2 Hinv2 Hi Hcell) as Hnf.
      destruct (find_words_recursive rand fuel N (i + 1) s2)
        as [[found s3]| | |] eqn:ER; try exact Hnf.
      cbn [mbind result_bind]. destruct found; [exact I|].
      apply (proj1 (recursive_returns rand fuel)) in ER.
      apply (proj1 (returns_frame rand N)) in ER. simpl in ER.
      apply IHl; [eapply search_inv_frame; eauto|lia|].
      rewrite (same_fields_n_w _ _ (proj1 ER)).
      change (the_model s2) with (the_model s1'). unfold s1'.
      rewrite n_w_store_tested. assumption.
Qed.

Lemma starting_words_no_fault N fuel :
  1 <= N ->
  forall ssw_checked s, search_inv N s ->
    n_ssw (the_model s) <= length ssw_checked ->
    no_fault (starting_words_loop rand fuel N ssw_checked s).
Proof.
  intros HN. induction fuel as [|fuel IH]; intros ssw_checked s Hinv Hlen;
    [exact I|].
  rewrite starting_words_loop_S.
  destruct (not_all_checked ssw_checked (n_ssw (the_model s))) eqn:EC; [|exact I].
  apply not_all_checked_true in EC. destruct EC as (k & Hk & _).
  destruct (random_int_nonempty rand (n_ssw (the_model s)) s) as (v & Hv & Hmod);
    [lia|].
  rewrite Hv. cbn [deref mbind result_bind].
  assert (Hidx : Z.to_nat v < n_ssw (the_model s))
    by (rewrite Hmod; apply Nat.mod_upper_bound; lia).
  destruct (lookup_lt_is_Some_2 ssw_checked (Z.to_nat v)) as [b Hb]; [lia|].
  rewrite Hb. cbn [deref mbind result_bind].
  set (s1 := {| the_model := the_model s; sentence := sentence s;
                rand_calls := S (rand_calls s) |}).
  destruct b; cbn [negb].
  - apply IH; assumption.
  - destruct (lookup_lt_is_Some_2 (sentence_starting_words (the_model s)) _ Hidx)
      as [p Hp].
    rewrite Hp. cbn [deref mbind result_bind].
    unfold store_sentence.
    assert (Hl : (0 <? length (sentence s1)) = true).
    { apply Nat.ltb_lt. change (sentence s1) with (sentence s).
      rewrite (proj2 Hinv). lia. }
    rewrite Hl. cbn [deref mbind result_bind].
    set (s2 := with_sentence s1 (<[0 := p]> (sentence s1))).
    assert (Hinv2 : search_inv N s2).
    { split; [exact (proj1 Hinv)|]. simpl. rewrite length_insert.
      exact (proj2 Hinv). }
    assert (Hcell : exists q, sentence s2 !! 0 = Some q /\ q < n_w (the_model s2)).
    { exists p. split.
      - simpl. apply list_lookup_insert_eq. rewrite (proj2 Hinv). lia.
      - destruct Hinv as [[_ Hssw] _]. rewrite Forall_lookup in Hssw.
        exact (Hssw _ _ Hp). }
    pose proof (proj1 (recursive_no_fault N fuel) 0 s2 Hinv2 HN Hcell) as Hnf.
    destruct (find_words_recursive rand fuel N 0 s2)
      as [[found s3]| | |] eqn:ER; try exact Hnf.
    cbn [mbind result_bind]. destruct found; [exact I|].
    apply (proj1 (recursive_returns rand fuel)) in ER.
    apply (proj1 (returns_frame rand N)) in ER. simpl in ER.
    apply IH; [eapply search_inv_frame; eauto|].
    rewrite length_insert.
    destruct ER as [[_ Hs] _]. unfold n_ssw. rewrite Hs. exact Hlen.
Qed.

End SearchSafety.

Lemma chain_pointees N s s' :
  1 <= N -> length (sentence s') = N ->
  n_w (the_model s') = n_w (the_model s) ->
  chain_from N 0 s s' ->
  exists ws, pointees (the_model s') (sentence s') = Ret ws.
Proof.
  intros HN Hlen Hnw [Hlinks (p & Hp & w & Hw & _)].
  assert (Hall : Forall (fun q => q < n_w (the_model s')) (sentence s')).
  { apply Forall_lookup. intros j a Ha. rewrite Hnw.
    destruct (decide (S j < N)) as [Hj|Hj].
    - destruct (lookup_lt_is_Some_2 (sentence s') (S j)) as [b Hb]; [lia|].
      destruct (Hlinks j a b ltac:(lia) Hj Ha Hb) as (wa & Hwa & _).
      eapply lookup_lt_Some, Hwa.
    - apply lookup_lt_Some in Ha as Hja.
      replace j with (N - 1) in Ha by lia.
      rewrite Hp in Ha. injection Ha as <-.
      eapply lookup_lt_Some, Hw. }
  assert (Hsome : is_Some (mapM (fun q => words (the_model s') !! q) (sentence s'))).
  { apply mapM_is_Some. eapply Forall_impl; [exact Hall|].
    intros q Hq. simpl. apply lookup_lt_is_Some_2. exact Hq. }
  destruct Hsome as [ws Hws]. exists ws. unfold pointees. rewrite Hws. reflexivity.
Qed.

(** X9.  On a well-formed model (every pointer points to an entry of
    [words], every [tested] array covers its [next_words]), a request for
    at least one word never reads or writes outside [words], [sentence],
    [tested] or [ssw_checked], whatever [rand()] returns: the call
    returns, or is still running. *)
Theorem generate_sentence_memory_safe rand fuel N s :
  wf_model (the_model s) -> length (sentence s) = N -> 1 <= N ->
  generate_sentence rand fuel N s = Timeout \/
  exists text s', generate_sentence rand fuel N s = Ret (text, s').
Proof.
  intros Hwf Hlen HN.
  assert (Hinv : search_inv N s) by (split; assumption).
  pose proof (starting_words_no_fault rand N fuel HN
                (replicate (n_ssw (the_model s)) false) s Hinv) as Hnf.
  rewrite length_replicate in Hnf. specialize (Hnf (le_n _)).
  unfold generate_sentence, find_words.
  destruct (starting_words_loop rand fuel N
              (replicate (n_ssw (the_model s)) false) s)
    as [[found s']| | |] eqn:E; try (destruct Hnf).
  - right. cbn [mbind result_bind].
    destruct found; [|eauto].
    apply starting_words_returns in E.
    pose proof (start_returns_frame _ _ _ _ _ E) as (Hsame & Hl & _).
    simpl in Hsame, Hl.
    destruct (start_returns_sound _ _ _ _ _ E) as [_ Hchain].
    destruct (chain_pointees N s s' HN) as [ws Hws]; auto.
    + congruence.
    + apply same_fields_n_w. assumption.
    + rewrite Hws. cbn [mbind result_bind]. eauto.
  - left. reflexivity.
Qed.

Lemma generate_sentence_memory_safe_witness :
  generate_sentence counting 2 3 (start_state (model_of_text cat_dog) 3) = Timeout \/
  exists text s',
    generate_sentence counting 2 3 (start_state (model_of_text cat_dog) 3)
    = Ret (text, s').
Proof.
  apply (generate_sentence_memory_safe counting 2 3
           (start_state (model_of_text cat_dog) 3)).
  - vm_compute. repeat constructor.
  - reflexivity.
  - lia.
Defined.

(** X10.  A request for a sentence of no words on a model with a sentence
    starter stores that starter in [sentence[0]] of an array that has no
    cell. *)
Theorem generate_sentence_of_no_words rand fuel s :
  wf_model (the_model s) -> 1 <= n_ssw (the_model s) -> sentence s = [] ->
  generate_sentence rand (S fuel) 0 s = Undef wild_pointer.
Proof.
  intros [_ Hssw] Hn Hs.
  unfold generate_sentence, find_words. rewrite starting_words_loop_S.
  assert (EC : not_all_checked (replicate (n_ssw (the_model s)) false)
                 (n_ssw (the_model s)) = true).
  { destruct (n_ssw (the_model s)); [lia|reflexivity]. }
  rewrite EC.
  destruct (random_int_nonempty rand (n_ssw (the_model s)) s) as (v & Hv & Hmod);
    [lia|].
  rewrite Hv. cbn [deref mbind result_bind].
  assert (Hidx : Z.to_nat v < n_ssw (the_model s))
    by (rewrite Hmod; apply Nat.mod_upper_bound; lia).
  rewrite lookup_replicate_2 by assumption. cbn [deref mbind result_bind negb].
  destruct (lookup_lt_is_Some_2 (sentence_starting_words (the_model s)) _ Hidx)
    as [p Hp].
  rewrite Hp. cbn [deref mbind result_bind].
  unfold store_sentence. simpl. rewrite Hs. reflexivity.
Qed.

Lemma generate_sentence_of_no_words_witness :
  generate_sentence counting 1 0 (start_state (model_of_text cat_dog) 0)
  = Undef wild_pointer.
Proof.
  apply (generate_sentence_of_no_words counting 0
           (start_state (model_of_text cat_dog) 0)).
  - vm_compute. repeat constructor.
  - vm_compute. lia.
  - reflexivity.
Defined.

(** ** Markers left behind by earlier searches *)

Lemma not_all_checked_take t1 t2 n :
  take n t2 = take n t1 -> not_all_checked t2 n = not_all_checked t1 n.
Proof.
  revert t1 t2. induction n as [|n IH]; intros t1 t2 H;
    [rewrite !not_all_checked_0; reflexivity|].
  destruct t1 as [|b1 t1], t2 as [|b2 t2]; simpl in *; try discriminate;
    [reflexivity|].
  injection H as -> H. rewrite (IH _ _ H). reflexivity.
Qed.

Lemma take_clear_checked t1 t2 n :
  length t2 = length t1 ->
  take n (clear_checked t2 n) = take n (clear_checked t1 n).
Proof.
  revert t1 t2. induction n as [|n IH]; intros t1 t2 H; [reflexivity|].
  destruct t1 as [|b1 t1], t2 as [|b2 t2]; simpl in *; try discriminate;
    [reflexivity|].
  f_equal. apply IH. lia.
Qed.

Lemma lookup_take_agree {A : Type} (t1 t2 : list A) n k :
  take n t2 = take n t1 -> k < n -> t2 !! k = t1 !! k.
Proof.
  intros H Hk. rewrite <- (lookup_take_lt t2 n k Hk), <- (lookup_take_lt t1 n k Hk).
  rewrite H. reflexivity.
Qed.

Lemma lookup_same_fields_cases m1 m2 p :
  same_fields m1 m2 ->
  (exists w1 w2, words m1 !! p = Some w1 /\ words m2 !! p = Some w2 /\
                 persistent w2 = persistent w1) \/
  (words m1 !! p = None /\ words m2 !! p = None).
Proof.
  intros H. destruct (words m1 !! p) as [w1|] eqn:E1.
  - destruct (same_fields_lookup _ _ _ _ H E1) as (w2 & E2 & Hp).
    left. eauto.
  - right. split; [reflexivity|].
    apply lookup_ge_None. apply lookup_ge_None in E1.
    pose proof (same_fields_n_w _ _ H) as Hn. unfold n_w in Hn. lia.
Qed.

Lemma agree_weaken (A A' : nat -> Prop) s1 s2 :
  (forall p, A p -> A' p) -> agree A' s1 s2 -> agree A s1 s2.
Proof.
  intros HA (H1 & H2 & H3 & H4).
  split; [|split; [|split]]; try assumption.
  intros p w1 w2 Hp. apply H4, HA, Hp.
Qed.

Lemma rel_result_weaken {A B : Type} (R R' : A -> B -> Prop) r1 r2 :
  (forall a b, R a b -> R' a b) -> rel_result R r1 r2 -> rel_result R' r1 r2.
Proof. intros HR. destruct r1, r2; simpl; auto. Qed.

Lemma agree_store_tested A s1 s2 p w1 w2 t1 t2 :
  agree A s1 s2 ->
  words (the_model s1) !! p = Some w1 -> words (the_model s2) !! p = Some w2 ->
  length t1 = length (tested w1) -> length t2 = length (tested w2) ->
  take (n_nw w1) t2 = take (n_nw w1) t1 ->
  agree (fun q => A q \/ q = p) (store_tested s1 p t1) (store_tested s2 p t2).
Proof.
  intros (Hsf & Hsen & Hrc & Hmk) Hw1 Hw2 Hl1 Hl2 Ht.
  split; [|split; [|split]]; try assumption.
  - eapply same_fields_trans; [|eapply same_fields_trans; [exact Hsf|]].
    + apply same_fields_sym, same_fields_store_tested.
      intros w Hw. rewrite Hw1 in Hw. injection Hw as <-. assumption.
    + apply same_fields_store_tested.
      intros w Hw. rewrite Hw2 in Hw. injection Hw as <-. assumption.
  - intros q v1 v2 Hq Hv1 Hv2.
    unfold store_tested in Hv1, Hv2. simpl in Hv1, Hv2.
    destruct (decide (p = q)) as [->|Hne].
    + rewrite list_lookup_alter_eq, Hw1 in Hv1.
      rewrite list_lookup_alter_eq, Hw2 in Hv2.
      simpl in Hv1, Hv2. injection Hv1 as <-. injection Hv2 as <-. exact Ht.
    + rewrite list_lookup_alter_ne in Hv1 by assumption.
      rewrite list_lookup_alter_ne in Hv2 by assumption.
      destruct Hq as [Hq|Hq]; [|congruence]. eapply Hmk; eauto.
Qed.

Lemma agree_next_call A s1 s2 :
  agree A s1 s2 ->
  agree A {| the_model := the_model s1; sentence := sentence s1;
             rand_calls := S (rand_calls s1) |}
          {| the_model := the_model s2; sentence := sentence s2;
             rand_calls := S (rand_calls s2) |}.
Proof.
  intros (Hsf & Hsen & Hrc & Hmk).
  split; [|split; [|split]]; simpl; [exact Hsf|exact Hsen|congruence|exact Hmk].
Qed.

Lemma agree_with_sentence A s1 s2 l :
  agree A s1 s2 -> agree A (with_sentence s1 l) (with_sentence s2 l).
Proof.
  intros (Hsf & Hsen & Hrc & Hmk).
  split; [|split; [|split]]; simpl; [exact Hsf|reflexivity|exact Hrc|exact Hmk].
Qed.

Section StaleMarkers.

Variable rand : nat -> nat.

Lemma recursive_agree N fuel :
  (forall A i s1 s2, agree A s1 s2 ->
     rel_result (agree_outcome A)
       (find_words_recursive rand fuel N i s1)
       (find_words_recursive rand fuel N i s2)) /\
  (forall A i this_word s1 s2, agree A s1 s2 -> A this_word ->
     rel_result (agree_outcome A)
       (next_words_loop rand fuel N i this_word s1)
       (next_words_loop rand fuel N i this_word s2)).
Proof.
  induction fuel as [|fuel [IHr IHl]]; [split; intros; exact I|].
  split.
  - intros A i s1 s2 Hag. rewrite !find_words_recursive_S.
    pose proof Hag as (Hsf & Hsen & Hrc & Hmk).
    destruct (N =? i + 1).
    + rewrite Hsen. destruct (sentence s1 !! (N - 1)) as [p|];
        cbn [deref mbind result_bind rel_result]; [|reflexivity].
      destruct (lookup_same_fields_cases _ _ p Hsf)
        as [(w1 & w2 & Hw1 & Hw2 & Hp)|[Hw1 Hw2]];
        rewrite Hw1, Hw2; cbn [deref mbind result_bind rel_result];
        [|reflexivity].
      destruct (persistent_inj_fields _ _ Hp) as (_ & _ & He & _).
      split; [simpl; congruence|exact Hag].
    + rewrite Hsen. destruct (sentence s1 !! i) as [p|];
        cbn [deref mbind result_bind rel_result]; [|reflexivity].
      destruct (lookup_same_fields_cases _ _ p Hsf)
        as [(w1 & w2 & Hw1 & Hw2 & Hp)|[Hw1 Hw2]];
        rewrite Hw1, Hw2; cbn [deref mbind result_bind rel_result];
        [|reflexivity].
      destruct (persistent_inj_fields _ _ Hp) as (_ & _ & _ & Hnext & Hlen).
      assert (Hn : n_nw w2 = n_nw w1) by (unfold n_nw; rewrite Hnext; reflexivity).
      rewrite Hn.
      eapply rel_result_weaken;
        [|apply (IHl (fun q => A q \/ q = p)); [|right; reflexivity]].
      * intros [b1 t1] [b2 t2] [Hb Ht]. split; [exact Hb|].
        eapply agree_weaken; [|exact Ht]. intros q Hq. left. exact Hq.
      * eapply agree_store_tested; eauto.
        -- apply length_clear_checked.
        -- apply length_clear_checked.
        -- apply take_clear_checked. assumption.
  - intros A i this_word s1 s2 Hag HA. rewrite !next_words_loop_S.
    pose proof Hag as (Hsf & Hsen & Hrc & Hmk).
    destruct (lookup_same_fields_cases _ _ this_word Hsf)
      as [(w1 & w2 & Hw1 & Hw2 & Hp)|[Hw1 Hw2]];
      rewrite Hw1, Hw2; cbn [deref mbind result_bind rel_result];
      [|reflexivity].
    destruct (persistent_inj_fields _ _ Hp) as (_ & _ & _ & Hnext & Hlen).
    assert (Hn : n_nw w2 = n_nw w1) by (unfold n_nw; rewrite Hnext; reflexivity).
    pose proof (Hmk _ _ _ HA Hw1 Hw2) as Ht.
    rewrite Hn, (not_all_checked_take _ _ _ Ht).
    destruct (not_all_checked (tested w1) (n_nw w1)) eqn:EC;
      [|split; [reflexivity|exact Hag]].
    apply not_all_checked_true in EC. destruct EC as (k & Hk & _).
    destruct (random_int_nonempty rand (n_nw w1) s1) as (v1 & Hv1 & Hm1); [lia|].
    destruct (random_int_nonempty rand (n_nw w1) s2) as (v2 & Hv2 & Hm2); [lia|].
    rewrite Hv1, Hv2. cbn [mbind result_bind]. rewrite Hm1, Hm2, Hrc, Hsen.
    set (k0 := rand (rand_calls s1) mod n_nw w1).
    assert (Hk0 : k0 < n_nw w1) by (apply Nat.mod_upper_bound; lia).
    rewrite (lookup_take_agree _ _ _ _ Ht Hk0).
    destruct (tested w1 !! k0) as [b|] eqn:Eb;
      cbn [deref mbind result_bind rel_result]; [|reflexivity].
    pose proof (agree_next_call _ _ _ Hag) as Hag1. rewrite Hrc, Hsen in Hag1.
    destruct b; cbn [negb].
    + apply IHl; assumption.
    + rewrite Hnext. destruct (next_words w1 !! k0) as [next_word|];
        cbn [deref mbind result_bind rel_result]; [|reflexivity].
      unfold store_sentence. cbn [sentence store_tested with_model].
      destruct (i + 1 <? length (sentence s1));
        cbn [deref mbind result_bind rel_result]; [|reflexivity].
      match goal with
      | |- rel_result _ (mbind _ (find_words_recursive _ _ _ _ ?x))
                        (mbind _ (find_words_recursive _ _ _ _ ?y)) =>
          set (t1 := x); set (t2 := y)
      end.
      assert (Hag2 : agree A t1 t2).
      { unfold t1, t2.
        match goal with
        | |- agree _ (with_sentence ?x _) (with_sentence ?y _) =>
            assert (Hst : agree A x y)
        end.
        { eapply agree_weaken;
            [|eapply (agree_store_tested A _ _ this_word w1 w2);
              [exact Hag1|exact Hw1|exact Hw2| | | ]].
          - intros q Hq. left. exact Hq.
          - apply length_insert.
          - apply length_insert.
          - rewrite !take_insert_lt by assumption. rewrite Ht. reflexivity. }
        apply agree_with_sentence. exact Hst. }
      pose proof (IHr A (i + 1) t1 t2 Hag2) as Hrec.
      destruct (find_words_recursive rand fuel N (i + 1) t1) as [[f1 u1]| | |],
               (find_words_recursive rand fuel N (i + 1) t2) as [[f2 u2]| | |];
        simpl in Hrec; try contradiction; cbn [mbind result_bind rel_result];
        try exact Hrec; try exact I.
      destruct Hrec as [Hf Hu]. simpl in Hf, Hu. subst f2.
      destruct f1; [split; [reflexivity|exact Hu]|].
      apply IHl; assumption.
Qed.

Lemma starting_words_agree N fuel :
  forall A ssw_checked s1 s2, agree A s1 s2 ->
    rel_result (agree_outcome A)
      (starting_words_loop rand fuel N ssw_checked s1)
      (starting_words_loop rand fuel N ssw_checked s2).
Proof.
  induction fuel as [|fuel IH]; intros A ssw_checked s1 s2 Hag; [exact I|].
  rewrite !starting_words_loop_S.
  pose proof Hag as (Hsf & Hsen & Hrc & Hmk).
  assert (Hssw : sentence_starting_words (the_model s2)
                 = sentence_starting_words (the_model s1)) by apply Hsf.
  unfold n_ssw. rewrite Hssw. fold (n_ssw (the_model s1)).
  destruct (not_all_checked ssw_checked (n_ssw (the_model s1))) eqn:EC;
    [|split; [reflexivity|exact Hag]].
  apply not_all_checked_true in EC. destruct EC as (k & Hk & _).
  destruct (random_int_nonempty rand (n_ssw (the_model s1)) s1)
    as (v1 & Hv1 & Hm1); [lia|].
  destruct (random_int_nonempty rand (n_ssw (the_model s1)) s2)
    as (v2 & Hv2 & Hm2); [lia|].
  rewrite Hv1, Hv2. cbn [mbind result_bind]. rewrite Hm1, Hm2, Hrc, Hsen.
  set (k0 := rand (rand_calls s1) mod n_ssw (the_model s1)).
  destruct (ssw_checked !! k0) as [b|];
    cbn [deref mbind result_bind rel_result]; [|reflexivity].
  pose proof (agree_next_call _ _ _ Hag) as Hag1. rewrite Hrc, Hsen in Hag1.
  destruct b; cbn [negb].
  - apply IH; assumption.
  - destruct (sentence_starting_words (the_model s1) !! k0) as [p|];
      cbn [deref mbind result_bind rel_result]; [|reflexivity].
    unfold store_sentence. cbn [sentence].
    destruct (0 <? length (sentence s1));
      cbn [deref mbind result_bind rel_result]; [|reflexivity].
    match goal with
    | |- rel_result _ (mbind _ (find_words_recursive _ _ _ _ ?x))
                      (mbind _ (find_words_recursive _ _ _ _ ?y)) =>
        set (t1 := x); set (t2 := y)
    end.
    assert (Hag2 : agree A t1 t2).
    { unfold t1, t2. apply agree_with_sentence. exact Hag1. }
    pose proof (proj1 (recursive_agree N fuel) A 0 t1 t2 Hag2) as Hrec.
    destruct (find_words_recursive rand fuel N 0 t1) as [[f1 u1]| | |],
             (find_words_recursive rand fuel N 0 t2) as [[f2 u2]| | |];
      simpl in Hrec; try contradiction; cbn [mbind result_bind rel_result];
      try exact Hrec; try exact I.
    destruct Hrec as [Hf Hu]. simpl in Hf, Hu. subst f2.
    destruct f1; [split; [reflexivity|exact Hu]|].
    apply IH; assumption.
Qed.

End StaleMarkers.

Lemma combine_loop_strings ws1 ws2 N i acc :
  map string ws2 = map string ws1 ->
  combine_loop ws2 N i acc = combine_loop ws1 N i acc.
Proof.
  revert ws2 i acc. induction ws1 as [|w1 ws1 IH]; intros [|w2 ws2] i acc H;
    try discriminate; [reflexivity|].
  simpl in H. injection H as Hw Hws. simpl. rewrite Hw. apply IH. assumption.
Qed.

Lemma combine_words_strings ws1 ws2 N :
  map string ws2 = map string ws1 -> combine_words ws2 N = combine_words ws1 N.
Proof.
  intros H. unfold combine_words. f_equal. apply combine_loop_strings.
  rewrite <- !firstn_map. unfold take. congruence.
Qed.

Lemma pointees_same_fields m1 m2 l :
  same_fields m1 m2 ->
  rel_result (fun ws1 ws2 => map string ws2 = map string ws1)
    (pointees m1 l) (pointees m2 l).
Proof.
  intros Hsf. unfold pointees.
  induction l as [|p l IH]; [reflexivity|].
  cbn [mapM]. 
  destruct (lookup_same_fields_cases _ _ p Hsf)
    as [(w1 & w2 & Hw1 & Hw2 & Hp)|[Hw1 Hw2]]; rewrite Hw1, Hw2;
    [|reflexivity].
  cbn [mbind option_bind].
  destruct (mapM (fun q => words m1 !! q) l) as [ws1|],
           (mapM (fun q => words m2 !! q) l) as [ws2|];
    simpl in IH; try contradiction; try discriminate; simpl; [|reflexivity].
  destruct (persistent_inj_fields _ _ Hp) as (Hs & _). congruence.
Qed.

(** X11.  What earlier searches left in the [tested] arrays has no influence
    on a call of [generate_sentence]: from two states that differ in the
    contents of these arrays only, it returns the same sentence text (or
    NULL both times) with the same words in [sentence] after the same
    number of [rand()] calls, or fails in the same way both times. *)
Theorem generate_sentence_ignores_stale_markers rand fuel N s1 s2 :
  same_fields (the_model s1) (the_model s2) ->
  sentence s2 = sentence s1 -> rand_calls s2 = rand_calls s1 ->
  (forall text s1', generate_sentence rand fuel N s1 = Ret (text, s1') ->
     exists s2', generate_sentence rand fuel N s2 = Ret (text, s2') /\
       sentence s2' = sentence s1' /\ rand_calls s2' = rand_calls s1') /\
  (forall u, generate_sentence rand fuel N s1 = Undef u ->
     generate_sentence rand fuel N s2 = Undef u) /\
  (generate_sentence rand fuel N s1 = Timeout ->
   generate_sentence rand fuel N s2 = Timeout).
Proof.
  intros Hsf Hsen Hrc.
  assert (Hag : agree (fun _ => False) s1 s2).
  { split; [assumption|]. split; [assumption|]. split; [assumption|].
    intros p w1 w2 []. }
  assert (Hn : n_ssw (the_model s2) = n_ssw (the_model s1))
    by (unfold n_ssw; rewrite (proj2 Hsf); reflexivity).
  pose proof (starting_words_agree rand N fuel (fun _ => False)
                (replicate (n_ssw (the_model s1)) false) s1 s2 Hag) as Hrel.
  assert (Hgen : rel_result
            (fun x y => x.1 = y.1 /\ sentence y.2 = sentence x.2
                        /\ rand_calls y.2 = rand_calls x.2)
            (generate_sentence rand fuel N s1) (generate_sentence rand fuel N s2)).
  { unfold generate_sentence, find_words. rewrite Hn.
    destruct (starting_words_loop rand fuel N
                (replicate (n_ssw (the_model s1)) false) s1) as [[f1 u1]| | |],
             (starting_words_loop rand fuel N
                (replicate (n_ssw (the_model s1)) false) s2) as [[f2 u2]| | |];
      simpl in Hrel; try contradiction; cbn [mbind result_bind rel_result];
      try exact Hrel; try exact I.
    destruct Hrel as [Hf (Hsf' & Hsen' & Hrc' & _)]. simpl in *. subst f2.
    destruct f1; [|simpl; auto].
    rewrite Hsen'.
    pose proof (pointees_same_fields _ _ (sentence u1) Hsf') as Hp.
    destruct (pointees (the_model u1) (sentence u1)) as [ws1| | |],
             (pointees (the_model u2) (sentence u1)) as [ws2| | |];
      simpl in Hp; try contradiction; cbn [mbind result_bind rel_result];
      try exact Hp; try exact I.
    simpl. rewrite (combine_words_strings _ _ N Hp). auto. }
  destruct (generate_sentence rand fuel N s1) as [[x1 y1]| | |],
           (generate_sentence rand fuel N s2) as [[x2 y2]| | |];
    simpl in Hgen; try contradiction.
  - destruct Hgen as (-> & H1 & H2). split; [|split]; try discriminate.
    intros text s1' H. injection H as <- <-. eauto.
  - split; [|split]; discriminate.
  - subst. split; [|split]; try discriminate. auto.
  - split; [|split]; try discriminate. auto.
Qed.

Lemma generate_sentence_ignores_stale_markers_witness :
  (forall text s1',
     generate_sentence counting 30 3 (start_state (model_of_text cat_dog) 3)
     = Ret (text, s1') ->
     exists s2',
       generate_sentence counting 30 3
         (store_tested (start_state (model_of_text cat_dog) 3) 0
            (replicate MAX_FOLLOWING_WORDS true))
       = Ret (text, s2') /\
       sentence s2' = sentence s1' /\ rand_calls s2' = rand_calls s1') /\
  (forall u,
     generate_sentence counting 30 3 (start_state (model_of_text cat_dog) 3)
     = Undef u ->
     generate_sentence counting 30 3
       (store_tested (start_state (model_of_text cat_dog) 3) 0
          (replicate MAX_FOLLOWING_WORDS true))
     = Undef u) /\
  (generate_sentence counting 30 3 (start_state (model_of_text cat_dog) 3)
   = Timeout ->
   generate_sentence counting 30 3
     (store_tested (start_state (model_of_text cat_dog) 3) 0
        (replicate MAX_FOLLOWING_WORDS true))
   = Timeout).
Proof.
  apply (generate_sentence_ignores_stale_markers counting 30 3
           (start_state (model_of_text cat_dog) 3)
           (store_tested (start_state (model_of_text cat_dog) 3) 0
              (replicate MAX_FOLLOWING_WORDS true))).
  - split; vm_compute; reflexivity.
  - reflexivity.
  - reflexivity.
Defined.

(** ** When the search is exhaustive *)

Lemma walk_same_fields m m' k a :
  same_fields m m' -> walk m' k a = walk m k a.
Proof.
  intros Hsf. revert a. induction k as [|k IH]; intros a; [reflexivity|].
  simpl.
  destruct (lookup_same_fields_cases _ _ a Hsf)
    as [(w1 & w2 & Hw1 & Hw2 & Hp)|[Hw1 Hw2]]; rewrite Hw1, Hw2; [|reflexivity].
  destruct (persistent_inj_fields _ _ Hp) as (_ & _ & _ & -> & _).
  apply flat_map_ext. exact IH.
Qed.

Lemma elem_of_walk_S m k a b :
  b ∈ walk m (S k) a <->
  exists w q, words m !! a = Some w /\ q ∈ next_words w /\ b ∈ walk m k q.
Proof.
  simpl. destruct (words m !! a) as [w|].
  - rewrite list_elem_of_In, in_flat_map. split.
    + intros (q & Hq & Hb). exists w, q.
      rewrite !list_elem_of_In. auto.
    + intros (w' & q & Hw & Hq & Hb). injection Hw as <-. exists q.
      rewrite <- !list_elem_of_In. auto.
  - split; [intros H; inversion H|intros (w & q & H & _); discriminate].
Qed.

Lemma no_cycle_within_same_fields m m' n :
  same_fields m m' -> no_cycle_within m n -> no_cycle_within m' n.
Proof.
  intros Hsf H p k Hp Hk. rewrite (walk_same_fields _ _ _ _ Hsf).
  apply H; [|assumption]. rewrite <- (same_fields_n_w _ _ Hsf). assumption.
Qed.

Lemma can_finish_same_fields m m' d p :
  same_fields m m' -> can_finish m' d p -> can_finish m d p.
Proof.
  intros Hsf. revert p. induction d as [|d IH]; intros p; simpl.
  - apply sentence_ender_same_fields. assumption.
  - intros (q & Hq & Hd). exists q. split; [|auto].
    eapply follows_same_fields; eauto.
Qed.

Lemma lookup_clear_checked t n k b :
  k < n -> clear_checked t n !! k = Some b -> b = false.
Proof.
  revert t k. induction n as [|n IH]; intros t k Hk H; [lia|].
  destruct t as [|b0 t]; simpl in H; [destruct k; discriminate|].
  destruct k as [|k]; simpl in H; [congruence|].
  apply (IH t k); [lia|assumption].
Qed.

Lemma chain_can_finish model N l :
  length l = N ->
  (forall i a b, l !! i = Some a -> l !! S i = Some b -> follows model a b) ->
  (exists p, l !! (N - 1) = Some p /\ sentence_ender model p) ->
  forall d j a, j + d + 1 = N -> l !! j = Some a -> can_finish model d a.
Proof.
  intros Hlen Hlinks (p & Hp & Hend).
  induction d as [|d IH]; intros j a Hj Ha.
  - replace (N - 1) with j in Hp by lia. rewrite Ha in Hp. injection Hp as <-.
    exact Hend.
  - destruct (lookup_lt_is_Some_2 l (S j)) as [b Hb]; [lia|].
    exists b. split; [eapply Hlinks; eauto|].
    apply (IH (S j)); [lia|assumption].
Qed.

Section Exhaustive.

Variable rand : nat -> nat.

(** A call at position [i] leaves alone the entries of the words that
    the word in [sentence[i]] does not lead to within the links that
    remain. *)
Lemma returns_untouched N :
  (forall i s r, rec_returns rand N i s r ->
     length (sentence s) = N ->
     forall q, sentence s !! i = Some q ->
     forall x, (forall k, k + i + 2 <= N -> x ∉ walk (the_model s) k q) ->
       words (the_model r.2) !! x = words (the_model s) !! x) /\
  (forall i this_word s r, loop_returns rand N i this_word s r ->
     length (sentence s) = N ->
     forall x, (forall k, k + i + 2 <= N -> x ∉ walk (the_model s) k this_word) ->
       words (the_model r.2) !! x = words (the_model s) !! x).
Proof.
  apply returns_mutind; simpl.
  - reflexivity.
  - intros i s this_word w r HN Hp Hw Hloop IH Hlen q Hq x Hx.
    rewrite Hp in Hq. injection Hq as <-.
    assert (Hi : i + 2 <= N) by (apply lookup_lt_Some in Hp; lia).
    assert (Hne : this_word <> x).
    { intros ->. apply (Hx 0); [lia|]. simpl. apply list_elem_of_here. }
    rewrite IH.
    + apply list_lookup_alter_ne. assumption.
    + assumption.
    + intros k Hk. rewrite (walk_same_fields (the_model s)); [apply Hx; assumption|].
      apply same_fields_store_tested. intros w' Hw'.
      rewrite length_clear_checked. congruence.
  - reflexivity.
  - intros i this_word s w nw_index s1 r Hw HC HR HT _ IH Hlen x Hx.
    apply random_int_Ret in HR. destruct HR as (Hm & Hs & _).
    rewrite IH, Hm; [reflexivity|congruence|]. rewrite Hm. exact Hx.
  - intros i this_word s w nw_index s1 next_word s2 s3 Hw HC HR HT HN HS
      _ IH Hlen x Hx.
    apply random_int_Ret in HR. destruct HR as (Hm & Hs & _).
    apply store_sentence_Ret in HS. destruct HS as [Hi ->].
    simpl in Hi, IH. rewrite Hs, Hlen in Hi.
    assert (Hne : this_word <> x).
    { intros ->. apply (Hx 0); [lia|]. simpl. apply list_elem_of_here. }
    assert (Hsf : same_fields (the_model s)
                    (the_model (store_tested s1 this_word
                                  (<[Z.to_nat nw_index := true]> (tested w))))).
    { eapply same_fields_trans;
        [|apply same_fields_store_tested; intros w' Hw';
          rewrite Hm, Hw in Hw'; injection Hw' as <-; apply length_insert].
      rewrite Hm. apply same_fields_refl. }
    assert (Hl2 : length (<[i + 1 := next_word]> (sentence s1)) = N)
      by (rewrite length_insert; congruence).
    assert (Hc2 : <[i + 1 := next_word]> (sentence s1) !! (i + 1) = Some next_word)
      by (apply list_lookup_insert_eq; rewrite Hs, Hlen; lia).
    rewrite (IH Hl2 next_word Hc2 x).
    + rewrite list_lookup_alter_ne by assumption. rewrite Hm. reflexivity.
    + intros k Hk Hin.
      rewrite (walk_same_fields _ _ _ _ Hsf) in Hin.
      apply (Hx (S k)); [lia|]. apply elem_of_walk_S.
      exists w, next_word. split; [assumption|]. split; [|assumption].
      eapply list_elem_of_lookup_2; eauto.
  - intros i this_word s w nw_index s1 next_word s2 s3 r Hw HC HR HT HN HS
      Hrec IH1 _ IH2 Hlen x Hx.
    apply random_int_Ret in HR. destruct HR as (Hm & Hs & _).
    apply store_sentence_Ret in HS. destruct HS as [Hi ->].
    simpl in Hi, IH1. rewrite Hs, Hlen in Hi.
    assert (Hne : this_word <> x).
    { intros ->. apply (Hx 0); [lia|]. simpl. apply list_elem_of_here. }
    assert (Hsf : same_fields (the_model s)
                    (the_model (store_tested s1 this_word
                                  (<[Z.to_nat nw_index := true]> (tested w))))).
    { eapply same_fields_trans;
        [|apply same_fields_store_tested; intros w' Hw';
          rewrite Hm, Hw in Hw'; injection Hw' as <-; apply length_insert].
      rewrite Hm. apply same_fields_refl. }
    apply (proj1 (returns_frame rand N)) in Hrec. simpl in Hrec.
    destruct Hrec as (Hsf3 & Hlen3 & _).
    assert (Hl2 : length (<[i + 1 := next_word]> (sentence s1)) = N)
      by (rewrite length_insert; congruence).
    assert (Hc2 : <[i + 1 := next_word]> (sentence s1) !! (i + 1) = Some next_word)
      by (apply list_lookup_insert_eq; rewrite Hs, Hlen; lia).
    rewrite IH2.
    + rewrite (IH1 Hl2 next_word Hc2 x).
      * rewrite list_lookup_alter_ne by assumption. rewrite Hm. reflexivity.
      * intros k Hk Hin.
        rewrite (walk_same_fields _ _ _ _ Hsf) in Hin.
        apply (Hx (S k)); [lia|]. apply elem_of_walk_S.
        exists w, next_word. split; [assumption|]. split; [|assumption].
        eapply list_elem_of_lookup_2; eauto.
    + rewrite Hlen3. simpl. rewrite length_insert. congruence.
    + intros k Hk.
      rewrite (walk_same_fields (the_model s));
        [apply Hx; assumption|].
      eapply same_fields_trans; [exact Hsf|exact Hsf3].
Qed.

Lemma returns_complete N :
  (forall i s r, rec_returns rand N i s r ->
     r.1 = false -> search_inv N s -> no_cycle_within (the_model s) (N - 2) ->
     forall q, sentence s !! i = Some q ->
       ~ can_finish (the_model s) (N - 1 - i) q) /\
  (forall i this_word s r, loop_returns rand N i this_word s r ->
     r.1 = false -> search_inv N s -> no_cycle_within (the_model s) (N - 2) ->
     i + 2 <= N ->
     (forall w k next_word,
        words (the_model s) !! this_word = Some w ->
        tested w !! k = Some true -> next_words w !! k = Some next_word ->
        ~ can_finish (the_model s) (N - 2 - i) next_word) ->
     ~ can_finish (the_model s) (N - 1 - i) this_word).
Proof.
  apply returns_mutind; simpl.
  - intros i s p w HN Hp Hw Hr Hinv Hcyc q Hq.
    replace (N - 1) with i in Hp by lia. rewrite Hp in Hq. injection Hq as <-.
    replace (N - 1 - i) with 0 by lia. simpl.
    intros (w' & Hw' & He). congruence.
  - intros i s this_word w r HN Hp Hw Hloop IH Hr Hinv Hcyc q Hq.
    rewrite Hp in Hq. injection Hq as <-.
    assert (Hi : i + 2 <= N).
    { apply lookup_lt_Some in Hp. rewrite (proj2 Hinv) in Hp. lia. }
    assert (Hsf : same_fields (the_model s)
                    (the_model (store_tested s this_word
                                  (clear_checked (tested w) (n_nw w))))).
    { apply same_fields_store_tested. intros w' Hw'.
      rewrite length_clear_checked. congruence. }
    intros Hfin. apply IH; try assumption.
    + apply search_inv_store_tested; [|assumption].
      intros w' Hw'. rewrite length_clear_checked. congruence.
    + eapply no_cycle_within_same_fields; eauto.
    + intros w' k next_word Hw' Hk Hnw.
      rewrite list_lookup_alter_eq, Hw in Hw'. simpl in Hw'. injection Hw' as <-.
      simpl in Hk, Hnw. apply lookup_lt_Some in Hnw.
      apply lookup_clear_checked in Hk; [discriminate|exact Hnw].
    + eapply can_finish_same_fields; [apply same_fields_sym; exact Hsf|exact Hfin].
  - intros i this_word s w Hw HC _ Hinv Hcyc Hi Hmarked.
    replace (N - 1 - i) with (S (N - 2 - i)) by lia.
    intros (q & (w' & Hw' & Hq) & Hfin).
    rewrite Hw in Hw'. injection Hw' as <-.
    apply list_elem_of_lookup_1 in Hq. destruct Hq as [k Hk].
    apply lookup_lt_Some in Hk as Hlt.
    destruct (wf_model_tested _ _ _ _ (proj1 Hinv) Hw Hlt) as [b Hb].
    destruct b.
    + exact (Hmarked w k q Hw Hb Hk Hfin).
    + exact (not_all_checked_false _ _ HC k Hlt Hb).
  - intros i this_word s w nw_index s1 r Hw HC HR HT _ IH Hr Hinv Hcyc Hi Hmarked.
    apply random_int_Ret in HR. destruct HR as (Hm & Hs & _).
    rewrite <- Hm. apply IH; try assumption.
    + split; [rewrite Hm; exact (proj1 Hinv)|rewrite Hs; exact (proj2 Hinv)].
    + rewrite Hm. assumption.
    + rewrite Hm. assumption.
  - intros; discriminate.
  - intros i this_word s w nw_index s1 next_word s2 s3 r Hw HC HR HT HN HS
      Hrec IH1 _ IH2 Hr Hinv Hcyc Hi Hmarked.
    apply random_int_Ret in HR. destruct HR as (Hm & Hs & _).
    apply store_sentence_Ret in HS. destruct HS as [Hlt ->].
    simpl in Hlt, IH1. 
    set (s1' := store_tested s1 this_word (<[Z.to_nat nw_index := true]> (tested w)))
      in *.
    set (s2 := with_sentence s1' (<[i + 1 := next_word]> (sentence s1))) in *.
    assert (Hsf : same_fields (the_model s) (the_model s2)).
    { eapply same_fields_trans;
        [|apply same_fields_store_tested; intros w' Hw';
          rewrite Hm, Hw in Hw'; injection Hw' as <-; apply length_insert].
      rewrite Hm. apply same_fields_refl. }
    assert (Hinv2 : search_inv N s2).
    { split.
      - eapply wf_model_same_fields; [exact Hsf|exact (proj1 Hinv)].
      - simpl. rewrite length_insert, Hs. exact (proj2 Hinv). }
    assert (Hcyc2 : no_cycle_within (the_model s2) (N - 2))
      by (eapply no_cycle_within_same_fields; eauto).
    assert (Hc2 : sentence s2 !! (i + 1) = Some next_word)
      by (simpl; apply list_lookup_insert_eq; exact Hlt).
    pose proof (IH1 eq_refl Hinv2 Hcyc2 next_word Hc2) as Hno.
    replace (N - 1 - (i + 1)) with (N - 2 - i) in Hno by lia.
    pose proof (proj1 (returns_frame rand N) _ _ _ Hrec) as Hframe.
    simpl in Hframe.
    assert (Hsf3 : same_fields (the_model s) (the_model s3))
      by (eapply same_fields_trans; [exact Hsf|exact (proj1 Hframe)]).
    assert (Hthis : this_word < n_w (the_model s)) by (eapply lookup_lt_Some, Hw).
    assert (Hkeep : words (the_model s3) !! this_word
                    = words (the_model s2) !! this_word).
    { apply (proj1 (returns_untouched N) _ _ _ Hrec (proj2 Hinv2) next_word Hc2).
      intros k Hk Hin.
      rewrite (walk_same_fields _ _ _ _ Hsf) in Hin.
      apply (Hcyc this_word (S k) Hthis); [lia|].
      apply elem_of_walk_S. exists w, next_word.
      split; [assumption|]. split; [|assumption].
      eapply list_elem_of_lookup_2; eauto. }
    intros Hfin.
    apply (can_finish_same_fields _ _ _ _ (same_fields_sym _ _ Hsf3)) in Hfin.
    revert Hfin. apply IH2; try assumption.
    + eapply search_inv_frame; eauto.
    + eapply no_cycle_within_same_fields; eauto.
    + intros w' k nw Hw' Hk Hnw.
      rewrite Hkeep in Hw'. simpl in Hw'.
      rewrite list_lookup_alter_eq, Hm, Hw in Hw'. simpl in Hw'.
      injection Hw' as <-. simpl in Hk, Hnw.
      intros Hfin. apply (can_finish_same_fields _ _ _ _ Hsf3) in Hfin.
      destruct (decide (k = Z.to_nat nw_index)) as [->|Hne].
      * rewrite HN in Hnw. injection Hnw as <-.
        apply Hno. eapply can_finish_same_fields;
          [apply same_fields_sym; exact Hsf|exact Hfin].
      * rewrite list_lookup_insert_ne in Hk by auto.
        exact (Hmarked w k nw Hw Hk Hnw Hfin).
Qed.

Lemma start_returns_complete N ssw_checked s r :
  start_returns rand N ssw_checked s r ->
  r.1 = false -> search_inv N s -> 1 <= N ->
  no_cycle_within (the_model s) (N - 2) ->
  n_ssw (the_model s) <= length ssw_checked ->
  (forall k p, ssw_checked !! k = Some true ->
     sentence_starting_words (the_model s) !! k = Some p ->
     ~ can_finish (the_model s) (N - 1) p) ->
  forall p, p ∈ sentence_starting_words (the_model s) ->
    ~ can_finish (the_model s) (N - 1) p.
Proof.
  induction 1 as [c s HC|c s v s1 r HC HR HT _ IH
                  |c s v s1 p s2 s3 HC HR HT Hp HS Hrec
                  |c s v s1 p s2 s3 r HC HR HT Hp HS Hrec _ IH];
    simpl; intros Hr Hinv HN Hcyc Hlen Hmarked.
  - intros p Hp. apply list_elem_of_lookup_1 in Hp. destruct Hp as [k Hk].
    apply lookup_lt_Some in Hk as Hlt.
    destruct (lookup_lt_is_Some_2 c k) as [b Hb]; [unfold n_ssw in Hlen; lia|].
    destruct b.
    + exact (Hmarked k p Hb Hk).
    + destruct (not_all_checked_false _ _ HC k Hlt Hb).
  - apply random_int_Ret in HR. destruct HR as (Hm & Hs & _).
    rewrite <- Hm. apply IH; try assumption; try (rewrite Hm; assumption).
    split; [rewrite Hm; exact (proj1 Hinv)|rewrite Hs; exact (proj2 Hinv)].
  - discriminate.
  - apply random_int_Ret in HR. destruct HR as (Hm & Hs & _).
    apply store_sentence_Ret in HS. destruct HS as [Hlt ->].
    set (s2 := with_sentence s1 (<[0 := p]> (sentence s1))) in *.
    assert (Hinv2 : search_inv N s2).
    { split; [simpl; rewrite Hm; exact (proj1 Hinv)|].
      simpl. rewrite length_insert, Hs. exact (proj2 Hinv). }
    assert (Hcyc2 : no_cycle_within (the_model s2) (N - 2))
      by (simpl; rewrite Hm; assumption).
    assert (Hc2 : sentence s2 !! 0 = Some p)
      by (simpl; apply list_lookup_insert_eq; exact Hlt).
    pose proof (proj1 (returns_complete N) _ _ _ Hrec eq_refl Hinv2 Hcyc2 p Hc2)
      as Hno.
    rewrite Nat.sub_0_r in Hno.
    change (the_model s2) with (the_model s1) in Hno. rewrite Hm in Hno.
    pose proof (proj1 (returns_frame rand N) _ _ _ Hrec) as Hframe.
    assert (Hsf3 : same_fields (the_model s) (the_model s3))
      by (rewrite <- Hm; exact (proj1 Hframe)).
    intros q Hq Hfin.
    assert (Hq3 : q ∈ sentence_starting_words (the_model s3))
      by (rewrite (proj2 Hsf3); exact Hq).
    apply (can_finish_same_fields _ _ _ _ (same_fields_sym _ _ Hsf3)) in Hfin.
    revert Hfin. apply IH; try assumption.
    + eapply search_inv_frame; [|exact Hinv2].
      exact (proj1 (returns_frame rand N) _ _ _ Hrec).
    + eapply no_cycle_within_same_fields; eauto.
    + rewrite length_insert. unfold n_ssw. rewrite (proj2 Hsf3). exact Hlen.
    + intros k p' Hk Hp' Hfin. rewrite (proj2 Hsf3) in Hp'.
      apply (can_finish_same_fields _ _ _ _ Hsf3) in Hfin.
      destruct (decide (k = Z.to_nat v)) as [->|Hne].
      * rewrite Hp in Hp'. injection Hp' as <-. exact (Hno Hfin).
      * rewrite list_lookup_insert_ne in Hk by auto.
        exact (Hmarked k p' Hk Hp' Hfin).
Qed.

End Exhaustive.

(** X12.  If no word of the model leads back to itself in [N - 2] links or
    fewer, the search for [N] words is exhaustive: when [find_words]
    returns false, the model has no chain of [N] words from a sentence
    starter to a sentence ender. This covers every model for [N <= 2]
    and models without cycles for every [N]. *)
Theorem find_words_exhaustive_without_short_cycles rand fuel N s s' :
  wf_model (the_model s) -> length (sentence s) = N -> 1 <= N ->
  no_cycle_within (the_model s) (N - 2) ->
  find_words rand fuel N s = Ret (false, s') ->
  ~ exists l, valid_sentence (the_model s) N l.
Proof.
  intros Hwf Hlen HN Hcyc H [l (Hl & (p & Hp & Hin) & Hlinks & Hend)].
  unfold find_words in H. apply starting_words_returns in H.
  apply (start_returns_complete rand N _ _ _ H eq_refl) with (p := p);
    try assumption.
  - split; assumption.
  - rewrite length_replicate. lia.
  - intros k q Hk. apply lookup_replicate in Hk. destruct Hk as [Hk _].
    discriminate.
  - apply (chain_can_finish _ N l Hl Hlinks Hend (N - 1) 0); [lia|assumption].
Qed.

Lemma find_words_exhaustive_without_short_cycles_witness :
  ~ exists l, valid_sentence (the_model (start_state (model_of_text cat_dog) 4)) 4 l.
Proof.
  apply (find_words_exhaustive_without_short_cycles counting 40 4
           (start_state (model_of_text cat_dog) 4)
           (final_state (start_state (model_of_text cat_dog) 4)
              (find_words counting 40 4 (start_state (model_of_text cat_dog) 4)))).
  - apply (bool_decide_unpack _). vm_compute. reflexivity.
  - reflexivity.
  - lia.
  - apply (bool_decide_unpack _). vm_compute. reflexivity.
  - vm_compute. reflexivity.
Defined.

(** ** From a text to a sentence *)

Lemma start_returns_exhaustive rand N s s' :
  wf_model (the_model s) -> length (sentence s) = N -> 1 <= N ->
  no_cycle_within (the_model s) (N - 2) ->
  start_returns rand N (replicate (n_ssw (the_model s)) false) s (false, s') ->
  ~ exists l, valid_sentence (the_model s) N l.
Proof.
  intros Hwf Hlen HN Hcyc H [l (Hl & (p & Hp & Hin) & Hlinks & Hend)].
  apply (start_returns_complete rand N _ _ _ H eq_refl) with (p := p);
    try assumption.
  - split; assumption.
  - rewrite length_replicate. lia.
  - intros k q Hk. apply lookup_replicate in Hk. destruct Hk as [Hk _].
    discriminate.
  - apply (chain_can_finish _ N l Hl Hlinks Hend (N - 1) 0); [lia|assumption].
Qed.

(** A built model draws from ranges of at most [MAX_STARTING_WORDS]
    indices. *)
Lemma built_moduli_bounded text st :
  within_capacity text -> reflects (observations text) st ->
  Forall (fun n => n <= MAX_STARTING_WORDS) (moduli (model_of st)).
Proof.
  intros Hcap Hr.
  destruct (reflects_bounds text st Hcap Hr) as (_ & Hssw & Hnw).
  unfold moduli. constructor; [exact Hssw|].
  apply Forall_forall. intros n Hn.
  apply list_elem_of_In, in_map_iff in Hn. destruct Hn as (w & <- & Hw).
  rewrite Forall_forall in Hnw. apply list_elem_of_In, Hnw in Hw.
  unfold MAX_FOLLOWING_WORDS, MAX_STARTING_WORDS in *. lia.
Qed.

(** On a well-formed model and with a [rand()] that is fair for it, a
    request for [N >= 1] words returns, with the text of a valid chain or
    with NULL. *)
Lemma generate_sentence_outcome rand N s :
  wf_model (the_model s) -> length (sentence s) = N ->
  fair_for (the_model s) rand -> 1 <= N ->
  exists fuel r s',
    generate_sentence rand fuel N s = Ret (r, s') /\
    same_fields (the_model s) (the_model s') /\
    match r with
    | Some sentence_string =>
        valid_sentence (the_model s) N (sentence s') /\
        exists ws, pointees (the_model s') (sentence s') = Ret ws /\
                   sentence_string = combine_words ws N
    | None =>
        no_cycle_within (the_model s) (N - 2) ->
        ~ exists l, valid_sentence (the_model s) N l
    end.
Proof.
  intros Hwf Hlen Hfair HN.
  destruct (start_terminates rand N HN
              (unchecked (replicate (n_ssw (the_model s)) false)
                 (n_ssw (the_model s)))
              (replicate (n_ssw (the_model s)) false) s)
    as [[found s1] Hstart].
  { reflexivity. }
  { rewrite length_replicate. reflexivity. }
  { split; assumption. }
  { exact Hfair. }
  destruct (returns_starting_words rand _ _ _ _ Hstart) as [fuel Hfuel].
  pose proof (start_returns_frame _ _ _ _ _ Hstart) as (Hsame & Hl & _).
  simpl in Hsame, Hl.
  exists fuel.
  destruct found.
  - pose proof (start_returns_sound _ _ _ _ _ Hstart) as [Hhead Hchain].
    assert (Hl1 : length (sentence s1) = N) by (rewrite Hl; exact Hlen).
    destruct (chain_pointees N s s1 HN Hl1 (same_fields_n_w _ _ Hsame) Hchain)
      as [ws Hws].
    exists (Some (combine_words ws N)), s1. split; [|split; [exact Hsame|]].
    + unfold generate_sentence, find_words. rewrite (Hfuel fuel (le_n _)).
      cbn [mbind result_bind]. rewrite Hws. reflexivity.
    + split; [|eauto].
      destruct Hchain as [Hchain Hend].
      split; [exact Hl1|]. split; [exact Hhead|]. split; [|exact Hend].
      intros i x y Hx Hy. apply (Hchain i x y); auto; try lia.
      apply lookup_lt_Some in Hy. lia.
  - exists None, s1. split; [|split; [exact Hsame|]].
    + unfold generate_sentence, find_words. rewrite (Hfuel fuel (le_n _)).
      reflexivity.
    + intros Hcyc. eapply (start_returns_exhaustive rand N s s1); eauto.
Qed.

(** X13.  Building the model of a text that fits the arrays and then asking
    for a sentence of [N >= 1] words always comes to an end without
    undefined behaviour, provided that [rand()] keeps producing every
    index of the ranges of at most [MAX_STARTING_WORDS] indices (no
    range that the search draws from on such a model is larger, and a
    source within [RAND_MAX] can do so). A sentence that is returned is
    the text of a chain of [N] words of the model, from a sentence starter
    to a sentence ender; NULL is returned only if there is no such chain,
    provided that no word leads back to itself in [N - 2] links or fewer. *)
Theorem create_model_then_generate_sentence rand text N :
  text <> [] -> within_capacity text ->
  fair_upto MAX_STARTING_WORDS rand -> 1 <= N ->
  exists model fuel r s',
    create_model text = Ret model /\
    generate_sentence rand fuel N (start_state model N) = Ret (r, s') /\
    match r with
    | Some sentence_string =>
        valid_sentence model N (sentence s') /\
        exists ws, pointees (the_model s') (sentence s') = Ret ws /\
                   sentence_string = combine_words ws N
    | None =>
        no_cycle_within model (N - 2) -> ~ exists l, valid_sentence model N l
    end.
Proof.
  intros Hne Hcap Hfair HN.
  destruct (create_model_reflects text Hne Hcap) as (st & Hst & Hr).
  assert (Hwf : wf_model (model_of st)).
  { apply (reflects_wf_model _ _ Hr). apply (reflects_bounds text st Hcap Hr). }
  assert (Hfor : fair_for (model_of st) rand).
  { apply (fair_upto_for MAX_STARTING_WORDS); [|exact Hfair].
    apply (built_moduli_bounded text); assumption. }
  destruct (generate_sentence_outcome rand N (start_state (model_of st) N) Hwf
              (length_replicate _ _) Hfor HN) as (fuel & r & s' & Hgen & _ & Hres).
  exists (model_of st), fuel, r, s'. auto.
Qed.

Lemma create_model_then_generate_sentence_witness :
  exists model fuel r s',
    create_model cat_dog = Ret model /\
    generate_sentence cycling fuel 3 (start_state model 3) = Ret (r, s') /\
    match r with
    | Some sentence_string =>
        valid_sentence model 3 (sentence s') /\
        exists ws, pointees (the_model s') (sentence s') = Ret ws /\
                   sentence_string = combine_words ws 3
    | None =>
        no_cycle_within model (3 - 2) -> ~ exists l, valid_sentence model 3 l
    end.
Proof.
  apply (create_model_then_generate_sentence cycling cat_dog 3).
  - discriminate.
  - apply (bool_decide_unpack _). vm_compute. reflexivity.
  - apply fair_upto_cycling. unfold MAX_STARTING_WORDS, RAND_MAX. lia.
  - lia.
Defined.

(** ** Reading the text *)

Lemma append_nil_r (s : String.string) : s +:+ EmptyString = s.
Proof. induction s as [|c s IH]; [reflexivity|]. rewrite append_cons, IH. reflexivity. Qed.

Lemma length_append (s t : String.string) :
  String.length (s +:+ t) = String.length s + String.length t.
Proof.
  induction s as [|c s IH]; [reflexivity|]. rewrite append_cons. simpl. lia.
Qed.

Lemma length_skip_space text : String.length (skip_space text) <= String.length text.
Proof.
  induction text as [|c text IH]; [reflexivity|]. simpl.
  destruct (isspace c); simpl; lia.
Qed.

Lemma skip_space_starts text : starts_in_scanset text = true -> skip_space text = text.
Proof.
  destruct text as [|c text]; [discriminate|]. simpl. intros H.
  destruct c as [[] [] [] [] [] [] [] []]; try discriminate; reflexivity.
Qed.

Lemma skip_space_lead lead text :
  all_chars isspace lead = true -> skip_space (lead +:+ text) = skip_space text.
Proof.
  induction lead as [|c lead IH]; intros H; [reflexivity|].
  simpl in H. apply andb_true_iff in H. destruct H as [Hc H].
  rewrite append_cons. simpl. rewrite Hc. auto.
Qed.

Lemma all_chars_skip_space p text :
  all_chars p text = true -> all_chars p (skip_space text) = true.
Proof.
  induction text as [|c text IH]; intros H; [reflexivity|].
  simpl. destruct (isspace c); [|assumption].
  simpl in H. apply andb_true_iff in H. apply IH, H.
Qed.

Lemma skip_space_append sep text :
  (text = EmptyString \/ starts_in_scanset text = true) ->
  skip_space (sep +:+ text) = skip_space sep +:+ text.
Proof.
  intros Htext. induction sep as [|c sep IH].
  - rewrite append_nil_l. destruct Htext as [->|H]; [reflexivity|].
    apply skip_space_starts. assumption.
  - rewrite append_cons. simpl. destruct (isspace c); [exact IH|reflexivity].
Qed.

(** What a scanset directive reads. *)
Lemma scan_set_spec set width text :
  forall matched rest, scan_set set width text = (matched, rest) ->
    text = matched +:+ rest /\ String.length matched <= width /\
    all_chars set matched = true /\
    (matched = EmptyString ->
     width = 0 \/ text = EmptyString \/ exists c t, text = String c t /\ set c = false).
Proof.
  revert text. induction width as [|width IH]; intros text matched rest H.
  - destruct text; simpl in H; injection H as <- <-;
      (split; [reflexivity|]; split; [simpl; lia|]; split; [reflexivity|]; auto).
  - destruct text as [|c text].
    { simpl in H. injection H as <- <-.
      split; [reflexivity|]. split; [simpl; lia|]. split; [reflexivity|]. auto. }
    simpl in H. destruct (set c) eqn:Ec.
    + destruct (scan_set set width text) as [m r] eqn:E.
      injection H as <- <-. destruct (IH _ _ _ E) as (-> & Hl & Ha & _).
      split; [reflexivity|]. split; [simpl; lia|]. split.
      * simpl. rewrite Ec. exact Ha.
      * discriminate.
    + injection H as <- <-. split; [reflexivity|]. split; [simpl; lia|].
      split; [reflexivity|]. intros _. right. right. eauto.
Qed.

(** A scanset directive reads a run of characters of the set up to the
    width, or up to a character that is not in the set. *)
Lemma scan_set_append set width matched rest :
  all_chars set matched = true ->
  String.length matched <= width ->
  (String.length matched = width \/ rest = EmptyString \/
   exists c t, rest = String c t /\ set c = false) ->
  scan_set set width (matched +:+ rest) = (matched, rest).
Proof.
  revert width. induction matched as [|c matched IH]; intros width Ha Hl Hstop.
  - rewrite append_nil_l. destruct width as [|width]; [destruct rest; reflexivity|].
    destruct Hstop as [H|[->|(c & t & -> & Hc)]]; [discriminate|reflexivity|].
    simpl. rewrite Hc. reflexivity.
  - simpl in Ha. apply andb_true_iff in Ha. destruct Ha as [Hc Ha].
    destruct width as [|width]; [simpl in Hl; lia|].
    rewrite append_cons. simpl. rewrite Hc.
    rewrite (IH width Ha); [reflexivity|simpl in Hl; lia|].
    destruct Hstop as [H|H]; [left; simpl in H; lia|right; exact H].
Qed.

Lemma scan_next_word_Some text next_word_buf rest :
  scan_next_word text = Some (next_word_buf, rest) ->
  word_text next_word_buf /\ String.length rest < String.length text.
Proof.
  unfold scan_next_word, fscanf_word.
  pose proof (length_skip_space text) as Hskip.
  destruct (skip_space text) as [|c t] eqn:Et; [discriminate|].
  destruct (scan_set in_scanset 50 (String c t)) as [matched text1] eqn:E1.
  destruct (scan_set_spec _ _ _ _ _ E1) as (Heq & Hlen & Hall & _).
  destruct matched as [|d matched]; [discriminate|].
  destruct (scan_set (fun c => negb (in_scanset c)) 50 (skip_space text1))
    as [skipped text2] eqn:E2.
  destruct (scan_set_spec _ _ _ _ _ E2) as (Heq2 & _).
  simpl. intros H. injection H as <- <-.
  split.
  - split; [discriminate|]. split; [exact Hlen|exact Hall].
  - pose proof (length_skip_space text1) as Hskip1.
    rewrite Heq2, length_append in Hskip1.
    assert (Hl : String.length (String c t)
                 = String.length (String d matched) + String.length text1)
      by (rewrite Heq at 1; apply length_append).
    simpl in Hl, Hskip. simpl. lia.
Qed.

Lemma scan_next_word_None text :
  scan_next_word text = None <-> starts_in_scanset (skip_space text) = false.
Proof.
  unfold scan_next_word, fscanf_word.
  destruct (skip_space text) as [|c t] eqn:Et; [simpl; tauto|].
  simpl starts_in_scanset.
  destruct (in_scanset c) eqn:Ec.
  - change (scan_set in_scanset 50 (String c t))
      with (if in_scanset c then
              let (matched, rest') := scan_set in_scanset 49 t in
              (String c matched, rest')
            else (EmptyString, String c t)).
    rewrite Ec. destruct (scan_set in_scanset 49 t) as [matched text1].
    destruct (scan_set (fun c => negb (in_scanset c)) 50 (skip_space text1)).
    simpl. split; discriminate.
  - change (scan_set in_scanset 50 (String c t))
      with (if in_scanset c then
              let (matched, rest') := scan_set in_scanset 49 t in
              (String c matched, rest')
            else (EmptyString, String c t)).
    rewrite Ec. simpl. tauto.
Qed.

Lemma read_words_within_enough fuel1 :
  forall fuel2 text,
    String.length text <= fuel1 -> String.length text <= fuel2 ->
    read_words_within fuel1 text = read_words_within fuel2 text.
Proof.
  induction fuel1 as [|fuel1 IH]; intros fuel2 text H1 H2.
  - destruct text; [|simpl in H1; lia]. destruct fuel2; reflexivity.
  - destruct fuel2 as [|fuel2].
    + destruct text; [reflexivity|simpl in H2; lia].
    + simpl. destruct (scan_next_word text) as [[buf rest]|] eqn:E; [|reflexivity].
      apply scan_next_word_Some in E. destruct E as [_ Hlt].
      f_equal. apply IH; lia.
Qed.

(** The loop that reads the words, unfolded once. *)
Lemma read_words_step text :
  read_words text =
  match scan_next_word text with
  | Some (next_word_buf, rest) => next_word_buf :: read_words rest
  | None => []
  end.
Proof.
  unfold read_words. destruct (String.length text) as [|n] eqn:En.
  - destruct text; [reflexivity|discriminate].
  - simpl. destruct (scan_next_word text) as [[buf rest]|] eqn:E; [|reflexivity].
    apply scan_next_word_Some in E. destruct E as [_ Hlt].
    f_equal. apply read_words_within_enough; lia.
Qed.

(** X14.  Every string that [create_model] receives from [scan_next_word] has
    at least one and at most [MAX_WORD_LENGTH] characters, all of them
    from the scanset: [next_word_buf] is not overrun, and
    [check_if_ends_sentence] finds a last character to look at. *)
Theorem read_words_are_words text : Forall word_text (read_words text).
Proof.
  remember (String.length text) as n eqn:En. revert text En.
  induction n as [n IH] using lt_wf_ind. intros text ->.
  rewrite read_words_step.
  destruct (scan_next_word text) as [[buf rest]|] eqn:E; [|constructor].
  apply scan_next_word_Some in E. destruct E as [Hw Hlt].
  constructor; [exact Hw|]. eapply IH; [exact Hlt|reflexivity].
Qed.

Lemma word_text_starts w text : word_text w -> starts_in_scanset (w +:+ text) = true.
Proof.
  intros (Hne & _ & Ha). destruct w as [|c w]; [congruence|].
  simpl in Ha. apply andb_true_iff in Ha. rewrite append_cons. simpl. tauto.
Qed.

Lemma starts_in_scanset_cases text :
  starts_in_scanset text = false ->
  text = EmptyString \/ exists c t, text = String c t /\ in_scanset c = false.
Proof. destruct text as [|c t]; simpl; eauto. Qed.

Lemma starts_not_in_scanset_cases text :
  (text = EmptyString \/ starts_in_scanset text = true) ->
  text = EmptyString \/
  exists c t, text = String c t /\ negb (in_scanset c) = false.
Proof.
  intros [->|H]; [auto|]. destruct text as [|c t]; [discriminate|].
  right. exists c, t. simpl in H. rewrite H. auto.
Qed.

(** One call on a word, a separator and what follows them. *)
Lemma scan_next_word_word lead w sep rest :
  all_chars isspace lead = true -> word_text w ->
  (sep = EmptyString /\ rest = EmptyString \/ separator sep) ->
  (rest = EmptyString \/ starts_in_scanset rest = true) ->
  scan_next_word (lead +:+ w +:+ sep +:+ rest) = Some (w, rest).
Proof.
  intros Hlead Hw Hsep Hrest.
  pose proof (word_text_starts w (sep +:+ rest) Hw) as Hstart.
  destruct Hw as (Hne & Hlen & Ha).
  unfold scan_next_word, fscanf_word.
  rewrite (skip_space_lead _ _ Hlead), (skip_space_starts _ Hstart).
  destruct (w +:+ sep +:+ rest) as [|c0 t0] eqn:E0; [discriminate|].
  rewrite <- E0.
  rewrite (scan_set_append in_scanset 50 w (sep +:+ rest) Ha Hlen).
  - destruct w as [|c w]; [congruence|].
    destruct Hsep as [[-> ->]|(Hsne & Hsa & Hsl)].
    + reflexivity.
    + rewrite (skip_space_append _ _ Hrest).
      rewrite (scan_set_append (fun c => negb (in_scanset c)) 50
                 (skip_space sep) rest).
      * reflexivity.
      * apply all_chars_skip_space. assumption.
      * assumption.
      * right. apply starts_not_in_scanset_cases. assumption.
  - right. destruct Hsep as [[-> ->]|(Hsne & Hsa & Hsl)]; [left; reflexivity|].
    right. destruct sep as [|c sep]; [congruence|].
    simpl in Hsa. apply andb_true_iff in Hsa. destruct Hsa as [Hc _].
    exists c, (sep +:+ rest). split; [reflexivity|].
    destruct (in_scanset c); [discriminate|reflexivity].
Qed.

Lemma interleave_starts items :
  Forall (fun item => word_text item.1) items ->
  forall text, (text = EmptyString \/ starts_in_scanset text = true) ->
    interleave items +:+ text = EmptyString \/
    starts_in_scanset (interleave items +:+ text) = true.
Proof.
  intros H text Ht. destruct items as [|[w sep] items]; [exact Ht|].
  right. simpl. apply Forall_cons in H. destruct H as [Hw _].
  rewrite !append_assoc. apply word_text_starts. exact Hw.
Qed.

Lemma read_words_interleave items last :
  Forall (fun item => word_text item.1 /\ separator item.2) items ->
  (last = EmptyString \/ word_text last) ->
  read_words (interleave items +:+ last)
  = map fst items ++ (if decide (last = EmptyString) then [] else [last]).
Proof.
  intros Hitems Hlast. induction Hitems as [|[w sep] items [Hw Hsep] Hrest IH].
  - simpl. rewrite append_nil_l, read_words_step.
    destruct Hlast as [->|Hw]; [reflexivity|].
    destruct (decide (last = EmptyString)) as [->|_]; [reflexivity|].
    pose proof (scan_next_word_word EmptyString last EmptyString EmptyString
                  eq_refl Hw (or_introl (conj eq_refl eq_refl))
                  (or_introl eq_refl)) as H.
    rewrite append_nil_l, !append_nil_r in H. rewrite H.
    rewrite read_words_step. reflexivity.
  - simpl in Hw, Hsep. rewrite read_words_step.
    change (interleave ((w, sep) :: items))
      with (w +:+ sep +:+ interleave items).
    rewrite !append_assoc.
    pose proof (scan_next_word_word EmptyString w sep
                  (interleave items +:+ last) eq_refl Hw (or_intror Hsep)) as H.
    rewrite append_nil_l in H. rewrite H.
    + simpl. f_equal. exact IH.
    + apply interleave_starts.
      * eapply Forall_impl; [exact Hrest|]. intros item [Hi _]. exact Hi.
      * destruct Hlast as [->|Hl]; [left; reflexivity|right].
        rewrite <- (append_nil_r last). apply word_text_starts. exact Hl.
Qed.

(** X15.  A text of words of at most 50 characters of the scanset, each
    followed by a separator (white space, or other characters outside the
    scanset: at most 50 of them after the leading white space), is read
    back as these words, with or without a separator after the last
    word, and whatever white space the text starts with. *)
Theorem read_words_round_trip lead items last :
  all_chars isspace lead = true ->
  Forall (fun item => word_text item.1 /\ separator item.2) items ->
  (last = EmptyString \/ word_text last) ->
  read_words (lead +:+ interleave items +:+ last)
  = map fst items ++ (if decide (last = EmptyString) then [] else [last]).
Proof.
  intros Hlead Hitems Hlast.
  rewrite <- (read_words_interleave items last Hitems Hlast).
  rewrite (read_words_step (lead +:+ _)), (read_words_step (interleave _ +:+ _)).
  assert (Hscan : scan_next_word (lead +:+ interleave items +:+ last)
                  = scan_next_word (interleave items +:+ last)).
  { unfold scan_next_word, fscanf_word. rewrite (skip_space_lead _ _ Hlead).
    reflexivity. }
  rewrite Hscan. reflexivity.
Qed.

Lemma read_words_round_trip_witness :
  read_words (String "010" EmptyString
              +:+ interleave [("The", " "); ("cat", " ("); ("sat.", " - ")]
              +:+ "Done.")
  = map fst [("The", " "); ("cat", " ("); ("sat.", " - ")]
    ++ (if decide ("Done." = EmptyString) then [] else ["Done."]).
Proof.
  apply (read_words_round_trip (String "010" EmptyString)
           [("The", " "); ("cat", " ("); ("sat.", " - ")] "Done.").
  - reflexivity.
  - repeat constructor; simpl; try discriminate; try lia.
  - right. repeat constructor; simpl; try discriminate; lia.
Defined.

Lemma create_model_Exit1 text : create_model text = Exit1 <-> text = [].
Proof.
  split; [|intros ->; reflexivity].
  intros H. destruct text as [|token text]; [reflexivity|]. exfalso.
  destruct (decide (within_capacity (token :: text))) as [Hfit|Hfit].
  - destruct (create_model_reflects (token :: text)) as (st & Hst & _);
      [discriminate|assumption|]. congruence.
  - destruct (scan_loop_overflows _ Hfit) as (u & Hu & _).
    unfold create_model in H. rewrite Hu in H. discriminate.
Qed.

(** X16.  [create_model] ends the program with status 1 exactly when the file
    pointer is NULL or the first character after the leading white space
    is not one of the scanset (or there is none): a text that begins with
    a digit, a quotation mark or a bracket yields no model, whatever
    follows. *)
Theorem create_model_from_file_no_words text :
  create_model_from_file text = Exit1 <->
  match text with
  | None => True
  | Some text => starts_in_scanset (skip_space text) = false
  end.
Proof.
  destruct text as [text|]; simpl; [|tauto].
  rewrite create_model_Exit1, <- scan_next_word_None, read_words_step.
  destruct (scan_next_word text) as [[buf rest]|]; split; congruence.
Qed.

(** X17.  A run of more than 50 characters of the scanset is cut after the
    50th: the first 50 are delivered as one word and the others stay in
    the file, to be read as the next word. *)
Theorem scan_next_word_cuts_long_words w rest :
  all_chars in_scanset w = true -> String.length w = MAX_WORD_LENGTH ->
  starts_in_scanset rest = true ->
  scan_next_word (w +:+ rest) = Some (w, rest) /\
  exists next_word_buf rest',
    scan_next_word rest = Some (next_word_buf, rest') /\
    read_words (w +:+ rest) = w :: next_word_buf :: read_words rest'.
Proof.
  intros Ha Hl Hrest.
  assert (Hw : word_text w).
  { split; [intros ->; discriminate|]. split; [rewrite Hl; reflexivity|exact Ha]. }
  assert (H1 : scan_next_word (w +:+ rest) = Some (w, rest)).
  { pose proof (word_text_starts w rest Hw) as Hstart.
    unfold scan_next_word, fscanf_word.
    rewrite (skip_space_starts _ Hstart).
    destruct (w +:+ rest) as [|c0 t0] eqn:E0; [discriminate|]. rewrite <- E0.
    rewrite (scan_set_append in_scanset 50 w rest Ha);
      [|rewrite Hl; reflexivity|left; exact Hl].
    destruct w as [|c w]; [discriminate|].
    rewrite (skip_space_starts _ Hrest).
    destruct rest as [|d rest]; [discriminate|].
    simpl in Hrest. simpl. rewrite Hrest. reflexivity. }
  split; [exact H1|].
  destruct (scan_next_word rest) as [[buf rest']|] eqn:E2.
  - exists buf, rest'. split; [reflexivity|].
    rewrite read_words_step, H1. f_equal.
    rewrite read_words_step, E2. reflexivity.
  - apply scan_next_word_None in E2.
    rewrite (skip_space_starts _ Hrest) in E2. congruence.
Qed.

Lemma scan_next_word_cuts_long_words_witness :
  scan_next_word
    ("abcdefghijklmnopqrstuvwxyabcdefghijklmnopqrstuvwxy" +:+ "z next")
  = Some ("abcdefghijklmnopqrstuvwxyabcdefghijklmnopqrstuvwxy", "z next") /\
  exists next_word_buf rest',
    scan_next_word "z next" = Some (next_word_buf, rest') /\
    read_words ("abcdefghijklmnopqrstuvwxyabcdefghijklmnopqrstuvwxy" +:+ "z next")
    = "abcdefghijklmnopqrstuvwxyabcdefghijklmnopqrstuvwxy"
      :: next_word_buf :: read_words rest'.
Proof.
  apply (scan_next_word_cuts_long_words
           "abcdefghijklmnopqrstuvwxyabcdefghijklmnopqrstuvwxy" "z next");
    reflexivity.
Defined.

(** X18.  Reading stops for good at a run of more than 50 characters that are
    neither white space nor of the scanset (a ruler of dashes, a long
    number): the call after the word before it skips 50 of them, the
    next call fails on the 51st, and the words after it are never read. *)
Theorem read_words_stops_at_long_run w run rest :
  word_text w ->
  all_chars (fun c => negb (in_scanset c) && negb (isspace c)) run = true ->
  MAX_WORD_LENGTH < String.length run ->
  read_words (w +:+ run +:+ rest) = [w].
Proof.
  intros Hw Hrun Hlen.
  assert (Hsplit : exists skipped c left,
             run = skipped +:+ String c left /\ String.length skipped = 50 /\
             all_chars (fun c => negb (in_scanset c)) skipped = true /\
             in_scanset c = false /\ isspace c = false /\
             exists c0 t0, skipped = String c0 t0 /\ isspace c0 = false).
  { unfold MAX_WORD_LENGTH in Hlen. clear Hw.
    assert (Hgen : forall n run,
              all_chars (fun c => negb (in_scanset c) && negb (isspace c)) run = true ->
              n < String.length run ->
              exists skipped c left,
                run = skipped +:+ String c left /\ String.length skipped = n /\
                all_chars (fun c => negb (in_scanset c)) skipped = true /\
                in_scanset c = false /\ isspace c = false /\
                (0 < n -> exists c0 t0, skipped = String c0 t0 /\ isspace c0 = false)).
    { clear. induction n as [|n IH]; intros run Ha Hl.
      - destruct run as [|c run]; [simpl in Hl; lia|].
        simpl in Ha. apply andb_true_iff in Ha. destruct Ha as [Hc _].
        apply andb_true_iff in Hc. destruct Hc as [Hc1 Hc2].
        exists EmptyString, c, run. split; [reflexivity|]. split; [reflexivity|].
        split; [reflexivity|].
        split; [destruct (in_scanset c); [discriminate|reflexivity]|].
        split; [destruct (isspace c); [discriminate|reflexivity]|]. lia.
      - destruct run as [|c run]; [simpl in Hl; lia|].
        simpl in Ha. apply andb_true_iff in Ha. destruct Ha as [Hc Ha].
        apply andb_true_iff in Hc. destruct Hc as [Hc1 Hc2].
        destruct (IH run Ha) as (sk & d & left & -> & Hsk & Hska & Hd1 & Hd2 & _);
          [simpl in Hl; lia|].
        exists (String c sk), d, left. split; [reflexivity|].
        split; [simpl; lia|]. split; [simpl; rewrite Hc1; exact Hska|].
        split; [exact Hd1|]. split; [exact Hd2|]. intros _.
        exists c, sk. split; [reflexivity|].
        destruct (isspace c); [discriminate|reflexivity]. }
    destruct (Hgen 50 run Hrun Hlen)
      as (sk & c & left & H1 & H2 & H3 & H4 & H5 & H6).
    exists sk, c, left. repeat (split; [assumption|]). apply H6. lia. }
  destruct Hsplit as (skipped & c & left & -> & Hsk & Hska & Hc1 & Hc2
                      & c0 & t0 & Hsk0 & Hc0).
  assert (Hfirst : scan_next_word (w +:+ (skipped +:+ String c left) +:+ rest)
                   = Some (w, String c left +:+ rest)).
  { pose proof (word_text_starts w ((skipped +:+ String c left) +:+ rest) Hw)
      as Hstart.
    destruct Hw as (Hne & Hwl & Hwa).
    unfold scan_next_word, fscanf_word.
    rewrite (skip_space_starts _ Hstart).
    destruct (w +:+ (skipped +:+ String c left) +:+ rest) as [|c1 t1] eqn:E0;
      [discriminate|].
    rewrite <- E0.
    rewrite (scan_set_append in_scanset 50 w _ Hwa Hwl).
    - destruct w as [|d w]; [congruence|].
      rewrite append_assoc.
      assert (Hskip : skip_space (skipped +:+ String c left +:+ rest)
                      = skipped +:+ String c left +:+ rest).
      { rewrite Hsk0, append_cons. simpl. rewrite Hc0. reflexivity. }
      rewrite Hskip.
      rewrite (scan_set_append (fun c => negb (in_scanset c)) 50 skipped
                 (String c left +:+ rest) Hska);
        [reflexivity|lia|left; exact Hsk].
    - right. right. rewrite Hsk0, !append_cons.
      eexists _, _. split; [reflexivity|].
      rewrite Hsk0 in Hska. simpl in Hska. apply andb_true_iff in Hska.
      destruct Hska as [H _]. destruct (in_scanset c0); [discriminate|reflexivity]. }
  rewrite read_words_step, Hfirst. f_equal.
  rewrite read_words_step.
  assert (Hnone : scan_next_word (String c left +:+ rest) = None).
  { apply scan_next_word_None. rewrite append_cons. simpl. rewrite Hc2.
    simpl. exact Hc1. }
  rewrite Hnone. reflexivity.
Qed.

Lemma read_words_stops_at_long_run_witness :
  read_words
    ("End."
     +:+ "---------------------------------------------------"
     +:+ " More words follow.")
  = ["End."].
Proof.
  apply (read_words_stops_at_long_run "End."
           "---------------------------------------------------"
           " More words follow.").
  - repeat constructor; simpl; try discriminate; lia.
  - reflexivity.
  - vm_compute. lia.
Defined.

(** ** Printing the model *)

Lemma print_next_words_Ret model l :
  (exists out, print_next_words model l = Ret out) <->
  Forall (fun p => p < n_w model) l.
Proof.
  induction l as [|p l IH]; simpl.
  - split; [constructor|eauto].
  - split.
    + intros [out H]. bind_step H. bind_step H.
      constructor; [eapply lookup_lt_Some; eauto|]. apply IH. eauto.
    + intros H. apply Forall_cons in H. destruct H as [Hp Hl].
      destruct (lookup_lt_is_Some_2 _ _ Hp) as [w Hw].
      apply IH in Hl. destruct Hl as [out Hout].
      rewrite Hw, Hout. simpl. eauto.
Qed.

Lemma print_starting_words_Ret model l :
  (exists out, print_starting_words model l = Ret out) <->
  Forall (fun p => p < n_w model) l.
Proof.
  induction l as [|p l IH]; simpl.
  - split; [constructor|eauto].
  - split.
    + intros [out H]. bind_step H. bind_step H.
      constructor; [eapply lookup_lt_Some; eauto|]. apply IH. eauto.
    + intros H. apply Forall_cons in H. destruct H as [Hp Hl].
      destruct (lookup_lt_is_Some_2 _ _ Hp) as [w Hw].
      apply IH in Hl. destruct Hl as [out Hout].
      rewrite Hw, Hout. simpl. eauto.
Qed.

Lemma print_words_Ret model ws :
  (exists out, print_words model ws = Ret out) <->
  Forall (fun w => Forall (fun p => p < n_w model) (next_words w)) ws.
Proof.
  induction ws as [|w ws IH]; simpl.
  - split; [constructor|eauto].
  - split.
    + intros [out H]. bind_step H. bind_step H.
      unfold print_word in E. bind_step E.
      constructor; [apply print_next_words_Ret; eauto|]. apply IH. eauto.
    + intros H. apply Forall_cons in H. destruct H as [Hw Hws].
      apply print_next_words_Ret in Hw. destruct Hw as [o1 Ho1].
      apply IH in Hws. destruct Hws as [o2 Ho2].
      unfold print_word. rewrite Ho1. simpl. rewrite Ho2. simpl. eauto.
Qed.

(** X19.  [print_model] follows every pointer of the model: it prints the
    model if all of them point to entries of [words], and reads outside
    the array if one does not. *)
Theorem print_model_follows_pointers model :
  (pointers_in_range model -> exists out, print_model model = Ret out) /\
  (~ pointers_in_range model -> print_model model = Undef wild_pointer).
Proof.
  assert (Hiff : (exists out, print_model model = Ret out)
                 <-> pointers_in_range model).
  { unfold print_model, pointers_in_range.
    rewrite <- print_words_Ret, <- print_starting_words_Ret. split.
    - intros [out H]. bind_step H. bind_step H. eauto.
    - intros [[o1 H1] [o2 H2]]. rewrite H1, H2. simpl. eauto. }
  split; [apply Hiff|].
  intros Hno.
  assert (Hundef : forall l u, print_next_words model l = Undef u -> u = wild_pointer).
  { induction l as [|p l IH]; intros u H; [discriminate|]. simpl in H.
    apply bind_Undef in H. destruct H as [H|(w & _ & H)];
      [eapply deref_Undef; eauto|].
    apply bind_Undef in H. destruct H as [H|(o & _ & H)]; [eauto|discriminate]. }
  assert (Hundef2 : forall l u, print_starting_words model l = Undef u
                                -> u = wild_pointer).
  { induction l as [|p l IH]; intros u H; [discriminate|]. simpl in H.
    apply bind_Undef in H. destruct H as [H|(w & _ & H)];
      [eapply deref_Undef; eauto|].
    apply bind_Undef in H. destruct H as [H|(o & _ & H)]; [eauto|discriminate]. }
  assert (Hundef3 : forall ws u, print_words model ws = Undef u -> u = wild_pointer).
  { induction ws as [|w ws IH]; intros u H; [discriminate|]. simpl in H.
    apply bind_Undef in H. destruct H as [H|(o & _ & H)].
    - unfold print_word in H. apply bind_Undef in H.
      destruct H as [H|(o & _ & H)]; [eauto|discriminate].
    - apply bind_Undef in H. destruct H as [H|(o' & _ & H)]; [eauto|discriminate]. }
  assert (Hkind1 : forall l, (exists out, print_next_words model l = Ret out)
                             \/ exists u, print_next_words model l = Undef u).
  { induction l as [|p l IH]; simpl; [eauto|].
    destruct (words model !! p) as [w|]; simpl; [|eauto].
    destruct IH as [[o ->]|[u ->]]; simpl; eauto. }
  assert (Hkind2 : forall l, (exists out, print_starting_words model l = Ret out)
                             \/ exists u, print_starting_words model l = Undef u).
  { induction l as [|p l IH]; simpl; [eauto|].
    destruct (words model !! p) as [w|]; simpl; [|eauto].
    destruct IH as [[o ->]|[u ->]]; simpl; eauto. }
  assert (Hkind3 : forall ws, (exists out, print_words model ws = Ret out)
                              \/ exists u, print_words model ws = Undef u).
  { induction ws as [|w ws IH]; simpl; [eauto|]. unfold print_word.
    destruct (Hkind1 (next_words w)) as [[o ->]|[u ->]]; simpl; [|eauto].
    destruct IH as [[o' ->]|[u ->]]; simpl; eauto. }
  unfold print_model.
  destruct (Hkind3 (words model)) as [[o1 H1]|[u H1]].
  - destruct (Hkind2 (sentence_starting_words model)) as [[o2 H2]|[u H2]].
    + destruct Hno. apply Hiff. unfold print_model. rewrite H1, H2. simpl. eauto.
    + rewrite H1, H2. simpl. rewrite (Hundef2 _ _ H2). reflexivity.
  - rewrite H1. simpl. rewrite (Hundef3 _ _ H1). reflexivity.
Qed.

Lemma count_lines_append a b :
  count_lines (a +:+ b) = count_lines a + count_lines b.
Proof.
  induction a as [|c a IH]; [reflexivity|]. rewrite append_cons. simpl.
  rewrite IH. lia.
Qed.

Lemma count_lines_no_newline s : all_chars not_newline s = true -> count_lines s = 0.
Proof.
  induction s as [|c s IH]; intros H; [reflexivity|].
  simpl in H. apply andb_true_iff in H. destruct H as [Hc Hs].
  simpl. rewrite (IH Hs). unfold not_newline in Hc.
  destruct (c =? "010")%char; [discriminate|reflexivity].
Qed.

Lemma print_int_no_newline n : all_chars not_newline (print_int n) = true.
Proof.
  assert (Hu : forall d, all_chars not_newline (NilEmpty.string_of_uint d) = true)
    by (induction d; simpl; auto).
  assert (Hz : forall d, all_chars not_newline (NilZero.string_of_uint d) = true)
    by (intros d; destruct d; try reflexivity; apply Hu).
  unfold print_int. destruct (Z.to_int n); simpl; auto.
Qed.

Lemma not_newline_tolower c : not_newline c = true -> not_newline (tolower c) = true.
Proof. destruct c as [[] [] [] [] [] [] [] []]; intros H; try discriminate; reflexivity. Qed.

Lemma in_scanset_not_newline c : in_scanset c = true -> not_newline c = true.
Proof. destruct c as [[] [] [] [] [] [] [] []]; intros H; try discriminate; reflexivity. Qed.

Lemma all_chars_impl (p q : ascii -> bool) s :
  (forall c, p c = true -> q c = true) -> all_chars p s = true -> all_chars q s = true.
Proof.
  intros Hpq. induction s as [|c s IH]; intros H; [reflexivity|].
  simpl in *. apply andb_true_iff in H. destruct H as [Hc Hs].
  rewrite (Hpq c Hc), (IH Hs). reflexivity.
Qed.

Lemma check_if_ends_sentence_chars p token :
  all_chars p token = true -> all_chars p (check_if_ends_sentence token).2 = true.
Proof.
  induction token as [|c token IH]; intros H; [reflexivity|].
  simpl in H. apply andb_true_iff in H. destruct H as [Hc Ht].
  destruct token as [|d token].
  - simpl. destruct (ends_clause c); simpl; [reflexivity|]. rewrite Hc. reflexivity.
  - change (check_if_ends_sentence (String c (String d token)))
      with (let (ends_sentence, rest') := check_if_ends_sentence (String d token) in
            (ends_sentence, String c rest')).
    specialize (IH Ht). destruct (check_if_ends_sentence (String d token)).
    simpl in *. rewrite Hc, IH. reflexivity.
Qed.

Lemma observe_token_chars p new_sentence token :
  (forall c, p c = true -> p (tolower c) = true) ->
  all_chars p token = true ->
  all_chars p (ob_text (observe_token new_sentence token)) = true.
Proof.
  intros Hp H. apply check_if_ends_sentence_chars in H.
  unfold observe_token. destruct (check_if_ends_sentence token) as [e buf].
  simpl in *. destruct new_sentence; [|assumption].
  destruct buf as [|c buf]; [reflexivity|]. simpl in *.
  apply andb_true_iff in H. destruct H as [Hc Hb].
  rewrite (Hp c Hc), Hb. reflexivity.
Qed.

Lemma observe_chars p new_sentence text :
  (forall c, p c = true -> p (tolower c) = true) ->
  Forall (fun token => all_chars p token = true) text ->
  Forall (fun o => all_chars p (ob_text o) = true) (observe new_sentence text).
Proof.
  intros Hp H. revert new_sentence. induction H as [|token text Ht _ IH];
    intros b; simpl; constructor; auto using observe_token_chars.
Qed.

(** The texts of a model built from a file hold no newline. *)
Lemma create_model_from_file_texts text model :
  create_model_from_file (Some text) = Ret model ->
  Forall (fun w => all_chars not_newline (string w) = true) (words model).
Proof.
  simpl. intros H.
  destruct (create_model_Ret_reflects _ _ H) as (st & -> & Hr & _).
  assert (Hobs : Forall (fun o => all_chars not_newline (ob_text o) = true)
                   (observations (read_words text))).
  { apply observe_chars; [exact not_newline_tolower|].
    eapply Forall_impl; [apply read_words_are_words|].
    intros w (_ & _ & Ha). eapply all_chars_impl; [|exact Ha].
    exact in_scanset_not_newline. }
  apply Forall_lookup. intros p w Hw.
  assert (Hin : string w ∈ map ob_text (observations (read_words text))).
  { apply elem_of_vocabulary. rewrite <- (reflects_vocabulary _ _ Hr).
    eapply list_elem_of_lookup_2, lookup_map_string, Hw. }
  apply list_elem_of_In, in_map_iff in Hin. destruct Hin as (o & <- & Hin).
  rewrite Forall_forall in Hobs. apply Hobs, list_elem_of_In, Hin.
Qed.

Section Lines.

Variable model : Model.
Hypothesis texts : Forall (fun w => all_chars not_newline (string w) = true)
                     (words model).

Lemma print_next_words_lines l out :
  print_next_words model l = Ret out -> count_lines out = 0.
Proof.
  revert out. induction l as [|p l IH]; intros out H.
  - injection H as <-. reflexivity.
  - simpl in H. bind_step H. bind_step H. injection H as <-.
    rewrite !count_lines_append, (IH _ E0).
    rewrite Forall_lookup in texts.
    rewrite (count_lines_no_newline _ (texts _ _ E)). reflexivity.
Qed.

Lemma print_word_lines w out :
  all_chars not_newline (string w) = true ->
  print_word model w = Ret out -> count_lines out = 1.
Proof.
  intros Hw H. unfold print_word in H. bind_step H. injection H as <-.
  rewrite !count_lines_append, (print_next_words_lines _ _ E).
  rewrite (count_lines_no_newline _ Hw).
  rewrite (count_lines_no_newline _ (print_int_no_newline _)).
  destruct (is_sentence_ender w); reflexivity.
Qed.

Lemma print_words_lines ws out :
  Forall (fun w => all_chars not_newline (string w) = true) ws ->
  print_words model ws = Ret out -> count_lines out = length ws.
Proof.
  revert out. induction ws as [|w ws IH]; intros out Hws H.
  - injection H as <-. reflexivity.
  - apply Forall_cons in Hws. destruct Hws as [Hw Hws].
    simpl in H. bind_step H. bind_step H. injection H as <-.
    rewrite count_lines_append, (print_word_lines _ _ Hw E), (IH _ Hws E0).
    reflexivity.
Qed.

Lemma print_starting_words_lines l out :
  print_starting_words model l = Ret out -> count_lines out = length l.
Proof.
  revert out. induction l as [|p l IH]; intros out H.
  - injection H as <-. reflexivity.
  - simpl in H. bind_step H. bind_step H. injection H as <-.
    rewrite !count_lines_append, (IH _ E0).
    rewrite Forall_lookup in texts.
    rewrite (count_lines_no_newline _ (texts _ _ E)). reflexivity.
Qed.

Lemma print_model_lines out :
  print_model model = Ret out -> count_lines out = n_w model + n_ssw model + 5.
Proof.
  intros H. unfold print_model in H. bind_step H. bind_step H. injection H as <-.
  rewrite !count_lines_append.
  rewrite (print_words_lines _ _ texts E), (print_starting_words_lines _ _ E0).
  rewrite !(count_lines_no_newline _ (print_int_no_newline _)).
  unfold n_w, n_ssw. simpl. lia.
Qed.

End Lines.

(** X20.  The program print_model, run on a readable file whose text begins
    (after white space) with a character of the scanset and fits the
    arrays of the model, prints the model without undefined behaviour:
    one line for each entry, one for each sentence start, and the five
    lines of the frame. *)
Theorem print_model_main_prints fopen argv filename text :
  argv !! 1 = Some filename -> fopen filename = Some text ->
  starts_in_scanset (skip_space text) = true ->
  within_capacity (read_words text) ->
  exists model out,
    create_model_from_file (Some text) = Ret model /\
    print_model_main fopen argv = Ret out /\
    print_model model = Ret out /\
    count_lines out = n_w model + n_ssw model + 5.
Proof.
  intros Hargv Hopen Hstart Hcap.
  assert (Hne : read_words text <> []).
  { rewrite read_words_step.
    destruct (scan_next_word text) as [[buf rest]|] eqn:E; [discriminate|].
    apply scan_next_word_None in E. congruence. }
  destruct (create_model_reflects _ Hne Hcap) as (st & Hst & Hr).
  assert (Hwf : wf_model (model_of st)).
  { apply (reflects_wf_model _ _ Hr). apply (reflects_bounds _ st Hcap Hr). }
  assert (Hrange : pointers_in_range (model_of st)).
  { destruct Hwf as [Hw Hs]. split; [|exact Hs].
    eapply Forall_impl; [exact Hw|]. intros w [H _]. exact H. }
  assert (Hprint : exists out, print_model (model_of st) = Ret out).
  { unfold print_model.
    destruct (proj2 (print_words_Ret (model_of st) (words (model_of st)))
                (proj1 Hrange)) as [o1 H1].
    destruct (proj2 (print_starting_words_Ret (model_of st)
                       (sentence_starting_words (model_of st)))
                (proj2 Hrange)) as [o2 H2].
    rewrite H1, H2. simpl. eauto. }
  destruct Hprint as [out Hout].
  exists (model_of st), out. split; [exact Hst|]. split; [|split; [exact Hout|]].
  - unfold print_model_main. rewrite Hargv, Hopen.
    change (create_model_from_file (Some text)) with (create_model (read_words text)).
    rewrite Hst. exact Hout.
  - apply print_model_lines; [|exact Hout].
    apply (create_model_from_file_texts text). exact Hst.
Qed.

Lemma print_model_main_prints_witness :
  exists model out,
    create_model_from_file (Some "The cat sat. The dog ran.") = Ret model /\
    print_model_main (fun _ => Some "The cat sat. The dog ran.")
      ["print_model"; "text.txt"] = Ret out /\
    print_model model = Ret out /\
    count_lines out = n_w model + n_ssw model + 5.
Proof.
  apply (print_model_main_prints (fun _ => Some "The cat sat. The dog ran.")
           ["print_model"; "text.txt"] "text.txt" "The cat sat. The dog ran.").
  - reflexivity.
  - reflexivity.
  - reflexivity.
  - apply (bool_decide_unpack _). vm_compute. reflexivity.
Defined.

(** ** The program print_random_sentence *)

Lemma length_map_seq (f : nat -> nat) n : length (map f (seq 0 n)) = n.
Proof. rewrite length_map, length_seq. reflexivity. Qed.

(** X21.  Called with a file name and a word count [n >= 1], on a readable
    file whose text begins (after white space) with a character of the
    scanset and fits the arrays of the model, and with a [rand()] that
    keeps producing every index of the ranges of at most
    [MAX_STARTING_WORDS] indices (as a source within [RAND_MAX] can),
    the program comes to an end without undefined behaviour and prints
    one line: the text of a chain of [n] words of the model from a
    sentence starter to a sentence ender, or that no sentence is
    possible; the latter only if there is no such chain, provided that no
    word leads back to itself in [n - 2] links or fewer. *)
Theorem print_random_sentence_main_prints
  fopen rand stack_int stack_words prog filename arg n text :
  sscanf_int arg = Some (1%Z, Some n) -> (1 <= n)%Z ->
  fopen filename = Some text ->
  starts_in_scanset (skip_space text) = true ->
  within_capacity (read_words text) ->
  fair_upto MAX_STARTING_WORDS rand ->
  exists fuel model,
    create_model_from_file (Some text) = Ret model /\
    (print_random_sentence_main fopen rand fuel stack_int stack_words
       [prog; filename; arg] = Prints no_sentence_line /\
     (no_cycle_within model (Z.to_nat n - 2) ->
      ~ exists l, valid_sentence model (Z.to_nat n) l)
     \/
     exists l ws,
       valid_sentence model (Z.to_nat n) l /\ pointees model l = Ret ws /\
       print_random_sentence_main fopen rand fuel stack_int stack_words
         [prog; filename; arg]
       = Prints (sentence_line n (combine_words ws (Z.to_nat n)))).
Proof.
  intros Harg Hn Hopen Hstart Hcap Hfair.
  assert (Hne : read_words text <> []).
  { rewrite read_words_step.
    destruct (scan_next_word text) as [[buf rest]|] eqn:E; [discriminate|].
    apply scan_next_word_None in E. congruence. }
  destruct (create_model_reflects _ Hne Hcap) as (st & Hst & Hr).
  assert (Hwf : wf_model (model_of st)).
  { apply (reflects_wf_model _ _ Hr). apply (reflects_bounds _ st Hcap Hr). }
  set (N := Z.to_nat n).
  set (s := {| the_model := model_of st; sentence := map stack_words (seq 0 N);
               rand_calls := 0 |}).
  assert (Hfor : fair_for (the_model s) rand).
  { apply (fair_upto_for MAX_STARTING_WORDS); [|exact Hfair].
    apply (built_moduli_bounded (read_words text)); assumption. }
  destruct (generate_sentence_outcome rand N s Hwf (length_map_seq _ _) Hfor)
    as (fuel & r & s' & Hgen & Hsame & Hres); [lia|].
  exists fuel, (model_of st). split; [exact Hst|].
  assert (Hmain : print_random_sentence_main fopen rand fuel stack_int stack_words
                    [prog; filename; arg]
                  = match r with
                    | None => Prints no_sentence_line
                    | Some sentence_string => Prints (sentence_line n sentence_string)
                    end).
  { unfold print_random_sentence_main. simpl length. simpl negb.
    cbn [lookup list_lookup]. rewrite Harg. simpl Z.eqb. cbn iota.
    rewrite Hopen.
    change (create_model_from_file (Some text)) with (create_model (read_words text)).
    rewrite Hst. simpl default.
    destruct (n <=? 0)%Z eqn:En; [apply Z.leb_le in En; lia|].
    fold N. fold s. rewrite Hgen. destruct r; reflexivity. }
  destruct r as [sentence_string|].
  - right. destruct Hres as [Hvalid (ws & Hws & ->)].
    pose proof (pointees_same_fields _ _ (sentence s') Hsame) as Hp.
    rewrite Hws in Hp.
    change (the_model s) with (model_of st) in Hp.
    destruct (pointees (model_of st) (sentence s')) as [ws0| | |] eqn:E0;
      simpl in Hp; try contradiction.
    exists (sentence s'), ws0. split; [exact Hvalid|]. split; [exact E0|].
    rewrite Hmain. rewrite (combine_words_strings _ _ N Hp). reflexivity.
  - left. split; [exact Hmain|]. exact Hres.
Qed.

Lemma print_random_sentence_main_prints_witness :
  exists fuel model,
    create_model_from_file (Some "The cat sat. The dog ran.") = Ret model /\
    (print_random_sentence_main (fun _ => Some "The cat sat. The dog ran.")
       cycling fuel 0%Z (fun _ => 0)
       ["print_random_sentence"; "text.txt"; "3"] = Prints no_sentence_line /\
     (no_cycle_within model (Z.to_nat 3 - 2) ->
      ~ exists l, valid_sentence model (Z.to_nat 3) l)
     \/
     exists l ws,
       valid_sentence model (Z.to_nat 3) l /\ pointees model l = Ret ws /\
       print_random_sentence_main (fun _ => Some "The cat sat. The dog ran.")
         cycling fuel 0%Z (fun _ => 0)
         ["print_random_sentence"; "text.txt"; "3"]
       = Prints (sentence_line 3 (combine_words ws (Z.to_nat 3)))).
Proof.
  apply (print_random_sentence_main_prints
           (fun _ => Some "The cat sat. The dog ran.") cycling 0%Z (fun _ => 0)
           "print_random_sentence" "text.txt" "3" 3%Z
           "The cat sat. The dog ran.").
  - reflexivity.
  - lia.
  - reflexivity.
  - reflexivity.
  - apply (bool_decide_unpack _). vm_compute. reflexivity.
  - apply fair_upto_cycling. unfold MAX_STARTING_WORDS, RAND_MAX. lia.
Defined.

Lemma sscanf_int_blank arg : skip_space arg = EmptyString -> sscanf_int arg = Some (EOF, None).
Proof. unfold sscanf_int. intros ->. reflexivity. Qed.

(** X22.  The test [!sscanf(argv[2], "%d", &n_words)] lets an empty or blank
    word count pass, as [sscanf] returns [EOF] then: the program goes on
    with the value that [n_words] happens to hold, as if that number had
    been given; with a value that is not positive, up to the array of
    [generate_sentence] that cannot have that size. *)
Theorem print_random_sentence_main_blank_count
  fopen rand fuel stack_int stack_words prog filename arg :
  skip_space arg = EmptyString ->
  (forall arg', sscanf_int arg' = Some (1%Z, Some stack_int) ->
     print_random_sentence_main fopen rand fuel stack_int stack_words
       [prog; filename; arg]
     = print_random_sentence_main fopen rand fuel stack_int stack_words
         [prog; filename; arg']) /\
  (forall text model,
     fopen filename = Some text ->
     create_model_from_file (Some text) = Ret model -> (stack_int <= 0)%Z ->
     print_random_sentence_main fopen rand fuel stack_int stack_words
       [prog; filename; arg]
     = Faults array_size_not_positive).
Proof.
  intros Hblank. apply sscanf_int_blank in Hblank. split.
  - intros arg' Harg'. unfold print_random_sentence_main.
    simpl length. simpl negb. cbn [lookup list_lookup].
    rewrite Hblank, Harg'. reflexivity.
  - intros text model Hopen Hmodel Hle. unfold print_random_sentence_main.
    simpl length. simpl negb. cbn [lookup list_lookup].
    rewrite Hblank. simpl Z.eqb. cbn iota. rewrite Hopen, Hmodel.
    simpl default. apply Z.leb_le in Hle. rewrite Hle. reflexivity.
Qed.

Lemma print_random_sentence_main_blank_count_witness :
  (forall arg', sscanf_int arg' = Some (1%Z, Some 0%Z) ->
     print_random_sentence_main (fun _ => Some "The cat sat. The dog ran.")
       counting 30 0%Z (fun _ => 0) ["print_random_sentence"; "text.txt"; " "]
     = print_random_sentence_main (fun _ => Some "The cat sat. The dog ran.")
         counting 30 0%Z (fun _ => 0)
         ["print_random_sentence"; "text.txt"; arg']) /\
  (forall text model,
     (fun _ : String.string => Some "The cat sat. The dog ran.") "text.txt"
     = Some text ->
     create_model_from_file (Some text) = Ret model -> (0 <= 0)%Z ->
     print_random_sentence_main (fun _ => Some "The cat sat. The dog ran.")
       counting 30 0%Z (fun _ => 0) ["print_random_sentence"; "text.txt"; " "]
     = Faults array_size_not_positive).
Proof.
  apply (print_random_sentence_main_blank_count
           (fun _ => Some "The cat sat. The dog ran.") counting 30 0%Z
           (fun _ => 0) "print_random_sentence" "text.txt" " ").
  reflexivity.
Defined.

(** ** Random numbers *)

(** X23.  For bounds that are [int]s, as the code has them, and as long
    as what the code computes from them fits an [int]: [random_int]
    returns a number within the bounds whenever the lower bound is not
    above the upper one and the number of values between them is at most
    [INT_MAX], whatever [rand()] returns; it divides by zero when the
    upper bound is one below the lower one; and it fails its assertion
    when the upper bound is further below, the largest sum that it can
    then compute, [lower_bound + (lower_bound - upper_bound - 2)], being
    at most [INT_MAX]. *)
Theorem random_int_cases rand lower_bound upper_bound s :
  (INT_MIN <= lower_bound <= INT_MAX)%Z ->
  (INT_MIN <= upper_bound <= INT_MAX)%Z ->
  ((lower_bound <= upper_bound)%Z ->
   (upper_bound - lower_bound + 1 <= INT_MAX)%Z ->
   exists n, random_int rand lower_bound upper_bound s
             = Ret (n, {| the_model := the_model s; sentence := sentence s;
                          rand_calls := S (rand_calls s) |}) /\
             (lower_bound <= n <= upper_bound)%Z) /\
  (upper_bound = (lower_bound - 1)%Z ->
   random_int rand lower_bound upper_bound s = Undef division_by_zero) /\
  ((upper_bound < lower_bound - 1)%Z ->
   (lower_bound + (lower_bound - upper_bound - 2) <= INT_MAX)%Z ->
   random_int rand lower_bound upper_bound s = Undef assertion_failed).
Proof.
  intros _ _. unfold random_int. split; [|split].
  - intros Hle _.
    destruct (upper_bound - lower_bound + 1 =? 0)%Z eqn:E0;
      [apply Z.eqb_eq in E0; lia|].
    pose proof (Z.rem_bound_pos (Z.of_nat (rand (rand_calls s)))
                  (upper_bound - lower_bound + 1) ltac:(lia) ltac:(lia)) as Hb.
    eexists. split.
    + assert (Hin : ((lower_bound <=?
                       Z.rem (Z.of_nat (rand (rand_calls s)))
                         (upper_bound - lower_bound + 1) + lower_bound)
                     && (Z.rem (Z.of_nat (rand (rand_calls s)))
                           (upper_bound - lower_bound + 1) + lower_bound
                         <=? upper_bound))%Z = true).
      { apply andb_true_iff. split; apply Z.leb_le; lia. }
      rewrite Hin. reflexivity.
    + lia.
  - intros ->. replace (lower_bound - 1 - lower_bound + 1)%Z with 0%Z by lia.
    reflexivity.
  - intros Hlt _.
    destruct (upper_bound - lower_bound + 1 =? 0)%Z eqn:E0;
      [apply Z.eqb_eq in E0; lia|].
    pose proof (Z.rem_bound_pos (Z.of_nat (rand (rand_calls s)))
                  (- (upper_bound - lower_bound + 1)) ltac:(lia) ltac:(lia)) as Hb.
    rewrite Z.rem_opp_r in Hb by lia.
    assert (Hout : ((lower_bound <=?
                       Z.rem (Z.of_nat (rand (rand_calls s)))
                         (upper_bound - lower_bound + 1) + lower_bound)
                     && (Z.rem (Z.of_nat (rand (rand_calls s)))
                           (upper_bound - lower_bound + 1) + lower_bound
                         <=? upper_bound))%Z = false).
    { apply andb_false_iff. right. apply Z.leb_gt. lia. }
    rewrite Hout. reflexivity.
Qed.

Lemma random_int_cases_witness :
  ((0 <= 9)%Z -> (9 - 0 + 1 <= INT_MAX)%Z ->
   exists n, random_int cycling 0 9 (start_state (model_of_text cat_dog) 3)
             = Ret (n, {| the_model :=
                            the_model (start_state (model_of_text cat_dog) 3);
                          sentence :=
                            sentence (start_state (model_of_text cat_dog) 3);
                          rand_calls :=
                            S (rand_calls (start_state (model_of_text cat_dog) 3))
                        |}) /\
             (0 <= n <= 9)%Z) /\
  (9%Z = (0 - 1)%Z ->
   random_int cycling 0 9 (start_state (model_of_text cat_dog) 3)
   = Undef division_by_zero) /\
  ((9 < 0 - 1)%Z -> (0 + (0 - 9 - 2) <= INT_MAX)%Z ->
   random_int cycling 0 9 (start_state (model_of_text cat_dog) 3)
   = Undef assertion_failed).
Proof.
  apply (random_int_cases cycling 0 9 (start_state (model_of_text cat_dog) 3));
    unfold INT_MIN, INT_MAX; lia.
Defined.

(** ** Termination depends on the random numbers *)

(** X24.  The two search loops draw indices until they hit one that is
    not marked; they have no other way out.  As long as [rand()] only
    yields marked indices while an unmarked one is left, neither loop
    returns, however many iterations it is given. *)
Theorem search_loops_spin_on_marked_indices rand fuel N :
  (forall ssw_checked s,
     not_all_checked ssw_checked (n_ssw (the_model s)) = true ->
     (forall k, ssw_checked !! (rand k mod n_ssw (the_model s)) = Some true) ->
     starting_words_loop rand fuel N ssw_checked s = Timeout) /\
  (forall i this_word s w,
     words (the_model s) !! this_word = Some w ->
     not_all_checked (tested w) (n_nw w) = true ->
     (forall k, tested w !! (rand k mod n_nw w) = Some true) ->
     next_words_loop rand fuel N i this_word s = Timeout).
Proof.
  split.
  - induction fuel as [|fuel IH]; intros ssw_checked s HC Hmarked; [reflexivity|].
    rewrite starting_words_loop_S, HC.
    destruct (not_all_checked_true _ _ HC) as (k & Hk & _).
    destruct (random_int_nonempty rand (n_ssw (the_model s)) s) as (v & Hv & Hmod);
      [lia|].
    rewrite Hv. cbn [mbind result_bind]. rewrite Hmod, Hmarked.
    cbn [deref mbind result_bind negb].
    apply IH; assumption.
  - induction fuel as [|fuel IH]; intros i this_word s w Hw HC Hmarked;
      [reflexivity|].
    rewrite next_words_loop_S, Hw. cbn [deref mbind result_bind]. rewrite HC.
    destruct (not_all_checked_true _ _ HC) as (k & Hk & _).
    destruct (random_int_nonempty rand (n_nw w) s) as (v & Hv & Hmod); [lia|].
    rewrite Hv. cbn [mbind result_bind]. rewrite Hmod, Hmarked.
    cbn [deref mbind result_bind negb].
    apply (IH i this_word _ w); assumption.
Qed.

Lemma search_loops_spin_on_marked_indices_witness :
  starting_words_loop (fun _ => 0) 1000 4 [true; false]
    (start_state (model_of_text cat_dog) 4) = Timeout.
Proof.
  apply (proj1 (search_loops_spin_on_marked_indices (fun _ => 0) 1000 4)
           [true; false] (start_state (model_of_text cat_dog) 4)).
  - reflexivity.
  - intros k. reflexivity.
Defined.
